(** * AdForge backend: a shallow embedding of the request handlers

    The repository holds the Express server in two revisions.  The first
    one is [src/unnamed/part_001].  The later one is reproduced in
    [src/backend/music/GET_MUSIC.md], lines 79 to 998; it is the first
    revision with a longer script sanitizer, with the timing allocator
    [segmentScriptAndMatchImages] and its report [validateTimingSync], and
    with a video pipeline that normalises the images and gives every clip
    its own duration.  The endpoints for image analysis and script
    drafting, [extractFeatures], the upload storage, the audio step and
    the two clean-up blocks of the video endpoint are the same text in
    both.

    What the two revisions share is defined once.  Where they differ, the
    definitions at top level follow the first revision and the module
    [Full] follows the later one, under the names of the source.

    JavaScript strings are sequences of UTF-16 code units; they are kept
    as lists of code units so that the line terminators and the white
    space that the regular expressions and [trim] look at are the real
    ones.  Numbers are exact: an integer is a [Z] and a quotient a [Q],
    where JavaScript has the double nearest to it.  The file system is
    the finite set of paths of the files that exist; the external services
    (OpenAI, FFmpeg, the clock) are an oracle record. *)

From Stdlib Require Import QArith.
From stdpp Require Import gmap list strings pretty sorting.
From Equations Require Import Equations.

Local Open Scope Z_scope.

(** ** JavaScript strings *)

Abbreviation jsstring := (list N).

(** Code units of an ASCII literal. *)
Fixpoint js (s : string) : jsstring :=
  match s with
  | EmptyString => []
  | String a r => Ascii.N_of_ascii a :: js r
  end.
Arguments js : simpl never.

Module Cu.
Definition lbracket : N := 91.
Definition rbracket : N := 93.
Definition star : N := 42.
Definition newline : N := 10.
Definition lparen : N := 40.
Definition rparen : N := 41.
Definition minus : N := 45.
Definition plus : N := 43.
Definition zero : N := 48.
Definition colon : N := 58.
Definition space : N := 32.
Definition slash : N := 47.
End Cu.

(** LineTerminator of ECMAScript: LF, CR, LS, PS.  The dot of a regular
    expression without the [s] flag matches every code unit but these. *)
Definition is_line_terminator (c : N) : bool :=
  (c =? 10)%N || (c =? 13)%N || (c =? 8232)%N || (c =? 8233)%N.

(** WhiteSpace and LineTerminator, the code units removed by
    [String.prototype.trim] and skipped by [parseInt]. *)
Definition is_whitespace (c : N) : bool :=
  (c =? 9)%N || (c =? 11)%N || (c =? 12)%N || (c =? 32)%N || (c =? 160)%N
  || (c =? 5760)%N || ((8192 <=? c)%N && (c <=? 8202)%N)
  || (c =? 8239)%N || (c =? 8287)%N || (c =? 12288)%N || (c =? 65279)%N
  || is_line_terminator c.

Fixpoint trim_start (s : jsstring) : jsstring :=
  match s with
  | [] => []
  | c :: r => if is_whitespace c then trim_start r else s
  end.

Definition trim_end (s : jsstring) : jsstring :=
  reverse (trim_start (reverse s)).

Definition trim (s : jsstring) : jsstring := trim_end (trim_start s).

Fixpoint starts_with (sub s : jsstring) : bool :=
  match sub, s with
  | [], _ => true
  | _ :: _, [] => false
  | a :: sub', b :: s' => (a =? b)%N && starts_with sub' s'
  end.

(** [String.prototype.includes]. *)
Fixpoint includes (s sub : jsstring) : bool :=
  starts_with sub s ||
  match s with
  | [] => false
  | _ :: r => includes r sub
  end.

(** ** Global regular-expression replacement

    [s.replace(/re/g, rep)] for an expression that never matches the empty
    string: the matcher [m] gives the length of the match at the head of
    its argument.  Scanning resumes right after a match, and a code unit
    at which nothing matches is copied. *)
Equations? replace_all (m : jsstring -> option nat) (rep s : jsstring) : jsstring
  by wf (length s) lt :=
  replace_all m rep [] := [];
  replace_all m rep (c :: r) with m (c :: r) => {
    | Some n := rep ++ replace_all m rep (drop (Nat.pred n) r);
    | None := c :: replace_all m rep r }.
Proof. all: simpl; try rewrite length_drop; lia. Qed.

(** The same for an expression with the [m] flag, whose [^] looks behind:
    [bol] tells whether the position is the beginning of a line, that is
    the start of the text or the position after a line terminator of the
    text that is scanned. *)
Definition ends_line (s : jsstring) : bool :=
  match last s with
  | Some c => is_line_terminator c
  | None => false
  end.

Equations? replace_lines (m : bool -> jsstring -> option nat) (rep : jsstring)
    (bol : bool) (s : jsstring) : jsstring by wf (length s) lt :=
  replace_lines m rep bol [] := [];
  replace_lines m rep bol (c :: r) with m bol (c :: r) => {
    | Some n := rep ++ replace_lines m rep (ends_line (c :: take (Nat.pred n) r))
                         (drop (Nat.pred n) r);
    | None := c :: replace_lines m rep (is_line_terminator c) r }.
Proof. all: simpl; try rewrite length_drop; lia. Qed.

(** Offset of the first [']'] when no line terminator comes before it:
    what the lazy [.*?] followed by [\]] finds. *)
Fixpoint find_close (r : jsstring) : option nat :=
  match r with
  | [] => None
  | c :: r' =>
      if (c =? Cu.rbracket)%N then Some 0%nat
      else if is_line_terminator c then None
      else S <$> find_close r'
  end.

(** [/\[.*?\]/] *)
Definition match_bracket (s : jsstring) : option nat :=
  match s with
  | c :: r => if (c =? Cu.lbracket)%N then (λ k, S (S k)) <$> find_close r else None
  | [] => None
  end.

(** [/\*\*/] *)
Definition match_bold (s : jsstring) : option nat :=
  match s with
  | a :: b :: _ => if (a =? Cu.star)%N && (b =? Cu.star)%N then Some 2%nat else None
  | _ => None
  end.

Fixpoint newline_run (s : jsstring) : nat :=
  match s with
  | c :: r => if (c =? Cu.newline)%N then S (newline_run r) else 0%nat
  | [] => 0%nat
  end.

(** [/\n{3,}/]: greedy, so the whole run is one match. *)
Definition match_newlines (s : jsstring) : option nat :=
  let k := newline_run s in
  if (3 <=? k)%nat then Some k else None.

(** The helper [cleanScript] of the first revision. *)
Definition cleanScript (script : jsstring) : jsstring :=
  let cleaned := script in
  let cleaned := replace_all match_bracket [] cleaned in
  let cleaned := replace_all match_bold [] cleaned in
  let cleaned := replace_all match_newlines [Cu.newline; Cu.newline] cleaned in
  let cleaned := trim cleaned in
  cleaned.

(** ** Shapes the sanitizer leaves behind

    Each rewriting step of [cleanScript] is characterised by a scan of the
    text: a text passes the scan exactly when the step finds nothing to
    rewrite in it. *)

(** No [']'] follows a ['['] on the same line; [opened] tells whether a
    ['['] was seen since the last line terminator. *)
Fixpoint no_span (opened : bool) (s : jsstring) : bool :=
  match s with
  | [] => true
  | c :: r =>
      if is_line_terminator c then no_span false r
      else if (c =? Cu.rbracket)%N then negb opened && no_span opened r
      else if (c =? Cu.lbracket)%N then no_span true r
      else no_span opened r
  end.

Definition head_is (c : N) (s : jsstring) : bool :=
  match s with
  | a :: _ => (a =? c)%N
  | [] => false
  end.

(** No two adjacent stars. *)
Fixpoint no_bold (s : jsstring) : bool :=
  match s with
  | [] => true
  | a :: r => negb ((a =? Cu.star)%N && head_is Cu.star r) && no_bold r
  end.

(** No three adjacent line feeds. *)
Fixpoint no_triple (s : jsstring) : bool :=
  match s with
  | [] => true
  | _ :: r => (newline_run s <? 3)%nat && no_triple r
  end.

(** Neither end is white space. *)
Definition starts_clean (s : jsstring) : bool :=
  match s with
  | c :: _ => negb (is_whitespace c)
  | [] => true
  end.

(** ** Numbers *)

(** [Math.ceil(n / 15)] on a string length.  The double division is exact
    whenever 15 divides [n] and otherwise stays at least 1/15 away from
    an integer, so the ceiling is the integer one. *)
Definition ceil_div15 (n : Z) : Z := (n + 14) / 15.

Definition str_length (s : jsstring) : Z := Z.of_nat (length s).

(** Number-to-string of an integer. *)
Definition dec (z : Z) : jsstring := js (pretty z).

Definition digit_value (radix : Z) (c : N) : option Z :=
  let v :=
    if (48 <=? c)%N && (c <=? 57)%N then Some (Z.of_N c - 48)
    else if (97 <=? c)%N && (c <=? 122)%N then Some (Z.of_N c - 87)
    else if (65 <=? c)%N && (c <=? 90)%N then Some (Z.of_N c - 55)
    else None in
  match v with
  | Some d => if d <? radix then Some d else None
  | None => None
  end.

(** Value of the longest prefix of digits, with the number of digits read. *)
Fixpoint read_digits (radix : Z) (acc : Z) (seen : nat) (s : jsstring) : Z * nat :=
  match s with
  | c :: r =>
      match digit_value radix c with
      | Some d => read_digits radix (acc * radix + d) (S seen) r
      | None => (acc, seen)
      end
  | [] => (acc, seen)
  end.

(** The digits of [parseInt] after the sign: an optional [0x] prefix
    selects radix 16, and at least one digit has to be there. *)
Definition parse_magnitude (s : jsstring) : option Z :=
  let '(radix, s) :=
    match s with
    | a :: b :: r =>
        if (a =? Cu.zero)%N && ((b =? 120)%N || (b =? 88)%N) then (16, r) else (10, s)
    | _ => (10, s)
    end in
  let '(v, seen) := read_digits radix 0 0%nat s in
  match seen with
  | O => None
  | S _ => Some v
  end.

(** The mathematical integer that [parseInt(s)], without a radix argument,
    reads from [s]; [None] when it reads none (NaN). *)
Definition parse_integer (s : jsstring) : option Z :=
  match trim_start s with
  | c :: r =>
      if (c =? Cu.minus)%N then Z.opp <$> parse_magnitude r
      else if (c =? Cu.plus)%N then parse_magnitude r
      else parse_magnitude (c :: r)
  | [] => None
  end.

(** The Number value of an integer: the integer itself up to 2^53 in
    magnitude, beyond that the nearest double, a tie going to the even
    significand of 53 bits. *)
Definition to_double (z : Z) : Z :=
  let a := Z.abs z in
  if a <=? 2 ^ 53 then z
  else
    let e := Z.log2 a - 52 in
    let q := a / 2 ^ e in
    let r := a mod 2 ^ e in
    let half := 2 ^ (e - 1) in
    let q' := if r <? half then q
              else if half <? r then q + 1
              else if Z.even q then q else q + 1 in
    Z.sgn z * (q' * 2 ^ e).

(** [parseInt(s)]: the Number value of the integer read, [None] being NaN.
    (An integer of magnitude 2^1024 or more, which takes a string of more
    than 308 digits, gives Infinity in JavaScript; statements about the
    value carry the bound.) *)
Definition parseInt (s : jsstring) : option Z := to_double <$> parse_integer s.

Definition is_digit (c : N) : bool := (48 <=? c)%N && (c <=? 57)%N.

(** ** Request values *)

(** A field of a JSON body. [JObject] stands for arrays and objects. *)
Inductive jsvalue :=
| JUndefined
| JNull
| JBool (b : bool)
| JNumber (q : Q)
| JString (s : jsstring)
| JObject.

Definition truthy (v : jsvalue) : bool :=
  match v with
  | JUndefined | JNull => false
  | JBool b => b
  | JNumber q => negb (Qnum q =? 0)
  | JString s => negb (bool_decide (s = []))
  | JObject => true
  end.

(** A multipart text field: a string, or absent. *)
Definition field_truthy (f : option jsstring) : bool :=
  match f with
  | Some (_ :: _) => true
  | _ => false
  end.

(** A file stored by multer. *)
Record upload_file := { originalname : jsstring; path : jsstring }.

(** ** FFmpeg command templates

    A template literal is its literal chunks and its interpolated values;
    [DQ] is the double quote character.  [CreateClip] and [Concat] are the
    templates of the first revision; [ConvertImage], [CreateTimedClip] and
    [CreateVideo] those of the later one; the two audio templates are the
    same in both. *)
Inductive piece :=
| Lit (s : string)
| DQ
| Str (v : jsstring)
| Int (z : Z)
| Num (q : Q).

Inductive command :=
| CreateClip (imagePath : jsstring) (durationPerImage : Q) (width height : Z) (clipPath : jsstring)
| Concat (concatFilePath videoNoAudioPath : jsstring)
| MixMusic (videoNoAudioPath musicPath voiceoverPath : jsstring)
    (volumeDecimal : Q) (fadeStart : Q) (finalVideoPath : jsstring)
| VoiceOnly (videoNoAudioPath voiceoverPath finalVideoPath : jsstring)
| ConvertImage (sourcePath targetPath : jsstring)
| CreateTimedClip (imgPath : jsstring) (duration : Q) (width height : Z) (clipPath : jsstring)
| CreateUntimedClip (imgPath : jsstring) (width height : Z) (clipPath : jsstring)
| CreateVideo (concatListPath videoNoAudioPath : jsstring).

Definition render (c : command) : list piece :=
  match c with
  | CreateClip imagePath durationPerImage width height clipPath =>
      [Lit "ffmpeg -loop 1 -i "; DQ; Str imagePath; DQ; Lit " -t "; Num durationPerImage;
       Lit " -vf "; DQ; Lit "scale="; Int width; Lit ":"; Int height;
       Lit ":force_original_aspect_ratio=decrease,pad="; Int width; Lit ":"; Int height;
       Lit ":(ow-iw)/2:(oh-ih)/2"; DQ; Lit " -r 30 -c:v libx264 -pix_fmt yuv420p ";
       DQ; Str clipPath; DQ]
  | Concat concatFilePath videoNoAudioPath =>
      [Lit "ffmpeg -f concat -safe 0 -i "; DQ; Str concatFilePath; DQ; Lit " -c copy ";
       DQ; Str videoNoAudioPath; DQ]
  | MixMusic videoNoAudioPath musicPath voiceoverPath volumeDecimal fadeStart finalVideoPath =>
      [Lit "ffmpeg -i "; DQ; Str videoNoAudioPath; DQ; Lit " -stream_loop -1 -i "; DQ;
       Str musicPath; DQ; Lit " -i "; DQ; Str voiceoverPath; DQ; Lit " -filter_complex "; DQ;
       Lit "[1:a]volume="; Num volumeDecimal; Lit ",afade=t=out:st="; Num fadeStart;
       Lit ":d=3[music];[2:a]volume=1.0[voice];[music][voice]amix=inputs=2:duration=shortest:dropout_transition=2[aout]";
       DQ; Lit " -map 0:v -map "; DQ; Lit "[aout]"; DQ; Lit " -c:v copy -c:a aac -shortest ";
       DQ; Str finalVideoPath; DQ]
  | VoiceOnly videoNoAudioPath voiceoverPath finalVideoPath =>
      [Lit "ffmpeg -i "; DQ; Str videoNoAudioPath; DQ; Lit " -i "; DQ; Str voiceoverPath; DQ;
       Lit " -c:v copy -c:a aac -shortest "; DQ; Str finalVideoPath; DQ]
  | ConvertImage sourcePath targetPath =>
      [Lit "ffmpeg -i "; DQ; Str sourcePath; DQ; Lit " -y "; DQ; Str targetPath; DQ]
  | CreateTimedClip imgPath duration width height clipPath =>
      [Lit "ffmpeg -r 1 -i "; DQ; Str imgPath; DQ; Lit " -t "; Num duration;
       Lit " -vf "; DQ; Lit "scale="; Int width; Lit ":"; Int height;
       Lit ":force_original_aspect_ratio=decrease,pad="; Int width; Lit ":"; Int height;
       Lit ":(ow-iw)/2:(oh-ih)/2:black,fps=30"; DQ; Lit " -c:v libx264 -pix_fmt yuv420p -y ";
       DQ; Str clipPath; DQ]
  | CreateUntimedClip imgPath width height clipPath =>
      [Lit "ffmpeg -r 1 -i "; DQ; Str imgPath; DQ; Lit " -t "; Lit "undefined";
       Lit " -vf "; DQ; Lit "scale="; Int width; Lit ":"; Int height;
       Lit ":force_original_aspect_ratio=decrease,pad="; Int width; Lit ":"; Int height;
       Lit ":(ow-iw)/2:(oh-ih)/2:black,fps=30"; DQ; Lit " -c:v libx264 -pix_fmt yuv420p -y ";
       DQ; Str clipPath; DQ]
  | CreateVideo concatListPath videoNoAudioPath =>
      [Lit "ffmpeg -f concat -safe 0 -i "; DQ; Str concatListPath; DQ; Lit " -c copy -y ";
       DQ; Str videoNoAudioPath; DQ]
  end.


(** ** The world: files on disk, and the calls made so far *)

Inductive event :=
| EvVision
| EvSleep (ms : Z)
| EvDraft (analysisText : jsstring)
| EvSpeech (voice input : jsstring)
| EvExec (cmd : command).

Record world := { disk : gset jsstring; log : list event }.

Inductive error :=
| TypeError
| NoFileUploaded
| UploadedFileNotFound
| VisionError
| DraftError
| SpeechError
| ExecError (cmd : command)
| ENOENT (p : jsstring)
| EISDIR (dir : jsstring).

Inductive outcome (A : Type) :=
| Done (a : A)
| Thrown (e : error).
Arguments Done {A} a.
Arguments Thrown {A} e.

Definition M (A : Type) : Type := world → outcome A * world.

Definition ret {A} (a : A) : M A := λ w, (Done a, w).
Definition throw {A} (e : error) : M A := λ w, (Thrown e, w).
Definition bind {A B} (c : M A) (k : A → M B) : M B :=
  λ w, match c w with
       | (Done a, w') => k a w'
       | (Thrown e, w') => (Thrown e, w')
       end.
Definition try_catch {A} (c : M A) (h : error → M A) : M A :=
  λ w, match c w with
       | (Done a, w') => (Done a, w')
       | (Thrown e, w') => h e w'
       end.
(** [try { c } catch (e) { ... }] with the outcome handed to the caller. *)
Definition settle {A} (c : M A) : M (outcome A) :=
  λ w, let '(r, w') := c w in (Done r, w').

Declare Scope js_scope.
Delimit Scope js_scope with jsm.
Notation "'let!' x := c 'in' k" := (bind c (λ x, k))
  (at level 10, x pattern, c at level 100, k at level 200) : js_scope.
Notation "c ;;; k" := (bind c (λ _, k))
  (at level 100, k at level 200, right associativity) : js_scope.
Open Scope js_scope.

Definition existsSync (p : jsstring) : M bool := λ w, (Done (bool_decide (p ∈ disk w)), w).
Definition unlinkSync (p : jsstring) : M unit :=
  λ w, if bool_decide (p ∈ disk w)
       then (Done (), {| disk := disk w ∖ {[p]}; log := log w |})
       else (Thrown (ENOENT p), w).
Definition writeFileSync (p : jsstring) : M unit :=
  λ w, (Done (), {| disk := {[p]} ∪ disk w; log := log w |}).
Definition emit (e : event) : M unit :=
  λ w, (Done (), {| disk := disk w; log := log w ++ [e] |}).
Definition get_log : M (list event) := λ w, (Done (log w), w).

(** [if (fs.existsSync(p)) fs.unlinkSync(p)] *)
Definition unlink_if_exists (p : jsstring) : M unit :=
  let! e := existsSync p in
  if e then unlinkSync p else ret ().

(** [xs.forEach(f)] *)
Fixpoint forEach {A} (f : A → M unit) (xs : list A) : M unit :=
  match xs with
  | [] => ret ()
  | x :: r => f x ;;; forEach f r
  end.

(** ** External services *)

Definition is_vision (e : event) : bool := match e with EvVision => true | _ => false end.
Definition is_draft (e : event) : bool := match e with EvDraft _ => true | _ => false end.
Definition is_speech (e : event) : bool := match e with EvSpeech _ _ => true | _ => false end.
Definition is_exec (e : event) : bool := match e with EvExec _ => true | _ => false end.

Definition count (p : event → bool) (l : list event) : nat := length (filter (λ e, p e = true) l).

(** What the outside answers: the [k]-th call of a service (counted from
    0 over the run) succeeds or is rejected; a media-tool call also
    leaves the disk in some state. *)
Record oracle := {
  dirname : jsstring;
  now : Z;
  vision : nat → option jsstring;
  draft : nat → option jsstring;
  speech : nat → bool;
  ffmpeg : nat → command → gset jsstring → bool * gset jsstring }.

(** ** Responses *)

(** The JSON bodies, reduced to the fields followed here (the feature tags
    of an analysis, the file size and the fixed messages are left out). *)
Inductive reply_body :=
| AnalysisReply (analysis category : jsstring)
| ScriptReply (script : jsvalue)
| VoiceoverReply (audioFile : jsstring) (duration : Z)
| VideoReply (videoFile : jsstring) (duration : Z)
| TimedVideoReply (videoFile : jsstring) (duration : Q)
| ErrorReply (message : string) (details : option error).

Inductive response := Reply (status : Z) (body : reply_body).

(** ** Requests *)

Record analyze_request := {
  a_file : option upload_file;
  a_category : option jsstring;
  a_niche : option jsstring }.

Record analysis_entry := { e_category : jsstring; e_description : jsstring }.

Record script_request := {
  s_niche : jsvalue;
  s_imageAnalysis : option (list (jsstring * analysis_entry));
  s_userScript : jsvalue }.

Record voiceover_request := { v_script : jsvalue; v_voice : option jsstring }.

(** The [category] member that the allocator of the later revision reads
    from an entry of the image analysis: absent or otherwise falsy, a
    string (the empty one is falsy too), or a truthy value that is not a
    string, given by the property key it converts to: [5] by its decimal,
    an array by its joined elements, the empty array by the empty key. *)
Inductive category_value :=
| NoCategory
| StringCategory (s : jsstring)
| OtherCategory (key : jsstring).

(** The [imageAnalysis] field of a video request, as far as the server
    looks at it.  [Unparsable] is a string that [JSON.parse] rejects;
    [Nullish] an absent field or the text [null]; [Analysis] any other
    value, with [no_keys] telling whether [Object.keys] of it is empty and
    [category_of name] what [analysis[name]], or [{}] in its place when it
    is falsy, has for [category]. *)
Inductive analysis_field :=
| Unparsable
| Nullish
| Analysis (no_keys : bool) (category_of : jsstring -> category_value).

Record video_request := {
  files : option (list upload_file);
  script : option jsstring;
  voice : option jsstring;
  music : option jsstring;
  musicVolume : option jsstring;
  aspectRatio : option jsstring;
  imageAnalysis : analysis_field }.

(** ** Pure parts of the video pipeline *)

(** [path.join] of an absolute, normalised directory and a file name. *)
Definition path_join (dir name : jsstring) : jsstring := dir ++ js "/" ++ name.

(** [voice || 'alloy'] *)
Definition voice_or_alloy (voice : option jsstring) : jsstring :=
  if field_truthy voice then default [] voice else js "alloy".

(** [Math.max(10, Math.ceil(cleanedScript.length / 15))]: the duration of
    the first revision, and of the later one when the image analysis does
    not parse. *)
Definition estimatedDuration (cleanedScript : jsstring) : Z :=
  Z.max 10 (ceil_div15 (str_length cleanedScript)).

(** [estimatedDuration / req.files.length].  With no file JavaScript gives
    Infinity; the value then reaches no command, the clip loop being
    empty. *)
Definition durationPerImage (estimated : Z) (n : nat) : Q :=
  (inject_Z estimated / inject_Z (Z.of_nat n))%Q.

Definition resolution (aspectRatio : option jsstring) : Z * Z :=
  if bool_decide (aspectRatio = Some (js "9:16")) then (1080, 1920)
  else if bool_decide (aspectRatio = Some (js "1:1")) then (1080, 1080)
  else (1920, 1080).

(** [(parseInt(musicVolume) || 15) / 100]: NaN and 0 are falsy. *)
Definition volumeDecimal (musicVolume : option jsstring) : Q :=
  let parsed := musicVolume ≫= parseInt in
  let percent :=
    match parsed with
    | Some v => if v =? 0 then 15 else v
    | None => 15
    end in
  (inject_Z percent / 100)%Q.

(** Property names every object literal inherits from [Object.prototype]. *)
Definition object_prototype_keys : list jsstring :=
  js <$> ["constructor"; "hasOwnProperty"; "isPrototypeOf"; "propertyIsEnumerable";
          "toLocaleString"; "toString"; "valueOf"; "__proto__";
          "__defineGetter__"; "__defineSetter__"; "__lookupGetter__"; "__lookupSetter__"]%string.

(** [musicFiles[music] || 'upbeat.mp3']; [None] when the lookup yields an
    inherited member, which is truthy and not a string: [path.join]
    rejects it with a TypeError. *)
Definition musicFile (music : jsstring) : option jsstring :=
  if bool_decide (music = js "upbeat") then Some (js "upbeat.mp3")
  else if bool_decide (music = js "corporate") then Some (js "corporate.mp3")
  else if bool_decide (music = js "calm") then Some (js "calm.mp3")
  else if bool_decide (music = js "inspiring") then Some (js "inspiring.mp3")
  else if bool_decide (music ∈ object_prototype_keys) then None
  else Some (js "upbeat.mp3").

(** [music && music !== 'none'] *)
Definition music_requested (music : option jsstring) : bool :=
  field_truthy music && negb (bool_decide (music = Some (js "none"))).

Fixpoint join_with (sep : jsstring) (parts : list jsstring) : jsstring :=
  match parts with
  | [] => []
  | [x] => x
  | x :: r => x ++ sep ++ join_with sep r
  end.

(** ** Handlers *)

Section Handlers.

Variable o : oracle.

Definition call_vision : M jsstring :=
  let! l := get_log in
  emit EvVision ;;;
  match vision o (count is_vision l) with
  | Some text => ret text
  | None => throw VisionError
  end.

Definition sleep (ms : Z) : M unit := emit (EvSleep ms).

Definition call_draft (analysisText : jsstring) : M jsstring :=
  let! l := get_log in
  emit (EvDraft analysisText) ;;;
  match draft o (count is_draft l) with
  | Some text => ret text
  | None => throw DraftError
  end.

Definition call_speech (voice input : jsstring) : M unit :=
  let! l := get_log in
  emit (EvSpeech voice input) ;;;
  if speech o (count is_speech l) then ret () else throw SpeechError.

Definition execPromise (cmd : command) : M unit :=
  λ w, let '(ok, d) := ffmpeg o (count is_exec (log w)) cmd (disk w) in
       let w' := {| disk := d; log := log w ++ [EvExec cmd] |} in
       if ok then (Done (), w') else (Thrown (ExecError cmd), w').

(** The loop [for (let attempt = 1; attempt <= retries; attempt++)] of the
    vision endpoint; [remaining] counts the iterations left.  The result
    is the pair of [response] and [lastError] after the loop. *)
Fixpoint vision_attempts (remaining attempt retries : nat) (lastError : option error)
  : M (option jsstring * option error) :=
  match remaining with
  | O => ret (None, lastError)
  | S remaining' =>
      let! r := settle call_vision in
      match r with
      | Done text => ret (Some text, lastError)
      | Thrown e =>
          (if (attempt <? retries)%nat then sleep (1000 * Z.of_nat attempt) else ret ()) ;;;
          vision_attempts remaining' (S attempt) retries (Some e)
      end
  end.

(** [app.post('/api/analyze-image')] *)
Definition analyze_image (req : analyze_request) : M response :=
  try_catch
    (match a_file req with
     | None => throw NoFileUploaded
     | Some f =>
         let imagePath := path f in
         let! present := existsSync imagePath in
         if negb present then throw UploadedFileNotFound else
         match a_category req with
         | None => throw TypeError
         | Some category =>
             let retries := 3%nat in
             let! after := vision_attempts retries 1 retries None in
             let '(response, lastError) := after in
             match response with
             | None => throw (default VisionError lastError)
             | Some analysis =>
                 unlink_if_exists imagePath ;;;
                 ret (Reply 200 (AnalysisReply analysis category))
             end
         end
     end)
    (λ e,
       match a_file req with
       | Some f => unlink_if_exists (path f)
       | None => ret ()
       end ;;;
       ret (Reply 500 (ErrorReply "Failed to analyze image" (Some e)))).

(** [userScript.trim()]: only a string has the method. *)
Definition trim_method (v : jsvalue) : M jsstring :=
  match v with
  | JString s => ret (trim s)
  | _ => throw TypeError
  end.

(** [app.post('/api/generate-script')] *)
Definition generate_script (req : script_request) : M response :=
  try_catch
    (let userScript := s_userScript req in
     let! provided :=
       if truthy userScript
       then let! t := trim_method userScript in ret (truthy (JString t))
       else ret false in
     if provided then ret (Reply 200 (ScriptReply userScript))
     else
       match s_imageAnalysis req with
       | None => throw TypeError
       | Some entries =>
           let analysisText :=
             join_with [Cu.newline; Cu.newline]
               ((λ '(_, data), e_category data ++ js ": " ++ e_description data) <$> entries) in
           let! text := call_draft analysisText in
           ret (Reply 200 (ScriptReply (JString (trim text))))
       end)
    (λ e, ret (Reply 500 (ErrorReply "Failed to generate script" (Some e)))).

(** [app.post('/api/generate-voiceover')], calling the sanitizer of the
    first revision *)
Definition generate_voiceover (req : voiceover_request) : M response :=
  try_catch
    (if negb (truthy (v_script req))
     then ret (Reply 400 (ErrorReply "Script is required" None))
     else
       match v_script req with
       | JString script =>
           let cleanedScript := cleanScript script in
           call_speech (voice_or_alloy (v_voice req)) cleanedScript ;;;
           let outputDir := path_join (dirname o) (js "output") in
           let timestamp := now o in
           let audioFile := js "voiceover-" ++ dec timestamp ++ js ".mp3" in
           writeFileSync (path_join outputDir audioFile) ;;;
           ret (Reply 200 (VoiceoverReply audioFile (ceil_div15 (str_length script))))
       | _ => throw TypeError
       end)
    (λ e, ret (Reply 500 (ErrorReply "Failed to generate voiceover" (Some e)))).

(** Step 3a of the video endpoint in the first revision: one clip per
    uploaded image. *)
Fixpoint clip_loop (outputDir : jsstring) (timestamp : Z) (perImage : Q) (width height : Z)
    (i : nat) (rest : list upload_file) (videoClips : list jsstring) : M (list jsstring) :=
  match rest with
  | [] => ret videoClips
  | f :: rest' =>
      let clipPath :=
        path_join outputDir (js "clip-" ++ dec timestamp ++ js "-" ++ dec (Z.of_nat i) ++ js ".mp4") in
      let imagePath := path f in
      execPromise (CreateClip imagePath perImage width height clipPath) ;;;
      clip_loop outputDir timestamp perImage width height (S i) rest' (videoClips ++ [clipPath])
  end.

(** Step 4: the command that adds the audio. *)
Definition audio_command (req : video_request) (estimated : Q)
    (videoNoAudioPath voiceoverPath finalVideoPath : jsstring) : M command :=
  if music_requested (music req) then
    let musicDir := path_join (dirname o) (js "music") in
    match musicFile (default [] (music req)) with
    | None => throw TypeError
    | Some file =>
        let musicPath := path_join musicDir file in
        let! present := existsSync musicPath in
        if present then
          ret (MixMusic videoNoAudioPath musicPath voiceoverPath
                 (volumeDecimal (musicVolume req)) (estimated - 3)%Q finalVideoPath)
        else ret (VoiceOnly videoNoAudioPath voiceoverPath finalVideoPath)
    end
  else ret (VoiceOnly videoNoAudioPath voiceoverPath finalVideoPath).

(** The [try] block of [app.post('/api/generate-video')] in the first
    revision. *)
Definition generate_video_try (req : video_request) : M response :=
  match files req with
  | None => throw TypeError
  | Some uploaded =>
      let outputDir := path_join (dirname o) (js "output") in
      let timestamp := now o in
      match script req with
      | None => throw TypeError
      | Some script =>
          let cleanedScript := cleanScript script in
          call_speech (voice_or_alloy (voice req)) cleanedScript ;;;
          let voiceoverPath := path_join outputDir (js "voice-" ++ dec timestamp ++ js ".mp3") in
          writeFileSync voiceoverPath ;;;
          let estimated := estimatedDuration cleanedScript in
          let perImage := durationPerImage estimated (length uploaded) in
          let '(width, height) := resolution (aspectRatio req) in
          let! videoClips := clip_loop outputDir timestamp perImage width height 0 uploaded [] in
          let concatFilePath := path_join outputDir (js "concat-" ++ dec timestamp ++ js ".txt") in
          writeFileSync concatFilePath ;;;
          let videoNoAudioPath :=
            path_join outputDir (js "video-no-audio-" ++ dec timestamp ++ js ".mp4") in
          execPromise (Concat concatFilePath videoNoAudioPath) ;;;
          forEach unlink_if_exists videoClips ;;;
          unlink_if_exists concatFilePath ;;;
          let videoFile := js "ad-" ++ dec timestamp ++ js ".mp4" in
          let finalVideoPath := path_join outputDir videoFile in
          let! ffmpegAddAudio :=
            audio_command req (inject_Z estimated) videoNoAudioPath voiceoverPath
              finalVideoPath in
          execPromise ffmpegAddAudio ;;;
          unlink_if_exists videoNoAudioPath ;;;
          unlink_if_exists voiceoverPath ;;;
          forEach (λ file, unlink_if_exists (path file)) uploaded ;;;
          let! present := existsSync finalVideoPath in
          if present then ret (Reply 200 (VideoReply videoFile estimated))
          else throw (ENOENT finalVideoPath)
      end
  end.

(** The [catch] block of the video endpoint. *)
Definition generate_video_catch (req : video_request) (e : error) : M response :=
  match files req with
  | Some uploaded => forEach (λ file, unlink_if_exists (path file)) uploaded
  | None => ret ()
  end ;;;
  ret (Reply 500 (ErrorReply "Failed to generate video" (Some e))).

(** [app.post('/api/generate-video')] in the first revision *)
Definition generate_video (req : video_request) : M response :=
  try_catch (generate_video_try req) (generate_video_catch req).

End Handlers.

(** ** Observations on a run *)

(** The clip commands that the loop of step 3a issues, from index [i] on. *)
Definition clip_events (outputDir : jsstring) (timestamp : Z) (perImage : Q) (width height : Z)
    (i : nat) (rest : list upload_file) : list event :=
  imap (λ k f,
          EvExec (CreateClip (path f) perImage width height
                    (path_join outputDir
                       (js "clip-" ++ dec timestamp ++ js "-" ++ dec (Z.of_nat (i + k)) ++ js ".mp4"))))
       rest.

Definition sleeps (l : list event) : list Z :=
  omap (λ e, match e with EvSleep ms => Some ms | _ => None end) l.

(** ** The client side of a video request

    An uploaded asset as the upload form holds it: the stored file and the
    category the user picked for it.  [handleGenerate] appends the files to
    the form in that order, and the image analysis that the component
    holds, as [JSON.stringify] prints it, in the field [imageAnalysis]:
    the categories travel there, under the names of the files. *)
Record asset := { stored : upload_file; cat : jsstring }.

Fixpoint assoc {A} (key : jsstring) (l : list (jsstring * A)) : option A :=
  match l with
  | [] => None
  | (k, v) :: r => if bool_decide (k = key) then Some v else assoc key r
  end.

(** What the server reads back from the printed analysis: the entries of
    the object, each with the string [category] it was stored with. *)
Definition analysis_payload (analysis : list (jsstring * analysis_entry)) : analysis_field :=
  Analysis (bool_decide (analysis = []))
           (λ name, match assoc name analysis with
                    | Some data => StringCategory (e_category data)
                    | None => NoCategory
                    end).

Definition video_request_of (assets : list asset) (analysis : list (jsstring * analysis_entry))
    (text : jsstring) (voiceType musicTrack : jsstring) (volume : Z) (ratio : jsstring)
  : video_request :=
  {| files := Some (stored <$> assets);
     script := Some text;
     voice := Some voiceType;
     music := Some musicTrack;
     musicVolume := Some (dec volume);
     aspectRatio := Some ratio;
     imageAnalysis := analysis_payload analysis |}.

(** The analysis that [analyzeImages] stores for the assets, each under the
    name of its file with the category picked for it. *)
Definition analysis_of (description : jsstring) (assets : list asset)
  : list (jsstring * analysis_entry) :=
  (λ a, (originalname (stored a),
         {| e_category := cat a; e_description := description |})) <$> assets.

(** * The later revision

    [src/backend/music/GET_MUSIC.md], lines 79 to 998: the parts in which
    it differs from the first revision. *)

(** ** Matching under the [i] flag, and runs of a character class

    Without the [u] flag, two code units match under [i] when their upper
    case forms are the same single code unit, a code unit outside ASCII
    never counting as equal to an ASCII one.  The literals of the
    sanitizer are ASCII, so a code unit matches a letter of theirs exactly
    when it is that letter in either case. *)
Definition lower_ascii (c : N) : N :=
  if (65 <=? c)%N && (c <=? 90)%N then (c + 32)%N else c.

Fixpoint starts_with_ci (lit s : jsstring) : bool :=
  match lit, s with
  | [], _ => true
  | _ :: _, [] => false
  | a :: lit', b :: s' => (lower_ascii a =? lower_ascii b)%N && starts_with_ci lit' s'
  end.

(** Length of the longest prefix of [\s], of [\d]. *)
Fixpoint whitespace_run (s : jsstring) : nat :=
  match s with
  | c :: r => if is_whitespace c then S (whitespace_run r) else 0%nat
  | [] => 0%nat
  end.

Fixpoint digit_run (s : jsstring) : nat :=
  match s with
  | c :: r => if is_digit c then S (digit_run r) else 0%nat
  | [] => 0%nat
  end.

(** Offset of the first [close] when no line terminator comes before it. *)
Fixpoint find_closer (close : N) (r : jsstring) : option nat :=
  match r with
  | [] => None
  | c :: r' =>
      if (c =? close)%N then Some 0%nat
      else if is_line_terminator c then None
      else S <$> find_closer close r'
  end.

(** Offset of the first [--] when no line terminator comes before it. *)
Fixpoint find_dashes (r : jsstring) : option nat :=
  match r with
  | [] => None
  | c :: r' =>
      if starts_with [Cu.minus; Cu.minus] r then Some 0%nat
      else if is_line_terminator c then None
      else S <$> find_dashes r'
  end.

(** [$] under the [m] flag: the end of the text, or the position before a
    line terminator. *)
Definition at_line_end (s : jsstring) : bool :=
  match s with
  | [] => true
  | c :: _ => is_line_terminator c
  end.

(** What the greedy [\s+] followed by [$] settles on: the longest prefix of
    white space, of one code unit at least, that stops at a line end. *)
Fixpoint line_end (s : jsstring) : option nat :=
  match s with
  | [] => None
  | c :: r =>
      if is_whitespace c then
        match line_end r with
        | Some j => Some (S j)
        | None => if at_line_end r then Some 1%nat else None
        end
      else None
  end.



Module Full.

(** ** The script sanitizer *)

(** [/^Voiceover:\s*/gim] *)
Definition match_voiceover_line (bol : bool) (s : jsstring) : option nat :=
  if bol && starts_with_ci (js "Voiceover:") s
  then Some (10 + whitespace_run (drop 10 s))%nat
  else None.

(** [/\n\s*Voiceover:\s*/gi]: the first [\s*] takes the whole run of white
    space, the literal not starting with white space. *)
Definition match_voiceover_break (s : jsstring) : option nat :=
  match s with
  | c :: r =>
      if (c =? Cu.newline)%N then
        let k := whitespace_run r in
        if starts_with_ci (js "Voiceover:") (drop k r)
        then Some (1 + k + 10 + whitespace_run (drop (k + 10) r))%nat
        else None
      else None
  | [] => None
  end.

(** [/Scene \d+:/gi] *)
Definition match_scene (s : jsstring) : option nat :=
  if starts_with_ci (js "Scene ") s then
    let k := digit_run (drop 6 s) in
    if (1 <=? k)%nat && head_is Cu.colon (drop (6 + k) s) then Some (6 + k + 1)%nat else None
  else None.

(** [/\[Scene.*?\]/gi] *)
Definition match_scene_bracket (s : jsstring) : option nat :=
  if starts_with_ci (js "[Scene") s
  then (λ k, 6 + k + 1)%nat <$> find_closer Cu.rbracket (drop 6 s)
  else None.

(** [/\(.*?\)/g] *)
Definition match_paren (s : jsstring) : option nat :=
  match s with
  | c :: r => if (c =? Cu.lparen)%N then (λ k, S (S k)) <$> find_closer Cu.rparen r else None
  | [] => None
  end.

(** [/--.*?--/g] *)
Definition match_dashes (s : jsstring) : option nat :=
  match s with
  | a :: b :: r =>
      if (a =? Cu.minus)%N && (b =? Cu.minus)%N
      then (λ k, 2 + k + 2)%nat <$> find_dashes r
      else None
  | _ => None
  end.

(** [/^\s+|\s+$/gm]: at the beginning of a line the first alternative takes
    the whole run of white space; elsewhere only the second one can match. *)
Definition match_line_edges (bol : bool) (s : jsstring) : option nat :=
  if bol && (0 <? whitespace_run s)%nat then Some (whitespace_run s) else line_end s.

(** The helper [cleanScript]. *)
Definition cleanScript (script : jsstring) : jsstring :=
  let cleaned := script in
  let cleaned := replace_all match_bracket [] cleaned in
  let cleaned := replace_all match_bold [] cleaned in
  let cleaned := replace_lines match_voiceover_line [] true cleaned in
  let cleaned := replace_all match_voiceover_break [Cu.newline] cleaned in
  let cleaned := replace_all match_scene [] cleaned in
  let cleaned := replace_all match_scene_bracket [] cleaned in
  let cleaned := replace_all match_paren [] cleaned in
  let cleaned := replace_all match_dashes [] cleaned in
  let cleaned := replace_all match_newlines [Cu.newline; Cu.newline] cleaned in
  let cleaned := replace_lines match_line_edges [] true cleaned in
  let cleaned := trim cleaned in
  cleaned.

(** ** The timing allocator *)

(** The table [categoryKeywords] of [segmentScriptAndMatchImages]. *)
Definition categoryKeywords : list (jsstring * list jsstring) :=
  [ (js "exterior",
     js <$> ["exterior"; "outside"; "front"; "entrance"; "pool"; "backyard"; "outdoor";
             "property"; "home exterior"]%string);
    (js "living-room", js <$> ["living room"; "living area"; "family room"; "lounge"]%string);
    (js "kitchen",
     js <$> ["kitchen"; "cook"; "appliances"; "granite"; "countertop"; "dining"]%string);
    (js "bedroom",
     js <$> ["bedroom"; "sleep"; "rest"; "sanctuary"; "retreat"; "master bedroom"]%string);
    (js "bathroom", js <$> ["bathroom"; "bath"; "shower"; "vanity"; "tub"]%string) ].

(** [imageData.category || 'unknown'], as the property key it is used
    for. *)
Definition category_key (v : category_value) : jsstring :=
  match v with
  | NoCategory => js "unknown"
  | StringCategory s => if bool_decide (s = []) then js "unknown" else s
  | OtherCategory key => key
  end.

(** [imagesByCategory[category].push(file)], on the object kept as the list
    of its own properties in the order of their creation. *)
Fixpoint group_add (category : jsstring) (file : upload_file)
    (groups : list (jsstring * list upload_file)) : list (jsstring * list upload_file) :=
  match groups with
  | [] => [(category, [file])]
  | (c, images) :: rest =>
      if bool_decide (c = category) then (c, images ++ [file]) :: rest
      else (c, images) :: group_add category file rest
  end.

Definition imagesByCategory (category_of : jsstring -> category_value)
    (files : list upload_file) : list (jsstring * list upload_file) :=
  foldl (λ groups file, group_add (category_key (category_of (originalname file))) file groups)
        [] files.

(** A property key that is an array index: the decimal of an integer from
    0 to 2^32 - 2, without sign and without leading zero. *)
Definition array_index (key : jsstring) : option Z :=
  match key with
  | [] => None
  | c :: r =>
      if forallb is_digit key && (negb (c =? Cu.zero)%N || bool_decide (r = [])) then
        let n := (read_digits 10 0 0%nat key).1 in
        if n <=? 4294967294 then Some n else None
      else None
  end.

Fixpoint insert_index {A} (n : Z) (x : A) (l : list (Z * A)) : list (Z * A) :=
  match l with
  | [] => [(n, x)]
  | (m, y) :: l' => if n <=? m then (n, x) :: l else (m, y) :: insert_index n x l'
  end.

(** [Object.entries]: the properties whose key is an array index come
    first, in ascending order of the index, then the others in the order
    of their creation. *)
Definition entries {A} (obj : list (jsstring * A)) : list (jsstring * A) :=
  (foldr (λ p acc, match array_index p.1 with
                   | Some n => insert_index n p acc
                   | None => acc
                   end) [] obj).*2
  ++ filter (λ p, array_index p.1 = None) obj.

(** [category.replace('-', ' ')]: the first hyphen only. *)
Fixpoint replace_first (a b : N) (s : jsstring) : jsstring :=
  match s with
  | [] => []
  | c :: r => if (c =? a)%N then b :: r else c :: replace_first a b r
  end.

(** [categoryKeywords[category] || [category.replace('-', ' ')]], for a
    category that is not a name every object inherits. *)
Definition keywords_of (category : jsstring) : list jsstring :=
  default [replace_first Cu.minus Cu.space category] (assoc category categoryKeywords).

(** The positions that the loop
    [while ((pos = scriptLower.indexOf(keyword, pos)) !== -1) { ...; pos += keyword.length }]
    visits, for a keyword that is not empty: [pos] is the offset of [s] in
    the script, and the scan skips [skip] code units after a hit. *)
Fixpoint occurrences (keyword s : jsstring) (pos : Z) (skip : nat) : list Z :=
  match s with
  | [] => []
  | _ :: r =>
      match skip with
      | S k => occurrences keyword r (pos + 1) k
      | O =>
          if starts_with keyword s
          then pos :: occurrences keyword r (pos + 1) (Nat.pred (length keyword))
          else occurrences keyword r (pos + 1) 0%nat
      end
  end.

Record segment := {
  category : jsstring;
  images : list upload_file;
  startPos : Z;
  endPos : Z }.

Definition charLength (seg : segment) : Z := endPos seg - startPos seg.

(** One round of [for (const [category, images] of Object.entries(...))]. *)
Definition segment_of (scriptLower : jsstring) (totalChars : Z)
    (entry : jsstring * list upload_file) : segment :=
  let '(earliestPosition, latestPosition) :=
    foldl (λ acc keyword,
             foldl (λ '(earliestPosition, latestPosition) pos,
                      (Z.min earliestPosition pos,
                       Z.max latestPosition (pos + str_length keyword)))
                   acc (occurrences keyword scriptLower 0 0%nat))
          (999999, -1) (keywords_of entry.1) in
  let '(earliestPosition, latestPosition) :=
    if earliestPosition =? 999999 then (totalChars, totalChars)
    else (earliestPosition, latestPosition) in
  {| category := entry.1; images := entry.2;
     startPos := earliestPosition; endPos := latestPosition |}.

(** [segments.sort((a, b) => a.startPos - b.startPos)]: the sort of the
    engine is stable. *)
Fixpoint insert_segment (x : segment) (l : list segment) : list segment :=
  match l with
  | [] => [x]
  | y :: l' => if startPos x <=? startPos y then x :: l else y :: insert_segment x l'
  end.

Definition sort_segments (l : list segment) : list segment := foldr insert_segment [] l.

(** [Math.max(3, Math.ceil(seg.charLength / 15))] *)
Definition segmentDuration (seg : segment) : Z := Z.max 3 (ceil_div15 (charLength seg)).

(** The entries that one segment pushes on [timings]. *)
Definition segment_timings (seg : segment) : list Q :=
  replicate (length (images seg))
            (inject_Z (segmentDuration seg) / inject_Z (Z.of_nat (length (images seg))))%Q.

(** What a call of the allocator comes to: it returns the files in their
    new order, with the durations or with [null] in their place; or it
    throws; or it never returns. *)
Inductive allocation :=
| Allocated (orderedFiles : list upload_file) (durations : option (list Q))
| AllocationThrows
| AllocationLoops.

Section Allocator.

(** [String.prototype.toLowerCase] is the Unicode lower-casing of the
    engine; its table is taken as a parameter. *)
Variable toLowerCase : jsstring -> jsstring.

(** The sorted segments of a script, for an image analysis that has a
    category for every name. *)
Definition segments (files : list upload_file) (script : jsstring)
    (category_of : jsstring -> category_value) : list segment :=
  sort_segments
    (segment_of (toLowerCase script) (str_length script)
       <$> entries (imagesByCategory category_of files)).

(** [segmentScriptAndMatchImages].  An analysis that does not parse sends
    the files back as they came.  Otherwise [script.toLowerCase()] needs a
    script; reading [analysis[fileName]] needs an analysis that is not
    nullish; a category that names a member every object inherits finds
    that member in place of a list and [push] is not a function of it;
    and the empty property key, which only a value like the empty array
    converts to, is searched under the empty keyword, for which [indexOf]
    never answers -1: the loop does not end. *)
Definition segmentScriptAndMatchImages (files : list upload_file) (script : option jsstring)
    (imageAnalysis : analysis_field) : allocation :=
  match imageAnalysis with
  | Unparsable => Allocated files None
  | Nullish =>
      match script, files with
      | Some _, [] => Allocated [] (Some [])
      | _, _ => AllocationThrows
      end
  | Analysis _ category_of =>
      match script with
      | None => AllocationThrows
      | Some script =>
          let keys := (λ file, category_key (category_of (originalname file))) <$> files in
          if existsb (λ key, bool_decide (key ∈ object_prototype_keys)) keys
          then AllocationThrows
          else if existsb (λ key, bool_decide (key = [])) keys then AllocationLoops
          else
            let segments := segments files script category_of in
            Allocated (segments ≫= images) (Some (segments ≫= segment_timings))
      end
  end.

(** [validateTimingSync] only prints, but it can throw: when the analysis
    has keys, a category that is not a string has neither [replace] nor
    [toUpperCase]. *)
Definition validateTimingSync (files : list upload_file) (imageAnalysis : analysis_field)
  : M unit :=
  match imageAnalysis with
  | Analysis false category_of =>
      if existsb (λ file, match category_of (originalname file) with
                          | OtherCategory _ => true
                          | _ => false
                          end) files
      then throw TypeError else ret ()
  | _ => ret ()
  end.

(** ** Handlers *)

Variable o : oracle.

(** [app.post('/api/generate-voiceover')] *)
Definition generate_voiceover (req : voiceover_request) : M response :=
  try_catch
    (if negb (truthy (v_script req))
     then ret (Reply 400 (ErrorReply "Script is required" None))
     else
       match v_script req with
       | JString script =>
           let cleanedScript := cleanScript script in
           call_speech o (voice_or_alloy (v_voice req)) cleanedScript ;;;
           let outputDir := path_join (dirname o) (js "output") in
           let timestamp := now o in
           let audioFile := js "voiceover-" ++ dec timestamp ++ js ".mp3" in
           writeFileSync (path_join outputDir audioFile) ;;;
           ret (Reply 200 (VoiceoverReply audioFile (ceil_div15 (str_length script))))
       | _ => throw TypeError
       end)
    (λ e, ret (Reply 500 (ErrorReply "Failed to generate voiceover" (Some e)))).

(** [String(i).padStart(4, '0')] *)
Definition padStart4 (s : jsstring) : jsstring := replicate (4 - length s) Cu.zero ++ s.

Definition img_name (i : nat) : jsstring :=
  js "img" ++ padStart4 (dec (Z.of_nat i)) ++ js ".png".

Definition clip_name (i : nat) : jsstring :=
  js "clip" ++ padStart4 (dec (Z.of_nat i)) ++ js ".mp4".

(** The loop that converts the images to PNG. *)
Fixpoint convert_loop (tempImageDir : jsstring) (i : nat) (rest : list upload_file) : M unit :=
  match rest with
  | [] => ret ()
  | file :: rest' =>
      let targetPath := path_join tempImageDir (img_name i) in
      execPromise o (ConvertImage (path file) targetPath) ;;;
      convert_loop tempImageDir (S i) rest'
  end.

(** The loop that builds the clips.  Where [imageDurations[i]] is
    [undefined] the command is built with that text and run, and
    [duration.toFixed] throws after it.  (The allocator returns one
    duration per file, so a request does not get there.) *)
Fixpoint clip_loop (tempImageDir clipDir : jsstring) (width height : Z)
    (estimatedDuration : Q) (count : nat) (imageDurations : option (list Q))
    (i : nat) (rest : list upload_file) : M unit :=
  match rest with
  | [] => ret ()
  | _ :: rest' =>
      let imgPath := path_join tempImageDir (img_name i) in
      let clipPath := path_join clipDir (clip_name i) in
      match match imageDurations with
            | Some durations => durations !! i
            | None => Some (estimatedDuration / inject_Z (Z.of_nat count))%Q
            end with
      | Some duration =>
          execPromise o (CreateTimedClip imgPath duration width height clipPath) ;;;
          clip_loop tempImageDir clipDir width height estimatedDuration count imageDurations
            (S i) rest'
      | None =>
          execPromise o (CreateUntimedClip imgPath width height clipPath) ;;;
          throw TypeError
      end
  end.

(** A path that lies in a directory, at any depth; and one that lies in it
    directly. *)
Definition inside (dir p : jsstring) : bool := starts_with (dir ++ js "/") p.

Definition entry_is_file (dir p : jsstring) : bool :=
  negb (bool_decide (Cu.slash ∈ drop (length dir + 1) p)).

(** [fs.readdirSync(dir).forEach(name => fs.unlinkSync(path.join(dir, name)))]
    and [fs.rmdirSync(dir)].  Directories are not kept in the set of
    paths: a directory that the handler made is there, and an entry of it
    is a directory when some file lies deeper.  [unlinkSync] throws on
    such an entry; the order of the listing being that of the file
    system, the model takes the listing that starts with it. *)
Definition remove_directory (dir : jsstring) : M unit :=
  λ w, let listed := filter (λ p, inside dir p = true) (disk w) in
       if bool_decide (set_Forall (λ p, entry_is_file dir p = true) listed)
       then (Done (), {| disk := disk w ∖ listed; log := log w |})
       else (Thrown (EISDIR dir), w).

(** [imageDurations ? imageDurations.reduce((a, b) => a + b, 0)
                    : Math.max(10, Math.ceil(cleanedScript.length / 15))] *)
Definition estimated_duration (imageDurations : option (list Q)) (cleanedScript : jsstring) : Q :=
  match imageDurations with
  | Some durations => foldl Qplus 0%Q durations
  | None => inject_Z (estimatedDuration cleanedScript)
  end.

(** The [try] block of [app.post('/api/generate-video')] after the call of
    the allocator. *)
Definition generate_video_try (req : video_request) (orderedFiles : list upload_file)
    (imageDurations : option (list Q)) : M response :=
  validateTimingSync orderedFiles (imageAnalysis req) ;;;
  let outputDir := path_join (dirname o) (js "output") in
  let timestamp := now o in
  match script req with
  | None => throw TypeError
  | Some script =>
      let cleanedScript := cleanScript script in
      call_speech o (voice_or_alloy (voice req)) cleanedScript ;;;
      let voiceoverPath := path_join outputDir (js "voice-" ++ dec timestamp ++ js ".mp3") in
      writeFileSync voiceoverPath ;;;
      let estimatedDuration := estimated_duration imageDurations cleanedScript in
      let '(width, height) := resolution (aspectRatio req) in
      let tempImageDir := path_join outputDir (js "imgs-" ++ dec timestamp) in
      convert_loop tempImageDir 0 orderedFiles ;;;
      let videoNoAudioPath :=
        path_join outputDir (js "video-no-audio-" ++ dec timestamp ++ js ".mp4") in
      let clipDir := path_join outputDir (js "clips-" ++ dec timestamp) in
      clip_loop tempImageDir clipDir width height estimatedDuration (length orderedFiles)
        imageDurations 0 orderedFiles ;;;
      let concatListPath := path_join outputDir (js "concat-" ++ dec timestamp ++ js ".txt") in
      writeFileSync concatListPath ;;;
      execPromise o (CreateVideo concatListPath videoNoAudioPath) ;;;
      remove_directory tempImageDir ;;;
      remove_directory clipDir ;;;
      unlinkSync concatListPath ;;;
      let videoFile := js "ad-" ++ dec timestamp ++ js ".mp4" in
      let finalVideoPath := path_join outputDir videoFile in
      let! ffmpegAddAudio :=
        audio_command o req estimatedDuration videoNoAudioPath voiceoverPath finalVideoPath in
      execPromise o ffmpegAddAudio ;;;
      unlink_if_exists videoNoAudioPath ;;;
      unlink_if_exists voiceoverPath ;;;
      forEach (λ file, unlink_if_exists (path file)) orderedFiles ;;;
      let! present := existsSync finalVideoPath in
      if present then ret (Reply 200 (TimedVideoReply videoFile estimatedDuration))
      else throw (ENOENT finalVideoPath)
  end.

(** The [catch] block, for the value that [req.files] has by then. *)
Definition generate_video_catch (files : option (list upload_file)) (e : error) : M response :=
  match files with
  | Some uploaded => forEach (λ file, unlink_if_exists (path file)) uploaded
  | None => ret ()
  end ;;;
  ret (Reply 500 (ErrorReply "Failed to generate video" (Some e))).

(** [app.post('/api/generate-video')].  The handler has no answer, [None],
    when the allocator does not return. *)
Definition generate_video (req : video_request) (w : world)
  : option (outcome response * world) :=
  match files req with
  | None => Some (generate_video_catch None TypeError w)
  | Some uploaded =>
      match segmentScriptAndMatchImages uploaded (script req) (imageAnalysis req) with
      | Allocated orderedFiles imageDurations =>
          Some (try_catch (generate_video_try req orderedFiles imageDurations)
                          (generate_video_catch (Some orderedFiles)) w)
      | AllocationThrows => Some (generate_video_catch (Some uploaded) TypeError w)
      | AllocationLoops => None
      end
  end.

End Allocator.

End Full.

(** ** Spans that close within reach

    [closes close stop s]: a [close] occurs in [s] before any code unit
    that [stop] holds of. *)
Fixpoint closes (close : N) (stop : N -> bool) (s : jsstring) : bool :=
  match s with
  | [] => false
  | c :: r => if (c =? close)%N then true else if stop c then false else closes close stop r
  end.

(** Every [open] of [s] that has a [close] somewhere after it has one
    within reach: before any code unit that [stop] holds of. *)
Definition closed_in_reach (open close : N) (stop : N -> bool) (s : jsstring) : Prop :=
  ∀ pre post, s = pre ++ open :: post → close ∈ post → closes close stop post = true.

(** The same as a check. *)
Fixpoint closed_in_reachb (open close : N) (stop : N -> bool) (s : jsstring) : bool :=
  match s with
  | [] => true
  | c :: r =>
      (negb (c =? open)%N || negb (bool_decide (close ∈ r)) || closes close stop r)
      && closed_in_reachb open close stop r
  end.

(** No [open] of [s] has a [close] anywhere after it. *)
Definition no_pair (open close : N) (s : jsstring) : Prop :=
  ∀ pre post, s = pre ++ open :: post → close ∉ post.

(** The shape of [/\[.*?\]/] and [/\(.*?\)/]. *)
Definition match_delim (open close : N) (s : jsstring) : option nat :=
  match s with
  | c :: r => if (c =? open)%N then (λ k, S (S k)) <$> find_closer close r else None
  | [] => None
  end.

(** A matcher whose matches either hold no [close] and are deleted, or
    start with a code unit that [stop] holds of. *)
Definition spares (close : N) (stop : N -> bool) (m : bool -> jsstring -> option nat)
    (rep : jsstring) : Prop :=
  ∀ bol c r n, m bol (c :: r) = Some n →
               (rep = [] ∧ close ∉ c :: take (Nat.pred n) r) ∨ stop c = true.

(** A line terminator, or an opening bracket. *)
Definition ends_reach (c : N) : bool := is_line_terminator c || (c =? Cu.lbracket)%N.

(** ** Observations on a run of the later revision *)



(** The calls of the conversion loop, from index [i] on. *)
Definition convert_events (tempImageDir : jsstring) (i : nat) (rest : list upload_file)
  : list event :=
  imap (λ k file,
          EvExec (ConvertImage (path file) (path_join tempImageDir (Full.img_name (i + k)))))
       rest.

(** The calls of the clip loop, from index [i] on, for the durations that
    it reads. *)
Definition timed_clip_events (tempImageDir clipDir : jsstring) (width height : Z) (i : nat)
    (durations : list Q) : list event :=
  imap (λ k duration,
          EvExec (CreateTimedClip (path_join tempImageDir (Full.img_name (i + k))) duration
                    width height (path_join clipDir (Full.clip_name (i + k)))))
       durations.

(** The durations that the clip loop reads for [count] files:
    [imageDurations[i]], or the equal share of the estimate. *)
Definition clip_durations (estimated : Q) (count : nat) (imageDurations : option (list Q))
  : list Q :=
  match imageDurations with
  | Some durations => take count durations
  | None => replicate count (estimated / inject_Z (Z.of_nat count))%Q
  end.

(** ** Sample surroundings *)

Definition output_of (c : command) : jsstring :=
  match c with
  | CreateClip _ _ _ _ out => out
  | Concat _ out => out
  | MixMusic _ _ _ _ _ out => out
  | VoiceOnly _ _ out => out
  | ConvertImage _ out => out
  | CreateTimedClip _ _ _ _ out => out
  | CreateUntimedClip _ _ _ out => out
  | CreateVideo _ out => out
  end.

(** Every service answers, and FFmpeg leaves its output file. *)
Definition obliging : oracle :=
  {| dirname := js "/srv/adforge/backend";
     now := 1700000000000;
     vision := λ _, Some (js "A bright, modern room.");
     draft := λ _, Some (js "Welcome home.");
     speech := λ _, true;
     ffmpeg := λ _ c d, (true, {[output_of c]} ∪ d) |}.

(** The second media-tool call exits with an error and writes nothing. *)
Definition second_call_fails : oracle :=
  {| dirname := dirname obliging;
     now := now obliging;
     vision := vision obliging;
     draft := draft obliging;
     speech := speech obliging;
     ffmpeg := λ k c d, if (k =? 1)%nat then (false, d) else ffmpeg obliging k c d |}.

(** The vision service rejects every call. *)
Definition vision_down : oracle :=
  {| dirname := dirname obliging;
     now := now obliging;
     vision := λ _, None;
     draft := draft obliging;
     speech := speech obliging;
     ffmpeg := ffmpeg obliging |}.

Definition stored_as (name : string) : upload_file :=
  {| originalname := js name;
     path := js "/srv/adforge/backend/uploads/1699999999000-" ++ js name |}.

Definition kitchen_asset : asset := {| stored := stored_as "kitchen.jpg"; cat := js "kitchen" |}.
Definition bedroom_asset : asset := {| stored := stored_as "bedroom.jpg"; cat := js "bedroom" |}.

(** [toLowerCase] on a text of ASCII code units, which the sample scripts
    are. *)
Definition lower_ascii_text (s : jsstring) : jsstring := lower_ascii <$> s.

(** What the vision service is taken to have said of every sample image. *)
Definition sample_description : jsstring := js "A bright, modern room.".

Definition tour_script : jsstring :=
  js "Our beautiful kitchen features granite counters. The bedroom is a peaceful retreat.".




(** The disk once multer has stored the two images; no music file is
    installed. *)
Definition after_upload : world :=
  {| disk := {[ path (stored_as "kitchen.jpg"); path (stored_as "bedroom.jpg") ]};
     log := [] |}.

Definition kitchen_first : video_request :=
  video_request_of [kitchen_asset; bedroom_asset] (analysis_of sample_description [kitchen_asset; bedroom_asset])
    tour_script (js "alloy") (js "upbeat") 15 (js "16:9").


Definition loud_request : video_request :=
  video_request_of [kitchen_asset] (analysis_of sample_description [kitchen_asset])
    tour_script (js "alloy") (js "upbeat") 50 (js "16:9").

Definition kitchen_analysis : analyze_request :=
  {| a_file := Some (stored_as "kitchen.jpg");
     a_category := Some (js "kitchen");
     a_niche := Some (js "real-estate") |}.

Definition own_script_request : script_request :=
  {| s_niche := JString (js "real-estate");
     s_imageAnalysis := None;
     s_userScript := JString (js "  Welcome home.  ") |}.




(** The disk with the stock music installed. *)
Definition with_music : world :=
  {| disk := {[ js "/srv/adforge/backend/music/upbeat.mp3" ]} ∪ disk after_upload;
     log := [] |}.

(** ** Feature tags of an analysis

    [extractFeatures] of the server.  [String.prototype.toLowerCase] is the
    Unicode lower-casing of the engine; its table is taken as a parameter. *)
Definition feature_keywords : list jsstring :=
  js <$> ["modern"; "spacious"; "natural light"; "hardwood"; "granite"; "stainless steel";
          "updated"; "luxury"; "cozy"; "bright"; "open concept"; "high ceilings";
          "backyard"; "pool"; "fireplace"; "balcony"; "parking"; "storage";
          "equipment"; "facility"; "amenity"; "premium"; "quality"; "design"]%string.

Section Features.

Variable toLowerCase : jsstring → jsstring.

Definition extractFeatures (text : jsstring) : list jsstring :=
  let lowerText := toLowerCase text in
  let found :=
    foldl (λ found keyword,
             if includes lowerText keyword && negb (bool_decide (keyword ∈ found))
             then found ++ [keyword] else found)
          [] feature_keywords in
  take 5 found.

End Features.

(** [filename] of the multer storage: [Date.now() + '-' + file.originalname]. *)
Definition storage_filename (now : Z) (originalname : jsstring) : jsstring :=
  dec now ++ js "-" ++ originalname.

(** The files that the media-tool calls of a log write. *)
Definition outputs (l : list event) : list jsstring :=
  omap (λ e, match e with EvExec c => Some (output_of c) | _ => None end) l.

(** A media tool that creates nothing but the output file of its command. *)
Definition adds_only_output (o : oracle) : Prop :=
  ∀ k c d, (ffmpeg o k c d).2 ⊆ {[output_of c]} ∪ d.

(** A media tool that removes no file. *)
Definition keeps_files (o : oracle) : Prop :=
  ∀ k c d, d ⊆ (ffmpeg o k c d).2.

(** [m] makes media-tool calls that write the files of a plan, in the
    order of the plan: all of them when it returns; when it throws the
    error of a command, that command is the call it stopped at; and it
    makes no call after one that the media tool fails: if the tool fails
    its call number [k], whatever that call is, then [m] makes no call
    beyond it and throws its error. *)
Definition issues (o : oracle) {A} (m : M A) (planned : list jsstring) : Prop :=
  ∀ w r w', m w = (r, w') →
    ∃ made,
      outputs made `prefix_of` planned ∧ log w' = log w ++ made ∧
      (∀ a, r = Done a → outputs made = planned) ∧
      (∀ c, r = Thrown (ExecError c) → last made = Some (EvExec c)) ∧
      (∀ k, (∀ c d, (ffmpeg o k c d).1 = false) → (count is_exec (log w) ≤ k)%nat →
            (count is_exec (log w') ≤ S k)%nat ∧
            (count is_exec (log w') = S k → ∃ c, r = Thrown (ExecError c))).

(** * Properties *)

(** ** Strings *)

Lemma jsstring_length_ind (P : jsstring → Prop) :
  (∀ s, (∀ t, (length t < length s)%nat → P t) → P s) → ∀ s, P s.
Proof.
  intros step s. remember (length s) as n eqn:Hn. revert s Hn.
  induction n as [n IHn] using lt_wf_ind. intros s ->.
  apply step. intros t Ht. by eapply IHn.
Qed.

Lemma replace_all_nil m rep : replace_all m rep [] = [].
Proof. by simp replace_all. Qed.

Lemma replace_all_cons m rep c r :
  replace_all m rep (c :: r) =
  match m (c :: r) with
  | Some n => rep ++ replace_all m rep (drop (Nat.pred n) r)
  | None => c :: replace_all m rep r
  end.
Proof. simp replace_all. by destruct (m (c :: r)). Qed.

Ltac cu :=
  unfold is_whitespace, is_line_terminator, Cu.lbracket, Cu.rbracket, Cu.star,
    Cu.newline, Cu.lparen, Cu.rparen in *.

(** Closes a goal whose hypotheses put one code unit in two classes. *)
Ltac absurd_char :=
  exfalso; cu;
  repeat match goal with
         | H : (_ =? _)%N = true |- _ => apply N.eqb_eq in H; subst
         end;
  simpl in *; congruence.

Lemma includes_spec s sub :
  includes s sub = true ↔ ∃ pre post, s = pre ++ sub ++ post.
Proof.
  assert (Hsw : ∀ a b, starts_with a b = true ↔ ∃ post, b = a ++ post).
  { induction a as [|x a IH]; intros [|y b]; simpl.
    - split; [by exists []|done].
    - split; [by eexists|done].
    - split; [done|]. by intros [? ?].
    - rewrite andb_true_iff, IH, N.eqb_eq. split.
      + intros [-> [post ->]]. by exists post.
      + intros [post [= -> ->]]. eauto. }
  induction s as [|c s IH]; simpl.
  - rewrite orb_false_r, Hsw. split.
    + intros [post Hp]. by exists [], post.
    + intros (pre & post & Hp). destruct pre; [|done]. simpl in Hp. eauto.
  - rewrite orb_true_iff, Hsw, IH. split.
    + intros [[post ->]|(pre & post & ->)]; [by exists [], post|by exists (c :: pre), post].
    + intros (pre & post & Hp). destruct pre as [|x pre]; simpl in Hp.
      * left. eauto.
      * right. injection Hp as -> ->. eauto.
Qed.

(** *** Bracket spans *)

Lemma no_span_weaken s : no_span true s = true → no_span false s = true.
Proof.
  induction s as [|c s IH]; simpl; [done|].
  destruct (is_line_terminator c); [done|].
  destruct (c =? Cu.rbracket)%N; [done|].
  by destruct (c =? Cu.lbracket)%N.
Qed.

Lemma no_span_app_l o s t : no_span o (s ++ t) = true → no_span o s = true.
Proof.
  revert o. induction s as [|c s IH]; intros o; simpl; [done|].
  destruct (is_line_terminator c); [apply IH|].
  destruct (c =? Cu.rbracket)%N.
  - rewrite !andb_true_iff. intros [? ?]. eauto.
  - destruct (c =? Cu.lbracket)%N; apply IH.
Qed.

Lemma no_span_app_r o s t : no_span o (s ++ t) = true → no_span false t = true.
Proof.
  revert o. induction s as [|c s IH]; intros o; simpl.
  - destruct o; [apply no_span_weaken|done].
  - destruct (is_line_terminator c); [apply IH|].
    destruct (c =? Cu.rbracket)%N.
    + rewrite andb_true_iff. intros [_ ?]. eauto.
    + destruct (c =? Cu.lbracket)%N; apply IH.
Qed.

Lemma match_bracket_cons c r :
  match_bracket (c :: r) =
  if (c =? Cu.lbracket)%N then (λ k, S (S k)) <$> find_close r else None.
Proof. done. Qed.

Lemma strip_shape s :
  no_span false (replace_all match_bracket [] s) = true ∧
  (find_close s = None → no_span true (replace_all match_bracket [] s) = true).
Proof.
  induction s as [s IH] using jsstring_length_ind.
  destruct s as [|c r]; [by rewrite replace_all_nil|].
  rewrite replace_all_cons, match_bracket_cons.
  destruct (c =? Cu.lbracket)%N eqn:Hl.
  - assert (Hr : (c =? Cu.rbracket)%N = false) by (destruct (c =? Cu.rbracket)%N eqn:?; [absurd_char|done]).
    assert (Hlt : is_line_terminator c = false) by (destruct (is_line_terminator c) eqn:?; [absurd_char|done]).
    simpl find_close. rewrite Hr, Hlt.
    destruct (find_close r) as [k|] eqn:Hk; simpl.
    + destruct (IH (drop (S k) r)) as [H1 _]; [rewrite length_drop; simpl; lia|].
      by split.
    + destruct (IH r) as [_ H2]; [simpl; lia|].
      rewrite Hlt, Hr, Hl. auto.
  - destruct (IH r) as [H1 H2]; [simpl; lia|]. simpl. rewrite Hl.
    destruct (is_line_terminator c) eqn:Hlt.
    + by destruct (c =? Cu.rbracket)%N.
    + destruct (c =? Cu.rbracket)%N; [done|].
      split; [done|]. destruct (find_close r); [done|]. auto.
Qed.

Lemma no_span_plain o c r :
  is_line_terminator c = false → (c =? Cu.rbracket)%N = false → (c =? Cu.lbracket)%N = false →
  no_span o (c :: r) = no_span o r.
Proof. intros H1 H2 H3. simpl. by rewrite H1, H2, H3. Qed.

Lemma no_span_newline o r : no_span o (Cu.newline :: r) = no_span false r.
Proof. done. Qed.

(** *** Bold markers *)

Lemma match_bold_cons a r :
  match_bold (a :: r) = if (a =? Cu.star)%N && head_is Cu.star r then Some 2%nat else None.
Proof. destruct r; simpl; [by rewrite andb_false_r|done]. Qed.

Lemma star_plain c :
  (c =? Cu.star)%N = true →
  is_line_terminator c = false ∧ (c =? Cu.rbracket)%N = false ∧ (c =? Cu.lbracket)%N = false.
Proof. intros ->%N.eqb_eq. done. Qed.

Lemma unbold_head r :
  head_is Cu.star r = false → head_is Cu.star (replace_all match_bold [] r) = false.
Proof.
  destruct r as [|b r]; [by rewrite replace_all_nil|]. simpl. intros Hb.
  by rewrite replace_all_cons, match_bold_cons, Hb.
Qed.

Lemma unbold_shape s : no_bold (replace_all match_bold [] s) = true.
Proof.
  induction s as [s IH] using jsstring_length_ind.
  destruct s as [|a r]; [by rewrite replace_all_nil|].
  rewrite replace_all_cons, match_bold_cons.
  destruct ((a =? Cu.star)%N && head_is Cu.star r) eqn:E; simpl.
  - apply IH. rewrite length_drop. simpl. lia.
  - rewrite IH by (simpl; lia). rewrite andb_true_r, negb_true_iff.
    apply andb_false_iff in E as [E|E]; [by rewrite E|].
    by rewrite unbold_head, andb_false_r.
Qed.

Lemma unbold_no_span s : ∀ o, no_span o s = true → no_span o (replace_all match_bold [] s) = true.
Proof.
  induction s as [s IH] using jsstring_length_ind. intros o.
  destruct s as [|a r]; [by rewrite replace_all_nil|].
  rewrite replace_all_cons, match_bold_cons.
  destruct ((a =? Cu.star)%N && head_is Cu.star r) eqn:E.
  - apply andb_true_iff in E as [Ha Hb]. destruct r as [|b r]; [done|]. simpl in Hb.
    destruct (star_plain _ Ha) as (?&?&?). destruct (star_plain _ Hb) as (?&?&?).
    rewrite !no_span_plain by done. simpl. apply IH. rewrite length_drop. simpl. lia.
  - simpl. destruct (is_line_terminator a); [apply IH; simpl; lia|].
    destruct (a =? Cu.rbracket)%N.
    + rewrite !andb_true_iff. intros [? ?]. split; [done|]. apply IH; [simpl; lia|done].
    + destruct (a =? Cu.lbracket)%N; apply IH; simpl; lia.
Qed.

Lemma no_bold_app s t : no_bold (s ++ t) = true → no_bold s = true ∧ no_bold t = true.
Proof.
  induction s as [|a r IH]; simpl; [done|].
  intros [E Hr]%andb_true_iff. destruct (IH Hr) as [? ?]. split; [|done].
  apply andb_true_iff. split; [|done].
  destruct r; [by rewrite andb_false_r|done].
Qed.

(** *** Blank lines *)

Lemma newline_run_drop r : newline_run (drop (newline_run r) r) = 0%nat.
Proof.
  induction r as [|c r IH]; simpl; [done|].
  destruct (c =? Cu.newline)%N eqn:E; simpl; [done|]. by rewrite E.
Qed.

Lemma newline_run_app_le s t : (newline_run s ≤ newline_run (s ++ t))%nat.
Proof.
  induction s as [|c r IH]; simpl; [lia|].
  destruct (c =? Cu.newline)%N; lia.
Qed.

Lemma match_newlines_cons c r :
  match_newlines (c :: r) =
  if (c =? Cu.newline)%N && (2 <=? newline_run r)%nat then Some (S (newline_run r)) else None.
Proof.
  unfold match_newlines. simpl. destruct (c =? Cu.newline)%N; simpl; [|done].
  by destruct (newline_run r) as [|[|?]].
Qed.

Lemma collapse_head_keeps s :
  newline_run s = 0%nat →
  newline_run (replace_all match_newlines [Cu.newline; Cu.newline] s) = 0%nat.
Proof.
  destruct s as [|c r]; [by rewrite replace_all_nil|].
  rewrite replace_all_cons, match_newlines_cons. cbn [newline_run].
  destruct (c =? Cu.newline)%N eqn:E; [done|]. intros _.
  cbn [andb newline_run]. by rewrite E.
Qed.

Lemma collapse_short_run s :
  (newline_run s < 3)%nat →
  newline_run (replace_all match_newlines [Cu.newline; Cu.newline] s) = newline_run s.
Proof.
  induction s as [|c r IH]; [by rewrite replace_all_nil|].
  rewrite replace_all_cons, match_newlines_cons. cbn [newline_run].
  destruct (c =? Cu.newline)%N eqn:E; cbn [andb newline_run]; [|by rewrite E].
  intros H. destruct (2 <=? newline_run r)%nat eqn:E2; [apply Nat.leb_le in E2; lia|].
  cbn [newline_run]. rewrite E, IH; [done|lia].
Qed.

Lemma collapse_shape s :
  no_triple (replace_all match_newlines [Cu.newline; Cu.newline] s) = true.
Proof.
  induction s as [s IH] using jsstring_length_ind.
  destruct s as [|c r]; [by rewrite replace_all_nil|].
  rewrite replace_all_cons, match_newlines_cons.
  destruct (c =? Cu.newline)%N eqn:Ec; cbn [andb].
  - destruct (2 <=? newline_run r)%nat eqn:E.
    + cbn [Nat.pred app no_triple newline_run].
      change (Cu.newline =? Cu.newline)%N with true. cbn iota.
      rewrite collapse_head_keeps by apply newline_run_drop.
      by rewrite IH by (rewrite length_drop; simpl; lia).
    + cbn [no_triple]. rewrite IH by (simpl; lia). rewrite andb_true_r.
      apply Nat.ltb_lt. cbn [newline_run]. rewrite Ec.
      apply Nat.leb_gt in E. rewrite collapse_short_run; lia.
  - cbn [no_triple]. rewrite IH by (simpl; lia). rewrite andb_true_r.
    cbn [newline_run]. by rewrite Ec.
Qed.

Lemma no_triple_app s t : no_triple (s ++ t) = true → no_triple s = true ∧ no_triple t = true.
Proof.
  induction s as [|c r IH]; [done|].
  change ((c :: r) ++ t) with (c :: (r ++ t)). cbn [no_triple].
  intros [E Hr]%andb_true_iff. destruct (IH Hr) as [? ?]. split; [|done].
  apply andb_true_iff. split; [|done].
  apply Nat.ltb_lt. apply Nat.ltb_lt in E.
  pose proof (newline_run_app_le (c :: r) t). simpl in *. lia.
Qed.

Lemma no_bold_drop n s : no_bold s = true → no_bold (drop n s) = true.
Proof.
  intros H. rewrite <- (take_drop n s) in H. by apply no_bold_app in H as [_ ?].
Qed.

Lemma no_span_drop o n s : no_span o s = true → no_span false (drop n s) = true.
Proof. intros H. rewrite <- (take_drop n s) in H. by apply no_span_app_r in H. Qed.

Lemma collapse_star_head r :
  head_is Cu.star (replace_all match_newlines [Cu.newline; Cu.newline] r) = head_is Cu.star r.
Proof.
  destruct r as [|d r]; [by rewrite replace_all_nil|].
  rewrite replace_all_cons, match_newlines_cons.
  destruct ((d =? Cu.newline)%N && (2 <=? newline_run r)%nat) eqn:E; [|done].
  apply andb_true_iff in E as [->%N.eqb_eq _]. done.
Qed.

Lemma collapse_no_bold s :
  no_bold s = true → no_bold (replace_all match_newlines [Cu.newline; Cu.newline] s) = true.
Proof.
  induction s as [s IH] using jsstring_length_ind.
  destruct s as [|c r]; [by rewrite replace_all_nil|].
  rewrite replace_all_cons, match_newlines_cons. intros H.
  destruct ((c =? Cu.newline)%N && (2 <=? newline_run r)%nat) eqn:E.
  - cbn [Nat.pred app no_bold].
    change (Cu.newline =? Cu.star)%N with false. cbn [andb negb].
    apply IH; [rewrite length_drop; simpl; lia|].
    apply no_bold_drop. simpl in H. by apply andb_true_iff in H as [_ ?].
  - cbn [no_bold] in *. apply andb_true_iff in H as [H1 H2].
    rewrite collapse_star_head, H1. apply IH; [simpl; lia|done].
Qed.

Lemma collapse_no_span s :
  ∀ o, no_span o s = true →
       no_span o (replace_all match_newlines [Cu.newline; Cu.newline] s) = true.
Proof.
  induction s as [s IH] using jsstring_length_ind. intros o.
  destruct s as [|c r]; [by rewrite replace_all_nil|].
  rewrite replace_all_cons, match_newlines_cons.
  destruct ((c =? Cu.newline)%N && (2 <=? newline_run r)%nat) eqn:E.
  - apply andb_true_iff in E as [->%N.eqb_eq _].
    cbn [Nat.pred app]. rewrite !no_span_newline. intros H.
    apply IH; [rewrite length_drop; simpl; lia|]. by eapply no_span_drop.
  - simpl. destruct (is_line_terminator c); [apply IH; simpl; lia|].
    destruct (c =? Cu.rbracket)%N.
    + rewrite !andb_true_iff. intros [? ?]. split; [done|]. apply IH; [simpl; lia|done].
    + destruct (c =? Cu.lbracket)%N; apply IH; simpl; lia.
Qed.

(** *** Trimming *)

Lemma trim_start_suffix s : ∃ pre, s = pre ++ trim_start s.
Proof.
  induction s as [|c r [pre IH]]; simpl; [by exists []|].
  destruct (is_whitespace c); [|by exists []].
  exists (c :: pre). simpl. by rewrite <- IH.
Qed.

Lemma trim_end_prefix s : ∃ post, s = trim_end s ++ post.
Proof.
  unfold trim_end. destruct (trim_start_suffix (reverse s)) as [pre H].
  exists (reverse pre). rewrite <- reverse_app, <- H. by rewrite reverse_involutive.
Qed.

Lemma trim_factor s : ∃ pre post, s = pre ++ trim s ++ post.
Proof.
  unfold trim. destruct (trim_start_suffix s) as [pre H1].
  destruct (trim_end_prefix (trim_start s)) as [post H2].
  exists pre, post. by rewrite <- H2.
Qed.

Lemma trim_start_clean s : starts_clean (trim_start s) = true.
Proof.
  induction s as [|c r IH]; simpl; [done|].
  destruct (is_whitespace c) eqn:E; [done|]. simpl. by rewrite E.
Qed.

Lemma trim_start_fixed s : starts_clean s = true → trim_start s = s.
Proof. destruct s as [|c r]; simpl; [done|]. by intros ->%negb_true_iff. Qed.

Lemma trim_end_clean s : starts_clean s = true → starts_clean (trim_end s) = true.
Proof.
  destruct (trim_end_prefix s) as [post H]. destruct (trim_end s) as [|c t]; [done|].
  rewrite H. done.
Qed.

Lemma trim_end_idem s : trim_end (trim_end s) = trim_end s.
Proof.
  unfold trim_end. rewrite reverse_involutive.
  by rewrite (trim_start_fixed (trim_start _)) by apply trim_start_clean.
Qed.

Lemma trim_idem s : trim (trim s) = trim s.
Proof.
  unfold trim.
  rewrite (trim_start_fixed (trim_end _)) by (apply trim_end_clean, trim_start_clean).
  apply trim_end_idem.
Qed.

(** *** The sanitizer as a whole *)

Lemma cleanScript_shape s :
  no_span false (cleanScript s) = true ∧ no_bold (cleanScript s) = true ∧
  no_triple (cleanScript s) = true.
Proof.
  unfold cleanScript.
  set (a := replace_all match_bracket [] s).
  set (b := replace_all match_bold [] a).
  set (c := replace_all match_newlines [Cu.newline; Cu.newline] b).
  assert (Hc : no_span false c = true ∧ no_bold c = true ∧ no_triple c = true).
  { split_and!.
    - apply collapse_no_span, unbold_no_span, strip_shape.
    - apply collapse_no_bold, unbold_shape.
    - apply collapse_shape. }
  destruct Hc as (H1 & H2 & H3). destruct (trim_factor c) as (pre & post & Hf).
  rewrite Hf in H1, H2, H3. split_and!.
  - apply no_span_app_r in H1. by apply no_span_app_l in H1.
  - apply no_bold_app in H2 as [_ H2]. by apply no_bold_app in H2 as [H2 _].
  - apply no_triple_app in H3 as [_ H3]. by apply no_triple_app in H3 as [H3 _].
Qed.

(** ** Runs of the handlers *)

Lemma bind_done {A B} (c : M A) (k : A → M B) w b w' :
  bind c k w = (Done b, w') → ∃ a w1, c w = (Done a, w1) ∧ k a w1 = (Done b, w').
Proof. unfold bind. destruct (c w) as [[a|e] w1]; [eauto|done]. Qed.

Lemma bind_run {A B} (c : M A) (k : A → M B) w a w1 :
  c w = (Done a, w1) → bind c k w = k a w1.
Proof. unfold bind. by intros ->. Qed.

Lemma bind_thrown {A B} (c : M A) (k : A → M B) w e w1 :
  c w = (Thrown e, w1) → bind c k w = (Thrown e, w1).
Proof. unfold bind. by intros ->. Qed.

Lemma count_snoc p l e :
  count p (l ++ [e]) = (count p l + (if p e then 1 else 0))%nat.
Proof.
  unfold count. rewrite filter_app, length_app. f_equal.
  rewrite filter_cons, filter_nil. by destruct (p e).
Qed.

Lemma unlink_if_exists_run p w :
  unlink_if_exists p w = (Done (), {| disk := disk w ∖ {[p]}; log := log w |}).
Proof.
  unfold unlink_if_exists, bind, existsSync, unlinkSync, ret.
  destruct w as [d l]. simpl. case_bool_decide as Hp.
  - by rewrite bool_decide_true.
  - by rewrite difference_disjoint_L by (by apply disjoint_singleton_r).
Qed.

Lemma forEach_unlink_run {A} (g : A → jsstring) xs w :
  forEach (λ x, unlink_if_exists (g x)) xs w =
  (Done (), {| disk := disk w ∖ list_to_set (g <$> xs); log := log w |}).
Proof.
  revert w. induction xs as [|x xs IH]; intros [d l]; simpl.
  - unfold ret. by rewrite difference_empty_L.
  - erewrite bind_run by apply unlink_if_exists_run. rewrite IH. simpl.
    by rewrite difference_difference_l_L.
Qed.

Lemma forEach_unlink_paths_run xs w :
  forEach unlink_if_exists xs w =
  (Done (), {| disk := disk w ∖ list_to_set xs; log := log w |}).
Proof. rewrite <- (list_fmap_id xs) at 2. apply (forEach_unlink_run id). Qed.

Lemma call_speech_run o voice input w :
  call_speech o voice input w =
  (if speech o (count is_speech (log w)) then Done () else Thrown SpeechError,
   {| disk := disk w; log := log w ++ [EvSpeech voice input] |}).
Proof.
  unfold call_speech, bind, get_log, emit, ret, throw. simpl.
  by destruct (speech o _).
Qed.

Lemma execPromise_done o cmd w w' :
  execPromise o cmd w = (Done (), w') → log w' = log w ++ [EvExec cmd].
Proof.
  unfold execPromise. destruct (ffmpeg o _ cmd _) as [[|] d]; [|done].
  by intros [= <-].
Qed.

Lemma clip_loop_done o outputDir timestamp perImage width height rest :
  ∀ i videoClips w clips w',
    clip_loop o outputDir timestamp perImage width height i rest videoClips w = (Done clips, w') →
    log w' = log w ++ clip_events outputDir timestamp perImage width height i rest.
Proof.
  induction rest as [|f rest IH]; intros i videoClips w clips w'; cbn [clip_loop].
  - intros [= _ <-]. by rewrite app_nil_r.
  - intros ([] & w1 & H1 & H2)%bind_done. apply execPromise_done in H1.
    apply IH in H2. rewrite H2, H1, <- app_assoc. f_equal.
    unfold clip_events. cbn [imap app]. rewrite Nat.add_0_r. f_equal.
    apply imap_ext. intros k x _. cbn. by rewrite Nat.add_succ_r.
Qed.

Lemma audio_command_run o req estimated v a f w r w' :
  audio_command o req estimated v a f w = (r, w') → w' = w.
Proof.
  unfold audio_command. destruct (music_requested _); [|by intros [= _ <-]].
  destruct (musicFile _); [|by intros [= _ <-]].
  unfold bind, existsSync, ret. simpl. by case_bool_decide; intros [= _ <-].
Qed.

Lemma generate_video_try_done o req w r w' :
  generate_video_try o req w = (Done r, w') →
  ∃ uploaded s cmd,
    let outputDir := path_join (dirname o) (js "output") in
    let estimated := estimatedDuration (cleanScript s) in
    files req = Some uploaded ∧ script req = Some s ∧
    r = Reply 200 (VideoReply (js "ad-" ++ dec (now o) ++ js ".mp4") estimated) ∧
    log w' =
      log w ++ EvSpeech (voice_or_alloy (voice req)) (cleanScript s)
        :: clip_events outputDir (now o) (durationPerImage estimated (length uploaded))
             (resolution (aspectRatio req)).1 (resolution (aspectRatio req)).2 0 uploaded
        ++ [EvExec (Concat (path_join outputDir (js "concat-" ++ dec (now o) ++ js ".txt"))
                      (path_join outputDir (js "video-no-audio-" ++ dec (now o) ++ js ".mp4")));
            EvExec cmd] ∧
    ∃ w1, audio_command o req (inject_Z estimated)
            (path_join outputDir (js "video-no-audio-" ++ dec (now o) ++ js ".mp4"))
            (path_join outputDir (js "voice-" ++ dec (now o) ++ js ".mp3"))
            (path_join outputDir (js "ad-" ++ dec (now o) ++ js ".mp4")) w1 = (Done cmd, w1).
Proof.
  unfold generate_video_try.
  destruct (files req) as [uploaded|]; [|done].
  destruct (script req) as [s|]; [|done].
  destruct (resolution (aspectRatio req)) as [width height] eqn:Hres.
  intros ([] & w1 & H1 & H)%bind_done.
  rewrite call_speech_run in H1.
  destruct (speech o _); [|done]. injection H1 as <-.
  apply bind_done in H as ([] & w2 & [= <-] & H).
  apply bind_done in H as (clips & w3 & H3%clip_loop_done & H).
  apply bind_done in H as ([] & w4 & [= <-] & H).
  apply bind_done in H as ([] & w5 & H5%execPromise_done & H).
  apply bind_done in H as ([] & w6 & H6 & H).
  rewrite forEach_unlink_paths_run in H6. injection H6 as <-.
  apply bind_done in H as ([] & w7 & H7 & H).
  rewrite unlink_if_exists_run in H7. injection H7 as <-.
  apply bind_done in H as (cmd & w8 & H8 & H).
  pose proof (audio_command_run _ _ _ _ _ _ _ _ _ H8) as ->.
  apply bind_done in H as ([] & w9 & H9%execPromise_done & H).
  apply bind_done in H as ([] & w10 & H10 & H).
  rewrite unlink_if_exists_run in H10. injection H10 as <-.
  apply bind_done in H as ([] & w11 & H11 & H).
  rewrite unlink_if_exists_run in H11. injection H11 as <-.
  apply bind_done in H as ([] & w12 & H12 & H).
  rewrite forEach_unlink_run in H12. injection H12 as <-.
  apply bind_done in H as (present & w13 & [= <- <-] & H).
  case_bool_decide; [|done]. injection H as <- <-.
  exists uploaded, s, cmd. cbn zeta. split_and!; try done.
  - cbn [log] in *. rewrite H9, H5, H3. cbn [log].
    rewrite <- !app_assoc. done.
  - eauto.
Qed.

Lemma generate_video_catch_run req e w :
  generate_video_catch req e w =
  (Done (Reply 500 (ErrorReply "Failed to generate video" (Some e))),
   {| disk := disk w ∖ list_to_set (path <$> default [] (files req)); log := log w |}).
Proof.
  unfold generate_video_catch. destruct (files req) as [uploaded|]; simpl.
  - by erewrite bind_run by apply forEach_unlink_run.
  - unfold bind, ret. rewrite difference_empty_L. by destruct w.
Qed.

Lemma generate_video_ok o req w body w' :
  generate_video o req w = (Done (Reply 200 body), w') →
  generate_video_try o req w = (Done (Reply 200 body), w').
Proof.
  unfold generate_video, try_catch.
  destruct (generate_video_try o req w) as [[r|e] w1]; [done|].
  by rewrite generate_video_catch_run.
Qed.


(** Whenever the speech call succeeds and the first clip command fails
    without touching the disk, the voiceover file written in step 1 is
    still on disk after the handler has answered. *)
Lemma voiceover_outlives_failed_clip o req f uploaded text w :
  files req = Some (f :: uploaded) → script req = Some text →
  speech o (count is_speech (log w)) = true →
  (∀ c d, ffmpeg o (count is_exec (log w)) c d = (false, d)) →
  let voiceoverPath :=
    path_join (path_join (dirname o) (js "output")) (js "voice-" ++ dec (now o) ++ js ".mp3") in
  voiceoverPath ∉ path <$> f :: uploaded →
  voiceoverPath ∈ disk (generate_video o req w).2.
Proof.
  intros Hf Hs Hsp Hff voiceoverPath Hfresh.
  unfold generate_video, try_catch, generate_video_try. rewrite Hf, Hs.
  erewrite bind_run by (by rewrite call_speech_run, Hsp).
  erewrite bind_run by reflexivity.
  destruct (resolution (aspectRatio req)) as [width height].
  erewrite bind_thrown; cycle 1.
  { cbn [clip_loop]. apply bind_thrown. unfold execPromise. cbn [log disk].
    rewrite count_snoc. cbn [is_exec]. rewrite Nat.add_0_r, Hff. reflexivity. }
  rewrite generate_video_catch_run, Hf. cbn [snd disk default].
  apply elem_of_difference. split.
  - apply elem_of_union_l. by apply elem_of_singleton.
  - by rewrite elem_of_list_to_set.
Qed.

(** *** Reading back a printed integer *)

Lemma digit_of_char m :
  (m < 10)%N →
  is_digit (Ascii.N_of_ascii (pretty_N_char m)) = true ∧
  digit_value 10 (Ascii.N_of_ascii (pretty_N_char m)) = Some (Z.of_N m).
Proof.
  intros Hm.
  assert (m = 0 ∨ m = 1 ∨ m = 2 ∨ m = 3 ∨ m = 4 ∨ m = 5 ∨ m = 6 ∨ m = 7 ∨ m = 8 ∨ m = 9)%N
    as Hc by lia.
  repeat (destruct Hc as [Hc|Hc]; [by subst|]). by subst.
Qed.

Lemma js_String a s : js (String a s) = Ascii.N_of_ascii a :: js s.
Proof. done. Qed.

Lemma pretty_go_digits x : ∀ s,
  Forall (λ c, is_digit c = true) (js s) →
  Forall (λ c, is_digit c = true) (js (pretty_N_go x s)).
Proof.
  induction (N.lt_wf_0 x) as [x _ IH]; intros s Hs.
  assert (x = 0 ∨ 0 < x)%N as [->|Hx] by lia; [by rewrite pretty_N_go_0|].
  rewrite pretty_N_go_step by done. apply IH; [by apply N.div_lt|].
  rewrite js_String. constructor; [|done].
  apply digit_of_char. by apply N.mod_lt.
Qed.

Lemma read_digits_pretty_go x : ∀ s acc seen,
  (0 < x)%N →
  ∃ k, read_digits 10 acc seen (js (pretty_N_go x s))
       = read_digits 10 (acc * 10 ^ Z.of_nat (S k) + Z.of_N x) (seen + S k) (js s).
Proof.
  induction (N.lt_wf_0 x) as [x _ IH]; intros s acc seen Hx.
  rewrite pretty_N_go_step by done.
  pose proof (N.div_mod x 10 ltac:(done)) as Hdm.
  pose proof (N.mod_lt x 10 ltac:(done)) as Hlt.
  destruct (digit_of_char (x `mod` 10) Hlt) as [_ Hd].
  assert (x `div` 10 = 0 ∨ 0 < x `div` 10)%N as [H0|Hpos] by lia.
  - rewrite H0, pretty_N_go_0, js_String. exists 0%nat. cbn [read_digits]. rewrite Hd.
    f_equal; [|lia]. change (10 ^ Z.of_nat 1) with 10. lia.
  - destruct (IH (x `div` 10)%N ltac:(by apply N.div_lt)
                (String (pretty_N_char (x `mod` 10)) s) acc seen Hpos) as [k Hk].
    exists (S k). rewrite Hk, js_String. cbn [read_digits]. rewrite Hd.
    f_equal; [|lia]. rewrite (Nat2Z.inj_succ (S k)), Z.pow_succ_r by lia. lia.
Qed.

Lemma digit_bounds d : is_digit d = true → (48 ≤ d ≤ 57)%N.
Proof. unfold is_digit. intros [?%N.leb_le ?%N.leb_le]%andb_true_iff. lia. Qed.

Lemma parse_magnitude_digits d r :
  Forall (λ c, is_digit c = true) (d :: r) →
  parse_magnitude (d :: r) = Some (read_digits 10 0 0 (d :: r)).1.
Proof.
  intros Hall. inversion Hall as [|? ? Hd Hr]; subst.
  pose proof (digit_bounds d Hd) as Hb.
  unfold parse_magnitude.
  assert (Hrad : (match d :: r with
                  | a :: b :: r0 =>
                      if (a =? Cu.zero)%N && ((b =? 120)%N || (b =? 88)%N) then (16, r0)
                      else (10, d :: r)
                  | _ => (10, d :: r)
                  end) = (10, d :: r)).
  { destruct r as [|b r]; [done|]. inversion Hr as [|? ? Hb' _]; subst.
    apply digit_bounds in Hb'.
    rewrite (proj2 (N.eqb_neq b 120)), (proj2 (N.eqb_neq b 88)) by lia.
    by rewrite andb_false_r. }
  rewrite Hrad. cbn [read_digits].
  assert (Hdv : ∃ v, digit_value 10 d = Some v).
  { unfold digit_value. unfold is_digit in Hd. rewrite Hd.
    rewrite (proj2 (Z.ltb_lt (Z.of_N d - 48) 10)) by lia. eauto. }
  destruct Hdv as [v ->].
  assert (Hseen : ∀ s acc seen, ∃ n, (read_digits 10 acc (S seen) s).2 = S n).
  { clear. induction s as [|c s IH]; intros acc seen; cbn [read_digits]; [by eexists|].
    destruct (digit_value 10 c); [apply IH|by eexists]. }
  destruct (Hseen r (0 * 10 + v) 0%nat) as [n Hn].
  destruct (read_digits 10 (0 * 10 + v) 1 r) as [val seen]. cbn in Hn. by subst seen.
Qed.

Lemma parse_magnitude_pretty p :
  ∃ d r, js (pretty (Z.pos p)) = d :: r ∧ is_digit d = true ∧
         parse_magnitude (d :: r) = Some (Z.pos p).
Proof.
  change (pretty (Z.pos p)) with (pretty_N_go (N.pos p) "").
  pose proof (pretty_go_digits (N.pos p) "" ltac:(constructor)) as Hd.
  destruct (read_digits_pretty_go (N.pos p) "" 0 0%nat ltac:(done)) as [k Hk].
  destruct (js (pretty_N_go (N.pos p) "")) as [|d r] eqn:E; [done|].
  exists d, r. split; [done|]. split; [by inversion Hd|].
  rewrite parse_magnitude_digits by done. rewrite Hk. by cbn.
Qed.

Lemma parse_integer_dec p : parse_integer (dec p) = Some p.
Proof.
  destruct p as [|p|p]; [done| |].
  - destruct (parse_magnitude_pretty p) as (d & r & E & Hd & Hm).
    unfold dec, parse_integer. rewrite E. cbn [trim_start].
    apply digit_bounds in Hd.
    assert (Hws : is_whitespace d = false).
    { unfold is_whitespace, is_line_terminator.
      repeat (rewrite (proj2 (N.eqb_neq d _)) by lia). cbn [orb].
      destruct (8192 <=? d)%N eqn:E'; [apply N.leb_le in E'; lia|done]. }
    rewrite Hws. unfold Cu.minus, Cu.plus.
    by rewrite (proj2 (N.eqb_neq d 45)), (proj2 (N.eqb_neq d 43)) by lia.
  - destruct (parse_magnitude_pretty p) as (d & r & E & Hd & Hm).
    unfold dec. change (pretty (Z.neg p)) with ("-" +:+ pretty (Z.pos p)).
    change (js ("-" +:+ pretty (Z.pos p))) with (Cu.minus :: js (pretty (Z.pos p))).
    rewrite E. unfold parse_integer. cbn [trim_start].
    change (is_whitespace Cu.minus) with false. cbn iota.
    change (Cu.minus =? Cu.minus)%N with true. cbn iota. by rewrite Hm.
Qed.

(** ** Failures of the outside *)

Lemma call_vision_run o w :
  call_vision o w =
  (match vision o (count is_vision (log w)) with
   | Some text => Done text
   | None => Thrown VisionError
   end, {| disk := disk w; log := log w ++ [EvVision] |}).
Proof.
  unfold call_vision, bind, get_log, emit, ret, throw. simpl.
  by destruct (vision o _).
Qed.

Lemma generate_video_speech_error o req uploaded text w :
  files req = Some uploaded → script req = Some text →
  speech o (count is_speech (log w)) = false →
  generate_video o req w =
  (Done (Reply 500 (ErrorReply "Failed to generate video" (Some SpeechError))),
   {| disk := disk w ∖ list_to_set (path <$> uploaded);
      log := log w ++ [EvSpeech (voice_or_alloy (voice req)) (cleanScript text)] |}).
Proof.
  intros Hf Hs Hsp. unfold generate_video, try_catch, generate_video_try.
  rewrite Hf, Hs. erewrite bind_thrown by (by rewrite call_speech_run, Hsp).
  rewrite generate_video_catch_run, Hf. done.
Qed.

Lemma generate_voiceover_speech_error o raw v w :
  raw ≠ [] → speech o (count is_speech (log w)) = false →
  generate_voiceover o {| v_script := JString raw; v_voice := v |} w =
  (Done (Reply 500 (ErrorReply "Failed to generate voiceover" (Some SpeechError))),
   {| disk := disk w; log := log w ++ [EvSpeech (voice_or_alloy v) (cleanScript raw)] |}).
Proof.
  intros Hraw Hsp. unfold generate_voiceover, try_catch. cbn [v_script v_voice truthy].
  rewrite bool_decide_false by done. cbn [negb].
  by erewrite bind_thrown by (by rewrite call_speech_run, Hsp).
Qed.

Lemma generate_script_draft_error o req entries w :
  truthy (s_userScript req) = false → s_imageAnalysis req = Some entries →
  draft o (count is_draft (log w)) = None →
  ∃ analysisText,
    generate_script o req w =
    (Done (Reply 500 (ErrorReply "Failed to generate script" (Some DraftError))),
     {| disk := disk w; log := log w ++ [EvDraft analysisText] |}).
Proof.
  intros Hu Hia Hd. unfold generate_script, try_catch. rewrite Hu, Hia.
  eexists. unfold bind at 1. cbn [ret]. unfold call_draft, bind, get_log, emit, throw, ret.
  cbn [log disk]. by rewrite Hd.
Qed.

Lemma vision_attempts_run o w :
  let n := count is_vision (log w) in
  vision_attempts o 3 1 3 None w =
  match vision o n, vision o (S n), vision o (S (S n)) with
  | Some t, _, _ =>
      (Done (Some t, None), {| disk := disk w; log := log w ++ [EvVision] |})
  | None, Some t, _ =>
      (Done (Some t, Some VisionError),
       {| disk := disk w; log := log w ++ [EvVision; EvSleep 1000; EvVision] |})
  | None, None, Some t =>
      (Done (Some t, Some VisionError),
       {| disk := disk w;
          log := log w ++ [EvVision; EvSleep 1000; EvVision; EvSleep 2000; EvVision] |})
  | None, None, None =>
      (Done (None, Some VisionError),
       {| disk := disk w;
          log := log w ++ [EvVision; EvSleep 1000; EvVision; EvSleep 2000; EvVision] |})
  end.
Proof.
  intros n. cbn [vision_attempts].
  unfold bind at 1. unfold settle at 1. rewrite call_vision_run. fold n.
  destruct (vision o n) as [t|] eqn:E0; [done|].
  cbn [Nat.ltb Nat.leb]. unfold bind at 1. unfold sleep at 1, emit at 1. cbn [log disk].
  unfold bind at 1. unfold settle at 1. rewrite call_vision_run. cbn [log disk].
  rewrite !count_snoc. cbn [is_vision]. fold n.
  replace (n + 1 + 0)%nat with (S n) by lia.
  destruct (vision o (S n)) as [t|] eqn:E1.
  { unfold ret. by rewrite <- !app_assoc. }
  unfold bind at 1. unfold sleep at 1, emit at 1. cbn [log disk].
  unfold bind at 1. unfold settle at 1. rewrite call_vision_run. cbn [log disk].
  rewrite !count_snoc. cbn [is_vision]. fold n.
  replace (n + 1 + 0 + 1 + 0)%nat with (S (S n)) by lia.
  destruct (vision o (S (S n))) as [t|] eqn:E2.
  - unfold ret. by rewrite <- !app_assoc.
  - unfold bind, ret. by rewrite <- !app_assoc.
Qed.

Lemma analyze_image_run o req f category w :
  a_file req = Some f → a_category req = Some category → path f ∈ disk w →
  let n := count is_vision (log w) in
  let trail := log w ++ [EvVision; EvSleep 1000; EvVision; EvSleep 2000; EvVision] in
  let cleaned := disk w ∖ {[path f]} in
  analyze_image o req w =
  match vision o n, vision o (S n), vision o (S (S n)) with
  | Some t, _, _ =>
      (Done (Reply 200 (AnalysisReply t category)),
       {| disk := cleaned; log := log w ++ [EvVision] |})
  | None, Some t, _ =>
      (Done (Reply 200 (AnalysisReply t category)),
       {| disk := cleaned; log := log w ++ [EvVision; EvSleep 1000; EvVision] |})
  | None, None, Some t =>
      (Done (Reply 200 (AnalysisReply t category)), {| disk := cleaned; log := trail |})
  | None, None, None =>
      (Done (Reply 500 (ErrorReply "Failed to analyze image" (Some VisionError))),
       {| disk := cleaned; log := trail |})
  end.
Proof.
  intros Hf Hc Hd n trail cleaned. subst trail cleaned.
  unfold analyze_image, try_catch. rewrite Hf, Hc.
  erewrite bind_run by (unfold existsSync; by rewrite bool_decide_true).
  cbn [negb]. unfold bind at 1. rewrite vision_attempts_run. fold n.
  destruct (vision o n) as [t|]; [|destruct (vision o (S n)) as [t|];
    [|destruct (vision o (S (S n))) as [t|]]].
  1-3: by erewrite bind_run by apply unlink_if_exists_run.
  cbn [default throw]. by erewrite bind_run by apply unlink_if_exists_run.
Qed.

(** ** The sanitizer only deletes *)

Lemma replace_all_erase_sublist m s : sublist (replace_all m [] s) s.
Proof.
  induction s as [s IH] using jsstring_length_ind.
  destruct s as [|c r]; [by rewrite replace_all_nil|].
  rewrite replace_all_cons. destruct (m (c :: r)) as [n|].
  - cbn [app]. apply sublist_cons.
    etrans; [apply IH; rewrite length_drop; simpl; lia|]. apply sublist_drop.
  - apply sublist_skip, IH. simpl. lia.
Qed.

Lemma collapse_sublist s :
  sublist (replace_all match_newlines [Cu.newline; Cu.newline] s) s.
Proof.
  induction s as [s IH] using jsstring_length_ind.
  destruct s as [|c r]; [by rewrite replace_all_nil|].
  rewrite replace_all_cons, match_newlines_cons.
  destruct ((c =? Cu.newline)%N && (2 <=? newline_run r)%nat) eqn:E.
  - apply andb_true_iff in E as [->%N.eqb_eq E%Nat.leb_le].
    cbn [Nat.pred app]. apply sublist_skip.
    destruct r as [|d r]; [simpl in E; lia|]. cbn [newline_run] in *.
    destruct (d =? Cu.newline)%N eqn:Ed; [|lia]. apply N.eqb_eq in Ed as ->.
    cbn [drop]. apply sublist_skip.
    etrans; [apply IH; rewrite length_drop; simpl; lia|]. apply sublist_drop.
  - apply sublist_skip, IH. simpl. lia.
Qed.

Lemma trim_sublist s : sublist (trim s) s.
Proof.
  destruct (trim_factor s) as (pre & post & H). rewrite H at 2.
  apply sublist_inserts_l, sublist_inserts_r. done.
Qed.

Lemma no_bold_includes s : no_bold s = true → includes s [Cu.star; Cu.star] = false.
Proof.
  intros H. destruct (includes _ _) eqn:E; [|done].
  apply includes_spec in E as (pre & post & ->).
  by apply no_bold_app in H as [_ H].
Qed.

Lemma no_triple_includes s :
  no_triple s = true → includes s [Cu.newline; Cu.newline; Cu.newline] = false.
Proof.
  intros H. destruct (includes _ _) eqn:E; [|done].
  apply includes_spec in E as (pre & post & ->).
  by apply no_triple_app in H as [_ H].
Qed.

Lemma trim_ends_clean s :
  starts_clean (trim s) = true ∧ starts_clean (reverse (trim s)) = true.
Proof.
  split.
  - apply trim_end_clean, trim_start_clean.
  - unfold trim, trim_end. rewrite reverse_involutive. apply trim_start_clean.
Qed.

(** ** Feature tags *)

Lemma feature_keywords_NoDup : NoDup feature_keywords.
Proof. apply (bool_decide_unpack _). by vm_compute. Qed.

Lemma found_fold (P : jsstring → bool) ks :
  ∀ found, NoDup (found ++ ks) →
    foldl (λ found keyword,
             if P keyword && negb (bool_decide (keyword ∈ found))
             then found ++ [keyword] else found) found ks
    = found ++ filter (λ k, P k = true) ks.
Proof.
  induction ks as [|k ks IH]; intros found Hnd; cbn [foldl].
  - by rewrite filter_nil, app_nil_r.
  - assert (Hk : k ∉ found).
    { apply NoDup_app in Hnd as (_ & Hd & _). intros Hin. apply (Hd k Hin). by left. }
    rewrite (bool_decide_false (k ∈ found)) by done. cbn [negb]. rewrite andb_true_r.
    destruct (P k) eqn:E.
    + rewrite IH by (by rewrite <- app_assoc). rewrite filter_cons_True by done.
      by rewrite <- app_assoc.
    + rewrite IH; [by rewrite filter_cons_False by (by rewrite E)|].
      apply NoDup_app in Hnd as (H1 & H2 & H3). apply NoDup_app. split_and!; [done| |].
      * intros x Hx Hin. apply (H2 x Hx). by right.
      * by apply NoDup_cons in H3 as [_ ?].
Qed.

(** ** Every path through the vision endpoint *)

Lemma world_eta w : {| disk := disk w; log := log w |} = w.
Proof. by destruct w. Qed.

Lemma unlink_missing p w : p ∉ disk w → unlink_if_exists p w = (Done (), w).
Proof.
  intros Hp. rewrite unlink_if_exists_run.
  rewrite difference_disjoint_L by (by apply disjoint_singleton_r). by rewrite world_eta.
Qed.

Lemma analyze_image_no_file o req w :
  a_file req = None →
  analyze_image o req w
  = (Done (Reply 500 (ErrorReply "Failed to analyze image" (Some NoFileUploaded))), w).
Proof. intros H. unfold analyze_image, try_catch. by rewrite H. Qed.

Lemma analyze_image_not_stored o req f w :
  a_file req = Some f → path f ∉ disk w →
  analyze_image o req w
  = (Done (Reply 500 (ErrorReply "Failed to analyze image" (Some UploadedFileNotFound))), w).
Proof.
  intros Hf Hd. unfold analyze_image, try_catch. rewrite Hf.
  erewrite bind_run by (unfold existsSync; by rewrite bool_decide_false).
  cbn [negb throw]. by erewrite bind_run by (by apply unlink_missing).
Qed.

Lemma analyze_image_no_category o req f w :
  a_file req = Some f → path f ∈ disk w → a_category req = None →
  analyze_image o req w
  = (Done (Reply 500 (ErrorReply "Failed to analyze image" (Some TypeError))),
     {| disk := disk w ∖ {[path f]}; log := log w |}).
Proof.
  intros Hf Hd Hc. unfold analyze_image, try_catch. rewrite Hf, Hc.
  erewrite bind_run by (unfold existsSync; by rewrite bool_decide_true).
  cbn [negb throw]. by erewrite bind_run by apply unlink_if_exists_run.
Qed.

Lemma cleanScript_sublist s : sublist (cleanScript s) s.
Proof.
  unfold cleanScript.
  etrans; [apply trim_sublist|]. etrans; [apply collapse_sublist|].
  etrans; apply replace_all_erase_sublist.
Qed.

(** ** Every path through the voiceover and script endpoints *)

Lemma generate_voiceover_no_script o req w :
  truthy (v_script req) = false →
  generate_voiceover o req w = (Done (Reply 400 (ErrorReply "Script is required" None)), w).
Proof. intros H. unfold generate_voiceover, try_catch. by rewrite H. Qed.

Lemma generate_voiceover_not_a_string o req w :
  truthy (v_script req) = true → (∀ raw, v_script req ≠ JString raw) →
  generate_voiceover o req w
  = (Done (Reply 500 (ErrorReply "Failed to generate voiceover" (Some TypeError))), w).
Proof.
  intros Ht Hs. unfold generate_voiceover, try_catch. rewrite Ht. cbn [negb].
  destruct (v_script req) as [| |b|q|raw|]; try done. by destruct (Hs raw).
Qed.

Lemma generate_voiceover_spoken o raw v w :
  raw ≠ [] → speech o (count is_speech (log w)) = true →
  generate_voiceover o {| v_script := JString raw; v_voice := v |} w =
  (Done (Reply 200 (VoiceoverReply (js "voiceover-" ++ dec (now o) ++ js ".mp3")
                      (ceil_div15 (str_length raw)))),
   {| disk := {[ path_join (path_join (dirname o) (js "output"))
                   (js "voiceover-" ++ dec (now o) ++ js ".mp3") ]} ∪ disk w;
      log := log w ++ [EvSpeech (voice_or_alloy v) (cleanScript raw)] |}).
Proof.
  intros Hraw Hsp. unfold generate_voiceover, try_catch. cbn [v_script v_voice truthy].
  rewrite bool_decide_false by done. cbn [negb].
  erewrite bind_run by (by rewrite call_speech_run, Hsp).
  by erewrite bind_run by reflexivity.
Qed.

(** ** The disk along a run of the video endpoint *)

Lemma execPromise_disk o cmd w r w' :
  adds_only_output o → execPromise o cmd w = (r, w') →
  disk w' ⊆ {[output_of cmd]} ∪ disk w.
Proof.
  intros Ho. unfold execPromise. pose proof (Ho (count is_exec (log w)) cmd (disk w)) as H.
  destruct (ffmpeg o _ cmd _) as [[|] d]; by intros [= _ <-].
Qed.

Lemma clip_loop_disk o outputDir timestamp perImage width height rest :
  adds_only_output o →
  ∀ i videoClips w clips w',
    clip_loop o outputDir timestamp perImage width height i rest videoClips w = (Done clips, w') →
    ∃ new, clips = videoClips ++ new ∧ disk w' ⊆ list_to_set new ∪ disk w.
Proof.
  intros Ho. induction rest as [|f rest IH]; intros i videoClips w clips w'; cbn [clip_loop].
  - intros [= <- <-]. exists []. rewrite app_nil_r. split; [done|]. apply union_subseteq_r.
  - intros ([] & w1 & H1 & H2)%bind_done.
    apply (execPromise_disk _ _ _ _ _ Ho) in H1. cbn [output_of] in H1.
    apply IH in H2 as (new & -> & H2). eexists (_ :: new).
    split; [by rewrite <- app_assoc|]. rewrite list_to_set_cons.
    intros x Hx%H2. rewrite !elem_of_union in *. destruct Hx as [Hx|Hx%H1]; [tauto|].
    rewrite elem_of_union in Hx. tauto.
Qed.

Lemma audio_command_output o req estimated v a f w cmd w' :
  audio_command o req estimated v a f w = (Done cmd, w') → output_of cmd = f.
Proof.
  unfold audio_command. destruct (music_requested _); [|by intros [= <- _]].
  destruct (musicFile _); [|done].
  intros (present & w1 & _ & H)%bind_done. by destruct present; injection H as <- _.
Qed.

Lemma disk_after_success (d0 d3 d5 d9 new ups : gset jsstring) voice concat vna final :
  d3 ⊆ new ∪ ({[voice]} ∪ d0) →
  d5 ⊆ {[vna]} ∪ ({[concat]} ∪ d3) →
  d9 ⊆ {[final]} ∪ d5 ∖ new ∖ {[concat]} →
  d9 ∖ {[vna]} ∖ {[voice]} ∖ ups ⊆ {[final]} ∪ d0 ∖ ups.
Proof.
  intros H3 H5 H9 x. rewrite !elem_of_difference, elem_of_union, elem_of_difference.
  intros [[[Hx%H9 Hvna] Hvoice] Hups].
  rewrite elem_of_union, !elem_of_difference in Hx.
  destruct Hx as [Hx|[[Hx%H5 Hnew] Hc]]; [tauto|].
  rewrite !elem_of_union in Hx. destruct Hx as [Hx|[Hx|Hx%H3]]; [tauto|tauto|].
  rewrite !elem_of_union in Hx. tauto.
Qed.

Lemma generate_video_try_disk o req w r w' :
  generate_video_try o req w = (Done r, w') →
  ∃ uploaded d,
    let final := path_join (path_join (dirname o) (js "output"))
                   (js "ad-" ++ dec (now o) ++ js ".mp4") in
    files req = Some uploaded ∧
    disk w' = d ∖ list_to_set (path <$> uploaded) ∧
    final ∈ disk w' ∧
    (adds_only_output o → disk w' ⊆ {[final]} ∪ disk w ∖ list_to_set (path <$> uploaded)).
Proof.
  unfold generate_video_try.
  destruct (files req) as [uploaded|]; [|done].
  destruct (script req) as [s|]; [|done].
  destruct (resolution (aspectRatio req)) as [width height] eqn:Hres.
  intros ([] & w1 & H1 & H)%bind_done.
  rewrite call_speech_run in H1.
  destruct (speech o _); [|done]. injection H1 as <-.
  apply bind_done in H as ([] & w2 & [= <-] & H).
  apply bind_done in H as (clips & w3 & H3 & H).
  apply bind_done in H as ([] & w4 & [= <-] & H).
  apply bind_done in H as ([] & w5 & H5 & H).
  apply bind_done in H as ([] & w6 & H6 & H).
  rewrite forEach_unlink_paths_run in H6. injection H6 as <-.
  apply bind_done in H as ([] & w7 & H7 & H).
  rewrite unlink_if_exists_run in H7. injection H7 as <-.
  apply bind_done in H as (cmd & w8 & H8 & H).
  pose proof (audio_command_run _ _ _ _ _ _ _ _ _ H8) as ->.
  apply audio_command_output in H8.
  apply bind_done in H as ([] & w9 & H9 & H).
  apply bind_done in H as ([] & w10 & H10 & H).
  rewrite unlink_if_exists_run in H10. injection H10 as <-.
  apply bind_done in H as ([] & w11 & H11 & H).
  rewrite unlink_if_exists_run in H11. injection H11 as <-.
  apply bind_done in H as ([] & w12 & H12 & H).
  rewrite forEach_unlink_run in H12. injection H12 as <-.
  apply bind_done in H as (present & w13 & [= <- <-] & H).
  case_bool_decide as Hfinal; [|done]. injection H as <- <-.
  eexists uploaded, _. cbn zeta. split_and!; [done|done|done|].
  intros Ho. cbn [disk log] in *.
  apply (clip_loop_disk _ _ _ _ _ _ _ Ho) in H3 as (new & -> & H3).
  apply (execPromise_disk _ _ _ _ _ Ho) in H5.
  apply (execPromise_disk _ _ _ _ _ Ho) in H9.
  rewrite H8 in H9. cbn [output_of disk log] in *.
  by eapply disk_after_success.
Qed.

Lemma generate_video_cases o req w :
  (∃ body w', generate_video o req w = (Done (Reply 200 body), w') ∧
              generate_video_try o req w = (Done (Reply 200 body), w')) ∨
  (∃ e w1, generate_video_try o req w = (Thrown e, w1) ∧
           generate_video o req w =
           (Done (Reply 500 (ErrorReply "Failed to generate video" (Some e))),
            {| disk := disk w1 ∖ list_to_set (path <$> default [] (files req));
               log := log w1 |})).
Proof.
  unfold generate_video, try_catch.
  destruct (generate_video_try o req w) as [[r|e] w1] eqn:Htry.
  - left. destruct (generate_video_try_done _ _ _ _ _ Htry) as (? & ? & ? & _ & _ & -> & _).
    eauto.
  - right. exists e, w1. split; [done|]. apply generate_video_catch_run.
Qed.

(** ** The audio command *)

Lemma count_app p l1 l2 : count p (l1 ++ l2) = (count p l1 + count p l2)%nat.
Proof. unfold count. by rewrite filter_app, length_app. Qed.

Lemma count_cons p e l :
  count p (e :: l) = ((if p e then 1 else 0) + count p l)%nat.
Proof. unfold count. rewrite filter_cons. by destruct (p e). Qed.

Lemma musicFile_stock m file :
  musicFile m = Some file →
  file ∈ js <$> ["upbeat.mp3"; "corporate.mp3"; "calm.mp3"; "inspiring.mp3"]%string.
Proof.
  unfold musicFile. cbn [fmap list_fmap].
  repeat case_bool_decide; intros [= <-]; rewrite !elem_of_cons; tauto.
Qed.



Lemma volumeDecimal_nonzero mv : ¬ (volumeDecimal mv == 0)%Q.
Proof.
  unfold volumeDecimal. destruct (mv ≫= parseInt) as [v|]; [|done].
  destruct (v =? 0) eqn:Hv; [done|]. apply Z.eqb_neq in Hv.
  unfold Qeq. cbn. lia.
Qed.

Lemma audio_command_cases o req estimated v a f w cmd w' :
  audio_command o req estimated v a f w = (Done cmd, w') →
  cmd = VoiceOnly v a f ∨
  ∃ file, file ∈ js <$> ["upbeat.mp3"; "corporate.mp3"; "calm.mp3"; "inspiring.mp3"]%string ∧
          path_join (path_join (dirname o) (js "music")) file ∈ disk w ∧
          music_requested (music req) = true ∧
          cmd = MixMusic v (path_join (path_join (dirname o) (js "music")) file) a
                  (volumeDecimal (musicVolume req)) (estimated - 3) f.
Proof.
  unfold audio_command. destruct (music_requested _); [|intros [= <- _]; by left].
  destruct (musicFile _) as [file|] eqn:Hm; [|done].
  apply musicFile_stock in Hm.
  unfold bind, existsSync, ret. cbn. case_bool_decide as Hd; intros [= <- _]; [|by left].
  right. by exists file.
Qed.


(** ** File names *)

Lemma dec_inj a b : dec a = dec b → a = b.
Proof.
  intros H. pose proof (parse_integer_dec a) as Ha. rewrite H, parse_integer_dec in Ha.
  by injection Ha.
Qed.

Lemma dec_digits t : 0 ≤ t → Forall (λ c, is_digit c = true) (dec t).
Proof.
  intros Ht. destruct t as [|p|p]; [by repeat constructor| |lia].
  unfold dec. change (pretty (Z.pos p)) with (pretty_N_go (N.pos p) "").
  apply pretty_go_digits. constructor.
Qed.

Lemma split_at_first (sep : N) l1 : ∀ l2 r1 r2,
  sep ∉ l1 → sep ∉ l2 → l1 ++ sep :: r1 = l2 ++ sep :: r2 → l1 = l2 ∧ r1 = r2.
Proof.
  induction l1 as [|x l1 IH]; intros [|y l2] r1 r2 H1 H2 E; cbn in E.
  - by injection E.
  - injection E as <- _. destruct H2. left.
  - injection E as -> _. destruct H1. left.
  - injection E as <- E. apply not_elem_of_cons in H1 as [_ H1].
    apply not_elem_of_cons in H2 as [_ H2].
    by destruct (IH _ _ _ H1 H2 E) as [-> ->].
Qed.

Lemma path_join_inj d a b : path_join d a = path_join d b → a = b.
Proof. unfold path_join. by intros ?%app_inv_head%app_inv_head. Qed.

Lemma name_differs (a b : string) x y :
  (2 ≤ length (js a))%nat → (2 ≤ length (js b))%nat →
  take 2 (js a) ≠ take 2 (js b) → js a ++ x ≠ js b ++ y.
Proof.
  intros Ha Hb Hne H. apply Hne. apply (f_equal (take 2)) in H.
  by rewrite !take_app_le in H.
Qed.

Lemma outputs_app l1 l2 : outputs (l1 ++ l2) = outputs l1 ++ outputs l2.
Proof. apply omap_app. Qed.

Lemma outputs_clip_events outputDir timestamp perImage width height rest :
  ∀ i, outputs (clip_events outputDir timestamp perImage width height i rest)
       = (λ k, path_join outputDir
                 (js "clip-" ++ dec timestamp ++ js "-" ++ dec (Z.of_nat k) ++ js ".mp4"))
         <$> seq i (length rest).
Proof.
  unfold clip_events. induction rest as [|f rest IH]; intros i; [done|].
  cbn [imap length seq fmap list_fmap]. unfold outputs at 1. cbn [omap list_omap output_of].
  rewrite Nat.add_0_r. f_equal. rewrite <- (IH (S i)). unfold outputs. f_equal.
  apply imap_ext. intros k x _. cbn. by rewrite Nat.add_succ_r.
Qed.

Lemma clip_paths_NoDup outputDir timestamp i n :
  NoDup ((λ k, path_join outputDir
                 (js "clip-" ++ dec timestamp ++ js "-" ++ dec (Z.of_nat k) ++ js ".mp4"))
         <$> seq i n).
Proof.
  apply NoDup_fmap_2; [|apply NoDup_seq].
  intros j k H%path_join_inj%app_inv_head%app_inv_head%app_inv_head%app_inv_tail%dec_inj.
  lia.
Qed.

(** ** The sanitizer of the later revision *)

Lemma replace_lines_nil m rep bol : replace_lines m rep bol [] = [].
Proof. by simp replace_lines. Qed.

Lemma replace_lines_cons m rep bol c r :
  replace_lines m rep bol (c :: r) =
  match m bol (c :: r) with
  | Some n => rep ++ replace_lines m rep (ends_line (c :: take (Nat.pred n) r))
                       (drop (Nat.pred n) r)
  | None => c :: replace_lines m rep (is_line_terminator c) r
  end.
Proof. simp replace_lines. by destruct (m bol (c :: r)). Qed.

Lemma replace_all_as_lines m rep s :
  ∀ bol, replace_all m rep s = replace_lines (λ _, m) rep bol s.
Proof.
  induction s as [s IH] using jsstring_length_ind. intros bol.
  destruct s as [|c r]; [by rewrite replace_all_nil, replace_lines_nil|].
  rewrite replace_all_cons, replace_lines_cons.
  destruct (m (c :: r)) as [n|].
  - f_equal. apply IH. simpl. rewrite length_drop. lia.
  - f_equal. apply IH. simpl. lia.
Qed.

Lemma replace_lines_sublist m rep s :
  (∀ bol c r n, m bol (c :: r) = Some n → sublist rep (c :: take (Nat.pred n) r)) →
  ∀ bol, sublist (replace_lines m rep bol s) s.
Proof.
  intros Hm. induction s as [s IH] using jsstring_length_ind. intros bol.
  destruct s as [|c r]; [by rewrite replace_lines_nil|].
  rewrite replace_lines_cons. destruct (m bol (c :: r)) as [n|] eqn:E.
  - rewrite <- (take_drop (Nat.pred n) r) at 3. rewrite app_comm_cons.
    apply sublist_app; [by eapply Hm|]. apply IH. simpl. rewrite length_drop. lia.
  - apply sublist_skip, IH. simpl. lia.
Qed.

Lemma replace_all_sublist m rep s :
  (∀ c r n, m (c :: r) = Some n → sublist rep (c :: take (Nat.pred n) r)) →
  sublist (replace_all m rep s) s.
Proof.
  intros Hm. rewrite (replace_all_as_lines m rep s true).
  apply replace_lines_sublist. intros _. exact Hm.
Qed.

Lemma replace_lines_erase_sublist m bol s : sublist (replace_lines m [] bol s) s.
Proof. apply replace_lines_sublist. intros. apply sublist_nil_l. Qed.

Lemma voiceover_break_sublist s :
  sublist (replace_all Full.match_voiceover_break [Cu.newline] s) s.
Proof.
  apply replace_all_sublist. intros c r n. unfold Full.match_voiceover_break.
  destruct (c =? Cu.newline)%N eqn:E; [|done]. apply N.eqb_eq in E as ->.
  intros _. apply sublist_skip, sublist_nil_l.
Qed.

Lemma cleanScript_full_sublist s : sublist (Full.cleanScript s) s.
Proof.
  unfold Full.cleanScript.
  etrans; [apply trim_sublist|].
  etrans; [apply replace_lines_erase_sublist|].
  etrans; [apply collapse_sublist|].
  etrans; [apply replace_all_erase_sublist|].
  etrans; [apply replace_all_erase_sublist|].
  etrans; [apply replace_all_erase_sublist|].
  etrans; [apply replace_all_erase_sublist|].
  etrans; [apply voiceover_break_sublist|].
  etrans; [apply replace_lines_erase_sublist|].
  etrans; apply replace_all_erase_sublist.
Qed.

Lemma sublist_same_length {A} (l k : list A) :
  sublist l k → length l = length k → l = k.
Proof.
  induction 1 as [|x l k _ IH|x l k Hs IH]; intros Hlen; simpl in *.
  - done.
  - f_equal. apply IH. lia.
  - apply sublist_length in Hs. lia.
Qed.

(** *** Spans within reach *)

Section Reach.

Variables (open close : N) (stop : N → bool).

Lemma closed_in_reach_nil : closed_in_reach open close stop [].
Proof. intros [|? ?] post; done. Qed.

Lemma closed_in_reach_cons x r :
  closed_in_reach open close stop (x :: r) ↔
  (x = open → close ∈ r → closes close stop r = true) ∧ closed_in_reach open close stop r.
Proof.
  split.
  - intros H. split.
    + intros -> Hin. by apply (H [] r).
    + intros pre post -> Hin. by apply (H (x :: pre) post).
  - intros [H1 H2] [|y pre] post E Hin; simplify_eq/=.
    + by apply H1.
    + by apply (H2 pre post).
Qed.

Lemma closed_in_reach_suffix pre s :
  closed_in_reach open close stop (pre ++ s) → closed_in_reach open close stop s.
Proof.
  induction pre as [|x pre IH]; [done|]. simpl. intros [_ H]%closed_in_reach_cons. by apply IH.
Qed.

Lemma closed_in_reach_app_other l s :
  open ∉ l → closed_in_reach open close stop s → closed_in_reach open close stop (l ++ s).
Proof.
  induction l as [|x l IH]; [done|]. intros [Hx Hl]%not_elem_of_cons Hs. simpl.
  apply closed_in_reach_cons. split; [done|]. by apply IH.
Qed.

Lemma no_pair_nil : no_pair open close [].
Proof. intros [|? ?] post; done. Qed.

Lemma no_pair_cons x r :
  no_pair open close (x :: r) ↔ (x = open → close ∉ r) ∧ no_pair open close r.
Proof.
  split.
  - intros H. split.
    + intros ->. by apply (H [] r).
    + intros pre post ->. by apply (H (x :: pre) post).
  - intros [H1 H2] [|y pre] post E; simplify_eq/=.
    + by apply H1.
    + by apply (H2 pre post).
Qed.

Lemma no_pair_sublist s' s :
  sublist s' s → no_pair open close s → no_pair open close s'.
Proof.
  intros Hsub Hs pre post -> Hin.
  apply sublist_app_l in Hsub as (k1 & k2 & -> & _ & Hsub).
  apply sublist_cons_l in Hsub as (k3 & k4 & -> & Hsub).
  apply (Hs (k1 ++ k3) k4); [by rewrite <- app_assoc|].
  by eapply elem_of_sublist.
Qed.

Lemma no_pair_includes s X :
  no_pair open close s → includes s (open :: X ++ [close]) = false.
Proof.
  intros Hs. destruct (includes _ _) eqn:E; [|done]. exfalso.
  apply includes_spec in E as (pre & post & E).
  apply (Hs pre (X ++ [close] ++ post)).
  - rewrite E. simpl. by rewrite <- app_assoc.
  - rewrite !elem_of_app, list_elem_of_singleton. auto.
Qed.

Lemma closes_drop n s :
  closes close stop s = true → close ∉ take n s → closes close stop (drop n s) = true.
Proof.
  revert s. induction n as [|n IH]; intros [|x s]; try done. simpl.
  destruct (x =? close)%N eqn:E.
  { apply N.eqb_eq in E as ->. intros _ []. left. }
  destruct (stop x); [done|]. intros H Hn. apply IH; [done|].
  intros Hin. apply Hn. by right.
Qed.

Hypothesis stop_close : stop close = false.

Lemma closes_replace_lines m rep s :
  spares close stop m rep →
  ∀ bol, closes close stop s = true → closes close stop (replace_lines m rep bol s) = true.
Proof.
  intros Hm. induction s as [s IH] using jsstring_length_ind. intros bol.
  destruct s as [|x r]; [done|].
  rewrite replace_lines_cons. destruct (m bol (x :: r)) as [n|] eqn:E.
  - destruct (Hm _ _ _ _ E) as [[-> Hnot]|Hstop].
    + intros Hc. simpl. apply IH; [simpl; rewrite length_drop; lia|].
      apply not_elem_of_cons in Hnot as [Hx Hnot].
      simpl in Hc. destruct (x =? close)%N eqn:Ex; [by apply N.eqb_eq in Ex|].
      destruct (stop x); [done|]. by apply closes_drop.
    + simpl. destruct (x =? close)%N eqn:Ex.
      { apply N.eqb_eq in Ex as ->. congruence. }
      by rewrite Hstop.
  - simpl. destruct (x =? close)%N; [done|]. destruct (stop x); [done|].
    apply IH. simpl. lia.
Qed.

Lemma closed_in_reach_replace_lines m rep s :
  spares close stop m rep → open ∉ rep →
  (∀ bol c r n, m bol (c :: r) = Some n → sublist rep (c :: take (Nat.pred n) r)) →
  ∀ bol, closed_in_reach open close stop s →
         closed_in_reach open close stop (replace_lines m rep bol s).
Proof.
  intros Hm Hrep Hsub. induction s as [s IH] using jsstring_length_ind. intros bol Hs.
  destruct s as [|x r]; [by rewrite replace_lines_nil|].
  rewrite replace_lines_cons. destruct (m bol (x :: r)) as [n|] eqn:E.
  - assert (Hrest : closed_in_reach open close stop
                      (replace_lines m rep (ends_line (x :: take (Nat.pred n) r))
                         (drop (Nat.pred n) r))).
    { apply IH; [simpl; rewrite length_drop; lia|].
      apply (closed_in_reach_suffix (x :: take (Nat.pred n) r)).
      by rewrite <- app_comm_cons, take_drop. }
    by apply closed_in_reach_app_other.
  - apply closed_in_reach_cons in Hs as [Hx Hr].
    apply closed_in_reach_cons. split.
    + intros -> Hin. apply closes_replace_lines; [done|]. apply Hx; [done|].
      eapply elem_of_sublist; [exact Hin|].
      by apply replace_lines_sublist.
    + apply IH; [simpl; lia|done].
Qed.

End Reach.

Lemma find_close_closer r : find_close r = find_closer Cu.rbracket r.
Proof. induction r as [|c r IH]; [done|]. simpl. by rewrite IH. Qed.

Lemma match_bracket_delim s : match_bracket s = match_delim Cu.lbracket Cu.rbracket s.
Proof. destruct s as [|c r]; [done|]. simpl. by rewrite find_close_closer. Qed.

Lemma closes_find_closer close stop r :
  (∀ x, is_line_terminator x = true → stop x = true) →
  closes close stop r = true → ∃ k, find_closer close r = Some k.
Proof.
  intros Hstop. induction r as [|c r IH]; [done|]. simpl.
  destruct (c =? close)%N; [eauto|].
  destruct (is_line_terminator c) eqn:E; [by rewrite (Hstop _ E)|].
  destruct (stop c); [done|]. intros [k ->]%IH. eauto.
Qed.

Lemma no_pair_after_delim open close stop s :
  (∀ x, is_line_terminator x = true → stop x = true) →
  closed_in_reach open close stop s →
  no_pair open close (replace_all (match_delim open close) [] s).
Proof.
  intros Hstop. induction s as [s IH] using jsstring_length_ind. intros Hs.
  destruct s as [|x r]; [rewrite replace_all_nil; apply no_pair_nil|].
  rewrite replace_all_cons. destruct (match_delim open close (x :: r)) as [n|] eqn:E.
  - simpl. apply IH; [simpl; rewrite length_drop; lia|].
    apply (closed_in_reach_suffix _ _ _ (x :: take (Nat.pred n) r)).
    by rewrite <- app_comm_cons, take_drop.
  - apply closed_in_reach_cons in Hs as [Hx Hr].
    apply no_pair_cons. split; [|apply IH; [simpl; lia|done]].
    intros -> Hin.
    assert (Hin' : close ∈ r).
    { eapply elem_of_sublist; [exact Hin|]. apply replace_all_erase_sublist. }
    destruct (closes_find_closer close stop r Hstop (Hx eq_refl Hin')) as [k Hk].
    simpl in E. by rewrite N.eqb_refl, Hk in E.
Qed.

(** *** What the matches hold *)

Lemma starts_with_ci_take lit s :
  starts_with_ci lit s = true →
  Forall (λ b, lower_ascii b ∈ lower_ascii <$> lit) (take (length lit) s).
Proof.
  revert s. induction lit as [|a lit IH]; intros s; [by rewrite take_0|].
  destruct s as [|b s]; [done|]. simpl.
  intros [E%N.eqb_eq H]%andb_true_iff. constructor.
  - rewrite <- E. left.
  - eapply Forall_impl; [by apply IH|]. intros x Hx. by right.
Qed.

Lemma whitespace_run_take s :
  Forall (λ c, is_whitespace c = true) (take (whitespace_run s) s).
Proof.
  induction s as [|c s IH]; [done|]. simpl.
  destruct (is_whitespace c) eqn:E; [by constructor|done].
Qed.

Lemma digit_run_take s : Forall (λ c, is_digit c = true) (take (digit_run s) s).
Proof.
  induction s as [|c s IH]; [done|]. simpl.
  destruct (is_digit c) eqn:E; [by constructor|done].
Qed.

Lemma match_head_take {A} (c : A) r n : (0 < n)%nat → c :: take (Nat.pred n) r = take n (c :: r).
Proof. by destruct n; [lia|]. Qed.

Lemma rparen_not_in_bold : spares Cu.rparen ends_reach (λ _, match_bold) [].
Proof.
  intros _ c r n. rewrite match_bold_cons.
  destruct (c =? Cu.star)%N eqn:E1; [|done]. destruct r as [|d r]; [done|]. simpl.
  destruct (d =? Cu.star)%N eqn:E2; [|done]. intros [= <-]. left. split; [done|].
  apply N.eqb_eq in E1 as ->. apply N.eqb_eq in E2 as ->. simpl. rewrite take_0.
  by intros [?|[?|?%elem_of_nil]%elem_of_cons]%elem_of_cons.
Qed.

Lemma rparen_not_in_bracket : spares Cu.rparen ends_reach (λ _, match_bracket) [].
Proof.
  intros _ c r n. rewrite match_bracket_cons.
  destruct (c =? Cu.lbracket)%N eqn:E; [|done]. intros _. right.
  unfold ends_reach. by rewrite E, orb_true_r.
Qed.

Lemma rparen_not_in_voiceover_line : spares Cu.rparen ends_reach Full.match_voiceover_line [].
Proof.
  intros bol c r n. unfold Full.match_voiceover_line.
  destruct (bol && _) eqn:E; [|done]. apply andb_true_iff in E as [_ E].
  intros <-%(inj Some). left. split; [done|].
  rewrite match_head_take by lia.
  replace (take _ (c :: r))
    with (take 10 (c :: r) ++ take (whitespace_run (drop 10 (c :: r))) (drop 10 (c :: r)))
    by (by rewrite take_take_drop).
  intros [Hin|Hin]%elem_of_app.
  - pose proof (starts_with_ci_take _ _ E) as Hall. rewrite Forall_forall in Hall.
    apply Hall in Hin. revert Hin. apply (bool_decide_unpack _). by vm_compute.
  - pose proof (whitespace_run_take (drop 10 (c :: r))) as Hall. rewrite Forall_forall in Hall.
    by apply Hall in Hin.
Qed.

Lemma rparen_not_in_voiceover_break :
  spares Cu.rparen ends_reach (λ _, Full.match_voiceover_break) [Cu.newline].
Proof.
  intros _ c r n. unfold Full.match_voiceover_break.
  destruct (c =? Cu.newline)%N eqn:E; [|done]. intros _. right.
  by apply N.eqb_eq in E as ->.
Qed.

Lemma rparen_not_in_scene : spares Cu.rparen ends_reach (λ _, Full.match_scene) [].
Proof.
  intros _ c r n. unfold Full.match_scene.
  destruct (starts_with_ci _ _) eqn:E; [|done].
  destruct (_ && _) eqn:E2; [|done]. apply andb_true_iff in E2 as [_ E2].
  intros <-%(inj Some). left. split; [done|].
  rewrite match_head_take by lia.
  replace (take _ (c :: r))
    with ((take 6 (c :: r) ++ take (digit_run (drop 6 (c :: r))) (drop 6 (c :: r)))
          ++ take 1 (drop (digit_run (drop 6 (c :: r))) (drop 6 (c :: r))))
    by (by rewrite drop_drop, !take_take_drop).
  intros [[Hin|Hin]%elem_of_app|Hin]%elem_of_app.
  - pose proof (starts_with_ci_take _ _ E) as Hall. rewrite Forall_forall in Hall.
    apply Hall in Hin. revert Hin. apply (bool_decide_unpack _). by vm_compute.
  - pose proof (digit_run_take (drop 6 (c :: r))) as Hall. rewrite Forall_forall in Hall.
    by apply Hall in Hin.
  - rewrite drop_drop in Hin.
    destruct (drop _ _) as [|d t]; [by rewrite take_nil in Hin|].
    simpl in E2, Hin. apply N.eqb_eq in E2 as ->. rewrite take_0 in Hin.
    by apply list_elem_of_singleton in Hin.
Qed.

Lemma rparen_not_in_scene_bracket :
  spares Cu.rparen ends_reach (λ _, Full.match_scene_bracket) [].
Proof.
  intros _ c r n. unfold Full.match_scene_bracket.
  destruct (starts_with_ci _ _) eqn:E; [|done]. intros _. right.
  change (js "[Scene") with (Cu.lbracket :: js "Scene") in E. cbn [starts_with_ci] in E.
  apply andb_true_iff in E as [E _]. apply N.eqb_eq in E.
  change (lower_ascii Cu.lbracket) with Cu.lbracket in E.
  unfold ends_reach. replace c with Cu.lbracket; [done|].
  unfold lower_ascii in E.
  destruct ((65 <=? c)%N && (c <=? 90)%N) eqn:Ec; [|done].
  apply andb_true_iff in Ec as [?%N.leb_le ?%N.leb_le]. unfold Cu.lbracket in E. lia.
Qed.

Lemma closed_in_reach_replace_all open close stop m rep s :
  stop close = false → spares close stop (λ _, m) rep → open ∉ rep →
  (∀ c r n, m (c :: r) = Some n → sublist rep (c :: take (Nat.pred n) r)) →
  closed_in_reach open close stop s →
  closed_in_reach open close stop (replace_all m rep s).
Proof.
  intros Hstop Hm Hrep Hsub Hs. rewrite (replace_all_as_lines m rep s true).
  apply closed_in_reach_replace_lines; first [done|intros _; exact Hsub].
Qed.

Lemma replace_all_ext m1 m2 rep s :
  (∀ t, m1 t = m2 t) → replace_all m1 rep s = replace_all m2 rep s.
Proof.
  intros Hm. induction s as [s IH] using jsstring_length_ind.
  destruct s as [|c r]; [by rewrite !replace_all_nil|].
  rewrite !replace_all_cons, Hm. destruct (m2 (c :: r)) as [n|].
  - f_equal. apply IH. simpl. rewrite length_drop. lia.
  - f_equal. apply IH. simpl. lia.
Qed.

Lemma cleanScript_full_no_pairs s :
  closed_in_reach Cu.lbracket Cu.rbracket is_line_terminator s →
  closed_in_reach Cu.lparen Cu.rparen ends_reach s →
  no_pair Cu.lbracket Cu.rbracket (Full.cleanScript s) ∧
  no_pair Cu.lparen Cu.rparen (Full.cleanScript s).
Proof.
  intros Hb Hp. unfold Full.cleanScript. cbn zeta. split.
  - apply (no_pair_sublist _ _ _ (replace_all match_bracket [] s)).
    2:{ rewrite (replace_all_ext _ _ _ _ match_bracket_delim).
        by apply (no_pair_after_delim _ _ is_line_terminator). }
    etrans; [apply trim_sublist|].
    etrans; [apply replace_lines_erase_sublist|].
    etrans; [apply collapse_sublist|].
    etrans; [apply replace_all_erase_sublist|].
    etrans; [apply replace_all_erase_sublist|].
    etrans; [apply replace_all_erase_sublist|].
    etrans; [apply replace_all_erase_sublist|].
    etrans; [apply voiceover_break_sublist|].
    etrans; [apply replace_lines_erase_sublist|].
    apply replace_all_erase_sublist.
  - eapply no_pair_sublist.
    { etrans; [apply trim_sublist|].
      etrans; [apply replace_lines_erase_sublist|].
      etrans; [apply collapse_sublist|].
      apply replace_all_erase_sublist. }
    change Full.match_paren with (match_delim Cu.lparen Cu.rparen).
    apply (no_pair_after_delim _ _ ends_reach).
    { intros x Hx. unfold ends_reach. by rewrite Hx. }
    apply closed_in_reach_replace_all;
      [done|apply rparen_not_in_scene_bracket|apply not_elem_of_nil
      |intros; apply sublist_nil_l|].
    apply closed_in_reach_replace_all;
      [done|apply rparen_not_in_scene|apply not_elem_of_nil|intros; apply sublist_nil_l|].
    apply closed_in_reach_replace_all;
      [done|apply rparen_not_in_voiceover_break| | |].
    { by intros ?%list_elem_of_singleton. }
    { intros c r n. unfold Full.match_voiceover_break.
      destruct (c =? Cu.newline)%N eqn:E; [|done]. apply N.eqb_eq in E as ->.
      intros _. apply sublist_skip, sublist_nil_l. }
    apply closed_in_reach_replace_lines;
      [done|apply rparen_not_in_voiceover_line|apply not_elem_of_nil
      |intros; apply sublist_nil_l|].
    apply closed_in_reach_replace_all;
      [done|apply rparen_not_in_bold|apply not_elem_of_nil|intros; apply sublist_nil_l|].
    apply closed_in_reach_replace_all;
      [done|apply rparen_not_in_bracket|apply not_elem_of_nil|intros; apply sublist_nil_l|].
    done.
Qed.

Lemma iter_fixed_point (F : jsstring → jsstring) :
  (∀ s, sublist (F s) s) →
  ∀ s, ∃ n, (n ≤ length s)%nat ∧ F (Nat.iter n F s) = Nat.iter n F s.
Proof.
  intros HF. induction s as [s IH] using jsstring_length_ind.
  destruct (decide (F s = s)) as [E|E]; [exists 0%nat; split; [lia|done]|].
  assert (Hlt : (length (F s) < length s)%nat).
  { pose proof (sublist_length _ _ (HF s)) as Hle.
    destruct (decide (length (F s) = length s)) as [El|]; [|lia].
    by destruct E; apply sublist_same_length. }
  destruct (IH _ Hlt) as (n & Hn & Hfix). exists (S n). split; [lia|].
  by rewrite !Nat.iter_succ_r.
Qed.

Lemma closed_in_reachb_spec open close stop s :
  closed_in_reachb open close stop s = true → closed_in_reach open close stop s.
Proof.
  induction s as [|c r IH]; simpl; [intros _; apply closed_in_reach_nil|].
  intros [H1 H2]%andb_prop. apply closed_in_reach_cons. split; [|by apply IH].
  intros -> Hin.
  rewrite N.eqb_refl in H1. simpl in H1.
  apply orb_prop in H1 as [H1|H1]; [|done].
  apply negb_true_iff, bool_decide_eq_false in H1. done.
Qed.

(** ** The allocator *)

Lemma insert_segment_perm x l : Full.insert_segment x l ≡ₚ x :: l.
Proof.
  induction l as [|y l IH]; simpl; [done|].
  destruct (Full.startPos x <=? Full.startPos y); [done|].
  rewrite IH. apply Permutation_swap.
Qed.

Lemma sort_segments_perm l : Full.sort_segments l ≡ₚ l.
Proof.
  induction l as [|x l IH]; simpl; [done|].
  change (foldr Full.insert_segment [] l) with (Full.sort_segments l).
  by rewrite insert_segment_perm, IH.
Qed.





Lemma insert_index_perm {A} n (x : A) l : Full.insert_index n x l ≡ₚ (n, x) :: l.
Proof.
  induction l as [|[m y] l IH]; simpl; [done|].
  destruct (n <=? m); [done|]. rewrite IH. apply Permutation_swap.
Qed.

Lemma entries_perm {A} (obj : list (jsstring * A)) : Full.entries obj ≡ₚ obj.
Proof.
  unfold Full.entries. induction obj as [|p obj IH]; simpl; [done|].
  rewrite filter_cons.
  destruct (Full.array_index p.1) as [n|] eqn:E.
  - rewrite decide_False by done.
    rewrite insert_index_perm. simpl. by rewrite IH.
  - rewrite decide_True by done.
    rewrite <- Permutation_middle. by rewrite IH.
Qed.

Lemma group_add_perm c f g : Full.group_add c f g ≫= snd ≡ₚ f :: (g ≫= snd).
Proof.
  induction g as [|[c' imgs] g IH]; simpl; [done|].
  case_bool_decide; simpl.
  - rewrite <- app_assoc. simpl. by rewrite <- Permutation_middle.
  - rewrite IH. by rewrite <- Permutation_middle.
Qed.


Lemma imagesByCategory_perm category_of files :
  Full.imagesByCategory category_of files ≫= snd ≡ₚ files.
Proof.
  unfold Full.imagesByCategory.
  cut (∀ acc, foldl (λ groups file,
                 Full.group_add (Full.category_key (category_of (originalname file))) file groups)
               acc files ≫= snd ≡ₚ (acc ≫= snd) ++ files).
  { intros H. by rewrite H. }
  induction files as [|f files IH]; intros acc; simpl.
  - by rewrite app_nil_r.
  - rewrite IH, group_add_perm. by rewrite <- Permutation_middle.
Qed.


Lemma segment_of_images lower total e : Full.images (Full.segment_of lower total e) = e.2.
Proof.
  unfold Full.segment_of.
  destruct (foldl _ _ _) as [a b]. by destruct (a =? 999999).
Qed.


Lemma segments_files toLowerCase files script category_of :
  Full.segments toLowerCase files script category_of ≫= Full.images ≡ₚ files.
Proof.
  unfold Full.segments. rewrite sort_segments_perm.
  rewrite <- (imagesByCategory_perm category_of files) at 2.
  rewrite <- (entries_perm (Full.imagesByCategory category_of files)) at 2.
  induction (Full.entries _) as [|e l IH]; simpl; [done|].
  by rewrite segment_of_images, IH.
Qed.


Lemma timings_length segs :
  length (segs ≫= Full.segment_timings) = length (segs ≫= Full.images).
Proof.
  induction segs as [|seg segs IH]; [done|].
  rewrite !bind_cons, !length_app, IH. unfold Full.segment_timings. by rewrite length_replicate.
Qed.











(** ** Calls in the order of a plan *)

Lemma outputs_nil_count made : outputs made = [] → count is_exec made = 0%nat.
Proof.
  induction made as [|e made IH]; [done|]. rewrite count_cons.
  destruct e; try (intros H; by rewrite (IH H)). done.
Qed.

Lemma issues_bind o {A B} (m : M A) (k : A → M B) p1 p2 :
  issues o m p1 → (∀ w a w1, m w = (Done a, w1) → issues o (k a) p2) →
  issues o (bind m k) (p1 ++ p2).
Proof.
  intros Hm Hk w r w' Hrun. unfold bind in Hrun.
  destruct (m w) as [[a|e] w1] eqn:E.
  - destruct (Hm _ _ _ E) as (made1 & Hp1 & Hl1 & Hd1 & _ & Hh1).
    destruct (Hk w a w1 E _ _ _ Hrun) as (made2 & Hp2 & Hl2 & Hd2 & He2 & Hh2).
    exists (made1 ++ made2). rewrite outputs_app, (Hd1 a eq_refl).
    split_and!.
    + by apply prefix_app.
    + by rewrite Hl2, Hl1, app_assoc.
    + intros b Hb. by rewrite (Hd2 b Hb).
    + intros c Hc. rewrite last_app. by rewrite (He2 c Hc).
    + intros n Hfail Hn. destruct (Hh1 n Hfail Hn) as [Hle Hthrown].
      assert (count is_exec (log w1) ≤ n)%nat as Hn1.
      { destruct (decide (count is_exec (log w1) = S n)) as [Heq|]; [|lia].
        by destruct (Hthrown Heq). }
      apply (Hh2 n Hfail Hn1).
  - injection Hrun as <- <-.
    destruct (Hm _ _ _ E) as (made1 & Hp1 & Hl1 & _ & He1 & Hh1).
    exists made1. split_and!; [by apply prefix_app_r|done|done| |].
    + intros c [= ->]. by apply He1.
    + intros n Hfail Hn. destruct (Hh1 n Hfail Hn) as [Hle Hthrown]. split; [done|].
      intros Heq. destruct (Hthrown Heq) as [c [= ->]]. by exists c.
Qed.

Lemma issues_silent o {A} (m : M A) :
  (∀ w r w', m w = (r, w') →
             (∃ made, log w' = log w ++ made ∧ outputs made = []) ∧
             ∀ c, r ≠ Thrown (ExecError c)) →
  issues o m [].
Proof.
  intros H w r w' Hrun. destruct (H w r w' Hrun) as [(made & Hl & Ho) Hne].
  exists made. rewrite Ho. split_and!; [done|done|done| |].
  - intros c ->. by destruct (Hne c).
  - intros n _ Hn. rewrite Hl, count_app, (outputs_nil_count _ Ho). split; lia.
Qed.

Lemma issues_ret o {A} (a : A) : issues o (ret a) [].
Proof.
  apply issues_silent. intros w r w' [= <- <-]. split; [|done].
  exists []. by rewrite app_nil_r.
Qed.

Lemma issues_throw o {A} e p : (∀ c, e ≠ ExecError c) → issues o (@throw A e) p.
Proof.
  intros He w r w' [= <- <-]. exists []. rewrite app_nil_r.
  split_and!; [apply prefix_nil|done|done| |].
  - intros c [= ->]. by destruct (He c).
  - intros n _ Hn. split; lia.
Qed.

Lemma issues_execPromise o cmd : issues o (execPromise o cmd) [output_of cmd].
Proof.
  intros w r w'. unfold execPromise.
  destruct (ffmpeg o _ cmd _) as [ok d] eqn:Hcall.
  intros Hrun. exists [EvExec cmd].
  assert (log w' = log w ++ [EvExec cmd]) as Hl by (by destruct ok; injection Hrun as <- <-).
  split_and!; [done|done|done| |].
  - intros c Hc. subst r. destruct ok; [done|]. by injection Hrun as -> _.
  - intros n Hfail Hn. rewrite Hl, count_app, count_cons.
    change (count is_exec []) with 0%nat. cbn [is_exec]. split; [lia|].
    intros Heq. assert (count is_exec (log w) = n) as Hk by lia.
    rewrite Hk in Hcall. specialize (Hfail cmd (disk w)). rewrite Hcall in Hfail.
    cbn in Hfail. subst ok. injection Hrun as <- _. by exists cmd.
Qed.

Lemma issues_unlink o p : issues o (unlink_if_exists p) [].
Proof.
  apply issues_silent. intros w r w'. rewrite unlink_if_exists_run. intros [= <- <-].
  split; [|done]. exists []. by rewrite app_nil_r.
Qed.

Lemma issues_forEach_unlink o {A} (g : A → jsstring) xs :
  issues o (forEach (λ x, unlink_if_exists (g x)) xs) [].
Proof.
  apply issues_silent. intros w r w'. rewrite forEach_unlink_run. intros [= <- <-].
  split; [|done]. exists []. by rewrite app_nil_r.
Qed.

Lemma issues_forEach_unlink_paths o xs : issues o (forEach unlink_if_exists xs) [].
Proof.
  apply issues_silent. intros w r w'. rewrite forEach_unlink_paths_run. intros [= <- <-].
  split; [|done]. exists []. by rewrite app_nil_r.
Qed.

Lemma issues_writeFileSync o p : issues o (writeFileSync p) [].
Proof.
  apply issues_silent. intros w r w' [= <- <-]. split; [|done].
  exists []. by rewrite app_nil_r.
Qed.

Lemma issues_unlinkSync o p : issues o (unlinkSync p) [].
Proof.
  apply issues_silent. intros w r w'. unfold unlinkSync.
  case_bool_decide; intros [= <- <-]; (split; [|done]); exists []; by rewrite app_nil_r.
Qed.

Lemma issues_existsSync o p : issues o (existsSync p) [].
Proof.
  apply issues_silent. intros w r w' [= <- <-]. split; [|done].
  exists []. by rewrite app_nil_r.
Qed.

Lemma issues_call_speech o v i : issues o (call_speech o v i) [].
Proof.
  apply issues_silent. intros w r w'. rewrite call_speech_run.
  intros [= <- <-]. split; [by exists [EvSpeech v i]|]. by destruct (speech o _).
Qed.

Lemma issues_audio_command o req estimated v a f :
  issues o (audio_command o req estimated v a f) [].
Proof.
  apply issues_silent. intros w r w' Hrun.
  pose proof (audio_command_run _ _ _ _ _ _ _ _ _ Hrun) as ->.
  split; [exists []; by rewrite app_nil_r|].
  revert Hrun. unfold audio_command.
  destruct (music_requested _); [|by intros [= <-]].
  destruct (musicFile _); [|by intros [= <-]].
  unfold bind, existsSync, ret. simpl. by case_bool_decide; intros [= <-].
Qed.

Lemma issues_remove_directory o dir : issues o (Full.remove_directory dir) [].
Proof.
  apply issues_silent. intros w r w'. unfold Full.remove_directory.
  case_bool_decide; intros [= <- <-]; (split; [|done]); exists []; by rewrite app_nil_r.
Qed.

Lemma issues_validateTimingSync o files analysis :
  issues o (Full.validateTimingSync files analysis) [].
Proof.
  unfold Full.validateTimingSync. destruct analysis as [| |[] category_of];
    try apply issues_ret.
  destruct (existsb _ files); [by apply issues_throw|apply issues_ret].
Qed.

Lemma issues_clip_loop o outputDir timestamp q width height rest :
  ∀ i videoClips,
    issues o (clip_loop o outputDir timestamp q width height i rest videoClips)
           ((λ k, path_join outputDir
                    (js "clip-" ++ dec timestamp ++ js "-" ++ dec (Z.of_nat k) ++ js ".mp4"))
            <$> seq i (length rest)).
Proof.
  induction rest as [|f rest IH]; intros i videoClips; cbn [clip_loop length seq fmap list_fmap].
  - apply issues_ret.
  - apply (issues_bind _ _ _ [_]); [apply issues_execPromise|]. intros _ _ _ _. apply IH.
Qed.

Lemma issues_convert_loop o dir rest :
  ∀ i, issues o (Full.convert_loop o dir i rest)
              ((λ k, path_join dir (Full.img_name k)) <$> seq i (length rest)).
Proof.
  induction rest as [|f rest IH]; intros i; cbn [Full.convert_loop length seq fmap list_fmap].
  - apply issues_ret.
  - apply (issues_bind _ _ _ [_]); [apply issues_execPromise|]. intros _ _ _ _. apply IH.
Qed.

Lemma issues_timed_clip_loop o tempImageDir clipDir width height estimated count durations rest :
  ∀ i, issues o (Full.clip_loop o tempImageDir clipDir width height estimated count durations
                 i rest)
              ((λ k, path_join clipDir (Full.clip_name k)) <$> seq i (length rest)).
Proof.
  induction rest as [|f rest IH]; intros i; cbn [Full.clip_loop length seq fmap list_fmap].
  - apply issues_ret.
  - destruct (match durations with
              | Some durations => durations !! i
              | None => Some (estimated / inject_Z (Z.of_nat count))%Q
              end) as [duration|].
    + apply (issues_bind _ _ _ [_]); [apply issues_execPromise|]. intros _ _ _ _. apply IH.
    + apply (issues_bind _ _ _ [_]); [apply issues_execPromise|]. intros _ _ _ _.
      by apply issues_throw.
Qed.

(** The files that the media-tool calls of a request write, in the first
    revision and in the later one. *)
Lemma issues_generate_video_try o req :
  let outputDir := path_join (dirname o) (js "output") in
  issues o (generate_video_try o req)
    (((λ k, path_join outputDir
              (js "clip-" ++ dec (now o) ++ js "-" ++ dec (Z.of_nat k) ++ js ".mp4"))
      <$> seq 0 (length (default [] (files req))))
     ++ [path_join outputDir (js "video-no-audio-" ++ dec (now o) ++ js ".mp4");
         path_join outputDir (js "ad-" ++ dec (now o) ++ js ".mp4")]).
Proof.
  cbn zeta. unfold generate_video_try.
  destruct (files req) as [uploaded|]; [|by apply issues_throw].
  destruct (script req) as [s|]; [|by apply issues_throw].
  destruct (resolution (aspectRatio req)) as [width height]. cbn [default].
  apply (issues_bind _ _ _ []); [apply issues_call_speech|]. intros _ _ _ _.
  apply (issues_bind _ _ _ []); [apply issues_writeFileSync|]. intros _ _ _ _.
  apply issues_bind; [apply issues_clip_loop|]. intros _ clips _ _.
  apply (issues_bind _ _ _ []); [apply issues_writeFileSync|]. intros _ _ _ _.
  apply (issues_bind _ _ _ [_] [_]); [apply issues_execPromise|]. intros _ _ _ _.
  apply (issues_bind _ _ _ []); [apply issues_forEach_unlink_paths|]. intros _ _ _ _.
  apply (issues_bind _ _ _ []); [apply issues_unlink|]. intros _ _ _ _.
  apply (issues_bind _ _ _ []); [apply issues_audio_command|]. intros w cmd w1 Hcmd.
  pose proof (audio_command_output _ _ _ _ _ _ _ _ _ Hcmd) as Hout.
  apply (issues_bind _ _ _ [_] []); [rewrite <- Hout; apply issues_execPromise|]. intros _ _ _ _.
  apply (issues_bind _ _ _ []); [apply issues_unlink|]. intros _ _ _ _.
  apply (issues_bind _ _ _ []); [apply issues_unlink|]. intros _ _ _ _.
  apply (issues_bind _ _ _ []); [apply issues_forEach_unlink|]. intros _ _ _ _.
  apply (issues_bind _ _ _ []); [apply issues_existsSync|]. intros _ present _ _.
  destruct present; [apply issues_ret|by apply issues_throw].
Qed.

Lemma issues_full_generate_video_try o req orderedFiles imageDurations :
  let outputDir := path_join (dirname o) (js "output") in
  let tempImageDir := path_join outputDir (js "imgs-" ++ dec (now o)) in
  let clipDir := path_join outputDir (js "clips-" ++ dec (now o)) in
  issues o (Full.generate_video_try o req orderedFiles imageDurations)
    (((λ k, path_join tempImageDir (Full.img_name k)) <$> seq 0 (length orderedFiles))
     ++ ((λ k, path_join clipDir (Full.clip_name k)) <$> seq 0 (length orderedFiles))
     ++ [path_join outputDir (js "video-no-audio-" ++ dec (now o) ++ js ".mp4");
         path_join outputDir (js "ad-" ++ dec (now o) ++ js ".mp4")]).
Proof.
  cbn zeta. unfold Full.generate_video_try.
  apply (issues_bind _ _ _ []); [apply issues_validateTimingSync|]. intros _ _ _ _.
  destruct (script req) as [s|]; [|by apply issues_throw].
  apply (issues_bind _ _ _ []); [apply issues_call_speech|]. intros _ _ _ _.
  apply (issues_bind _ _ _ []); [apply issues_writeFileSync|]. intros _ _ _ _.
  destruct (resolution (aspectRatio req)) as [width height].
  apply issues_bind; [apply issues_convert_loop|]. intros _ _ _ _.
  apply issues_bind; [apply issues_timed_clip_loop|]. intros _ _ _ _.
  apply (issues_bind _ _ _ []); [apply issues_writeFileSync|]. intros _ _ _ _.
  apply (issues_bind _ _ _ [_] [_]); [apply issues_execPromise|]. intros _ _ _ _.
  apply (issues_bind _ _ _ []); [apply issues_remove_directory|]. intros _ _ _ _.
  apply (issues_bind _ _ _ []); [apply issues_remove_directory|]. intros _ _ _ _.
  apply (issues_bind _ _ _ []); [apply issues_unlinkSync|]. intros _ _ _ _.
  apply (issues_bind _ _ _ []); [apply issues_audio_command|]. intros w cmd w1 Hcmd.
  pose proof (audio_command_output _ _ _ _ _ _ _ _ _ Hcmd) as Hout.
  apply (issues_bind _ _ _ [_] []); [rewrite <- Hout; apply issues_execPromise|]. intros _ _ _ _.
  apply (issues_bind _ _ _ []); [apply issues_unlink|]. intros _ _ _ _.
  apply (issues_bind _ _ _ []); [apply issues_unlink|]. intros _ _ _ _.
  apply (issues_bind _ _ _ []); [apply issues_forEach_unlink|]. intros _ _ _ _.
  apply (issues_bind _ _ _ []); [apply issues_existsSync|]. intros _ present _ _.
  destruct present; [apply issues_ret|by apply issues_throw].
Qed.

(** ** The names of the files of a run *)

Lemma read_zeros k s : ∀ seen,
  (read_digits 10 0 seen (replicate k Cu.zero ++ s)).1 = (read_digits 10 0 (seen + k) s).1.
Proof.
  induction k as [|k IH]; intros seen; [by rewrite Nat.add_0_r|].
  cbn [replicate app read_digits]. change (digit_value 10 Cu.zero) with (Some 0).
  cbn iota. rewrite IH. by rewrite Nat.add_succ_r.
Qed.

Lemma read_digits_seen s : ∀ acc seen seen',
  (read_digits 10 acc seen s).1 = (read_digits 10 acc seen' s).1.
Proof.
  induction s as [|c s IH]; intros acc seen seen'; cbn [read_digits]; [done|].
  destruct (digit_value 10 c); [apply IH|done].
Qed.

Lemma read_dec n : 0 ≤ n → (read_digits 10 0 0 (dec n)).1 = n.
Proof.
  intros Hn. destruct n as [|p|p]; [done| |lia].
  unfold dec. change (pretty (Z.pos p)) with (pretty_N_go (N.pos p) "").
  destruct (read_digits_pretty_go (N.pos p) "" 0 0%nat ltac:(done)) as [k Hk].
  rewrite Hk. by cbn.
Qed.

Lemma padStart4_dec_inj (a b : nat) :
  Full.padStart4 (dec (Z.of_nat a)) = Full.padStart4 (dec (Z.of_nat b)) → a = b.
Proof.
  intros H. apply (f_equal (λ s, (read_digits 10 0 0 s).1)) in H.
  unfold Full.padStart4 in H. rewrite !read_zeros in H.
  rewrite (read_digits_seen _ 0 _ 0%nat), (read_digits_seen (dec (Z.of_nat b)) 0 _ 0%nat) in H.
  rewrite !read_dec in H by lia. lia.
Qed.

Lemma img_name_inj a b : Full.img_name a = Full.img_name b → a = b.
Proof.
  unfold Full.img_name. intros H%app_inv_head%app_inv_tail. by apply padStart4_dec_inj.
Qed.

Lemma clip_name_inj a b : Full.clip_name a = Full.clip_name b → a = b.
Proof.
  unfold Full.clip_name. intros H%app_inv_head%app_inv_tail. by apply padStart4_dec_inj.
Qed.

Lemma first_plan_NoDup outputDir timestamp n :
  NoDup (((λ k, path_join outputDir
                  (js "clip-" ++ dec timestamp ++ js "-" ++ dec (Z.of_nat k) ++ js ".mp4"))
          <$> seq 0 n)
         ++ [path_join outputDir (js "video-no-audio-" ++ dec timestamp ++ js ".mp4");
             path_join outputDir (js "ad-" ++ dec timestamp ++ js ".mp4")]).
Proof.
  apply NoDup_app. split_and!.
  - apply clip_paths_NoDup.
  - intros p (k & -> & _)%list_elem_of_fmap Hin.
    apply elem_of_cons in Hin as [H|Hin]; [|apply list_elem_of_singleton in Hin as H];
      apply path_join_inj in H; by apply name_differs in H.
  - apply NoDup_cons. split; [|apply NoDup_singleton].
    intros H%list_elem_of_singleton%path_join_inj. by apply name_differs in H.
Qed.

Lemma later_plan_NoDup outputDir timestamp n :
  let tempImageDir := path_join outputDir (js "imgs-" ++ dec timestamp) in
  let clipDir := path_join outputDir (js "clips-" ++ dec timestamp) in
  NoDup (((λ k, path_join tempImageDir (Full.img_name k)) <$> seq 0 n)
         ++ ((λ k, path_join clipDir (Full.clip_name k)) <$> seq 0 n)
         ++ [path_join outputDir (js "video-no-audio-" ++ dec timestamp ++ js ".mp4");
             path_join outputDir (js "ad-" ++ dec timestamp ++ js ".mp4")]).
Proof.
  cbn zeta.
  assert (Himg : ∀ k x, path_join (path_join outputDir (js "imgs-" ++ dec timestamp))
                          (Full.img_name k) = path_join outputDir x →
                        js "imgs-" ++ (dec timestamp ++ js "/" ++ Full.img_name k) = x).
  { intros k x. unfold path_join. rewrite <- !app_assoc. by intros ?%app_inv_head%app_inv_head. }
  assert (Hclip : ∀ k x, path_join (path_join outputDir (js "clips-" ++ dec timestamp))
                           (Full.clip_name k) = path_join outputDir x →
                         js "clips-" ++ (dec timestamp ++ js "/" ++ Full.clip_name k) = x).
  { intros k x. unfold path_join. rewrite <- !app_assoc. by intros ?%app_inv_head%app_inv_head. }
  apply NoDup_app. split_and!.
  - apply NoDup_fmap_2; [|apply NoDup_seq].
    intros j k H%path_join_inj. by apply img_name_inj.
  - intros p (k & -> & _)%list_elem_of_fmap Hin.
    apply elem_of_app in Hin as [(j & H & _)%list_elem_of_fmap|Hin].
    + unfold path_join in H.
      rewrite <- !app_assoc in H. apply app_inv_head, app_inv_head in H.
      by apply name_differs in H.
    + apply elem_of_cons in Hin as [H|Hin]; [|apply list_elem_of_singleton in Hin as H];
        apply Himg in H; by apply name_differs in H.
  - apply NoDup_app. split_and!.
    + apply NoDup_fmap_2; [|apply NoDup_seq].
      intros j k H%path_join_inj. by apply clip_name_inj.
    + intros p (k & -> & _)%list_elem_of_fmap Hin.
      apply elem_of_cons in Hin as [H|Hin]; [|apply list_elem_of_singleton in Hin as H];
        apply Hclip in H; by apply name_differs in H.
    + apply NoDup_cons. split; [|apply NoDup_singleton].
      intros H%list_elem_of_singleton%path_join_inj. by apply name_differs in H.
Qed.

Lemma issues_fresh_failure o {A} (m : M A) planned w c w' :
  issues o m planned → NoDup planned → m w = (Thrown (ExecError c), w') →
  ∃ calls, log w' = log w ++ calls ++ [EvExec c] ∧ EvExec c ∉ calls.
Proof.
  intros Hm Hnd Hrun. destruct (Hm _ _ _ Hrun) as (made & Hp & Hl & _ & He & _).
  specialize (He c eq_refl). apply last_Some in He as [calls ->].
  exists calls. split; [done|]. intros Hin.
  destruct Hp as [rest Hp]. rewrite Hp, outputs_app in Hnd.
  apply NoDup_app in Hnd as [Hnd _]. apply NoDup_app in Hnd as (_ & Hnd & _).
  apply (Hnd (output_of c)); [|by left].
  unfold outputs. apply list_elem_of_omap. by exists (EvExec c).
Qed.

(** ** Runs of the later video endpoint *)

Lemma full_convert_loop_done o dir rest :
  ∀ i w w', Full.convert_loop o dir i rest w = (Done (), w') →
            log w' = log w ++ convert_events dir i rest.
Proof.
  induction rest as [|f rest IH]; intros i w w'; cbn [Full.convert_loop].
  - intros [= <-]. by rewrite app_nil_r.
  - intros ([] & w1 & H1 & H2)%bind_done. apply execPromise_done in H1.
    apply IH in H2. rewrite H2, H1, <- app_assoc. f_equal.
    unfold convert_events. cbn [imap app]. rewrite Nat.add_0_r. f_equal.
    apply imap_ext. intros k x _. cbn. by rewrite Nat.add_succ_r.
Qed.

Lemma full_clip_loop_done o tempImageDir clipDir width height estimated count durations rest :
  ∀ i w w',
    Full.clip_loop o tempImageDir clipDir width height estimated count durations i rest w
      = (Done (), w') →
    let read := match durations with
                | Some l => take (length rest) (drop i l)
                | None => replicate (length rest) (estimated / inject_Z (Z.of_nat count))%Q
                end in
    length read = length rest ∧
    log w' = log w ++ timed_clip_events tempImageDir clipDir width height i read.
Proof.
  induction rest as [|f rest IH]; intros i w w'; cbn [Full.clip_loop length].
  - intros [= <-]. cbn zeta. destruct durations; cbn [take replicate length timed_clip_events imap];
      by rewrite app_nil_r.
  - destruct (match durations with
              | Some l => l !! i
              | None => Some (estimated / inject_Z (Z.of_nat count))%Q
              end) as [duration|] eqn:Hd; [|by intros (? & ? & _ & [=])%bind_done].
    intros ([] & w1 & H1 & H2)%bind_done. apply execPromise_done in H1.
    apply IH in H2 as [Hlen H2]. cbn zeta in *.
    assert (Hread : match durations with
                    | Some l => take (S (length rest)) (drop i l)
                    | None => replicate (S (length rest))
                                (estimated / inject_Z (Z.of_nat count))%Q
                    end
                    = duration :: match durations with
                                  | Some l => take (length rest) (drop (S i) l)
                                  | None => replicate (length rest)
                                              (estimated / inject_Z (Z.of_nat count))%Q
                                  end).
    { destruct durations as [l|].
      - by rewrite (drop_S _ _ _ Hd).
      - by injection Hd as <-. }
    rewrite Hread. split; [cbn [length]; by rewrite Hlen|].
    rewrite H2, H1, <- app_assoc. f_equal.
    unfold timed_clip_events. cbn [imap app]. rewrite Nat.add_0_r. f_equal.
    apply imap_ext. intros k x _. cbn. by rewrite Nat.add_succ_r.
Qed.

Lemma remove_directory_done dir w w' :
  Full.remove_directory dir w = (Done (), w') → log w' = log w.
Proof. unfold Full.remove_directory. by case_bool_decide; intros [= <-]. Qed.

Lemma unlinkSync_done p w w' : unlinkSync p w = (Done (), w') → log w' = log w.
Proof. unfold unlinkSync. by case_bool_decide; intros [= <-]. Qed.

Lemma validateTimingSync_done files analysis w w' :
  Full.validateTimingSync files analysis w = (Done (), w') → w' = w.
Proof.
  unfold Full.validateTimingSync. destruct analysis as [| |[] category_of];
    try (by intros [= <-]).
  by destruct (existsb _ files); intros [= <-].
Qed.

Lemma full_generate_video_try_done o req orderedFiles imageDurations w r w' :
  Full.generate_video_try o req orderedFiles imageDurations w = (Done r, w') →
  ∃ s cmd w1,
    let outputDir := path_join (dirname o) (js "output") in
    let tempImageDir := path_join outputDir (js "imgs-" ++ dec (now o)) in
    let clipDir := path_join outputDir (js "clips-" ++ dec (now o)) in
    let videoNoAudioPath := path_join outputDir (js "video-no-audio-" ++ dec (now o) ++ js ".mp4") in
    let estimated := Full.estimated_duration imageDurations (Full.cleanScript s) in
    let read := clip_durations estimated (length orderedFiles) imageDurations in
    script req = Some s ∧
    r = Reply 200 (TimedVideoReply (js "ad-" ++ dec (now o) ++ js ".mp4") estimated) ∧
    length read = length orderedFiles ∧
    log w1 =
      log w ++ EvSpeech (voice_or_alloy (voice req)) (Full.cleanScript s)
        :: convert_events tempImageDir 0 orderedFiles
        ++ timed_clip_events tempImageDir clipDir
             (resolution (aspectRatio req)).1 (resolution (aspectRatio req)).2 0 read
        ++ [EvExec (CreateVideo (path_join outputDir (js "concat-" ++ dec (now o) ++ js ".txt"))
                      videoNoAudioPath)] ∧
    log w' = log w1 ++ [EvExec cmd] ∧
    audio_command o req estimated videoNoAudioPath
      (path_join outputDir (js "voice-" ++ dec (now o) ++ js ".mp3"))
      (path_join outputDir (js "ad-" ++ dec (now o) ++ js ".mp4")) w1 = (Done cmd, w1).
Proof.
  unfold Full.generate_video_try.
  intros ([] & w0 & H0%validateTimingSync_done & H)%bind_done. subst w0.
  destruct (script req) as [s|]; [|done].
  destruct (resolution (aspectRatio req)) as [width height] eqn:Hres.
  apply bind_done in H as ([] & w1 & H1 & H).
  rewrite call_speech_run in H1.
  destruct (speech o _); [|done]. injection H1 as <-.
  apply bind_done in H as ([] & w2 & [= <-] & H).
  apply bind_done in H as ([] & w3 & H3%full_convert_loop_done & H).
  apply bind_done in H as ([] & w4 & H4%full_clip_loop_done & H).
  destruct H4 as [Hlen H4].
  apply bind_done in H as ([] & w5 & [= <-] & H).
  apply bind_done in H as ([] & w6 & H6%execPromise_done & H).
  apply bind_done in H as ([] & w7 & H7%remove_directory_done & H).
  apply bind_done in H as ([] & w8 & H8%remove_directory_done & H).
  apply bind_done in H as ([] & w9 & H9%unlinkSync_done & H).
  apply bind_done in H as (cmd & w10 & H10 & H).
  pose proof (audio_command_run _ _ _ _ _ _ _ _ _ H10) as ->.
  apply bind_done in H as ([] & w11 & H11%execPromise_done & H).
  apply bind_done in H as ([] & w12 & H12 & H).
  rewrite unlink_if_exists_run in H12. injection H12 as <-.
  apply bind_done in H as ([] & w13 & H13 & H).
  rewrite unlink_if_exists_run in H13. injection H13 as <-.
  apply bind_done in H as ([] & w14 & H14 & H).
  rewrite forEach_unlink_run in H14. injection H14 as <-.
  apply bind_done in H as (present & w15 & [= <- <-] & H).
  case_bool_decide; [|done]. injection H as <- <-.
  exists s, cmd, w9. cbn zeta.
  assert (Hread : clip_durations (Full.estimated_duration imageDurations (Full.cleanScript s))
                    (length orderedFiles) imageDurations
                  = match imageDurations with
                    | Some l => take (length orderedFiles) (drop 0 l)
                    | None => replicate (length orderedFiles)
                                (Full.estimated_duration imageDurations (Full.cleanScript s)
                                 / inject_Z (Z.of_nat (length orderedFiles)))%Q
                    end) by (by destruct imageDurations).
  rewrite Hread. split_and!; try done.
  cbn [log] in *. rewrite H9, H8, H7, H6, H4, H3. cbn [log fst snd].
  by rewrite <- !app_assoc.
Qed.

Lemma full_generate_video_catch_run files e w :
  Full.generate_video_catch files e w =
  (Done (Reply 500 (ErrorReply "Failed to generate video" (Some e))),
   {| disk := disk w ∖ list_to_set (path <$> default [] files); log := log w |}).
Proof.
  unfold Full.generate_video_catch. destruct files as [uploaded|]; simpl.
  - by erewrite bind_run by apply forEach_unlink_run.
  - unfold bind, ret. rewrite difference_empty_L. by destruct w.
Qed.

(** What a run of the later video endpoint that answers comes to. *)
Lemma full_generate_video_cases toLowerCase o req w res w' :
  Full.generate_video toLowerCase o req w = Some (Done res, w') →
  (∃ uploaded orderedFiles imageDurations body,
     files req = Some uploaded ∧
     Full.segmentScriptAndMatchImages toLowerCase uploaded (script req) (imageAnalysis req)
       = Full.Allocated orderedFiles imageDurations ∧
     res = Reply 200 body ∧
     Full.generate_video_try o req orderedFiles imageDurations w = (Done (Reply 200 body), w')) ∨
  (∃ e, res = Reply 500 (ErrorReply "Failed to generate video" (Some e)) ∧
        ((files req = None ∧ e = TypeError ∧ w' = w) ∨
         (∃ uploaded, files req = Some uploaded ∧
            Full.segmentScriptAndMatchImages toLowerCase uploaded (script req) (imageAnalysis req)
              = Full.AllocationThrows ∧
            e = TypeError ∧
            w' = {| disk := disk w ∖ list_to_set (path <$> uploaded); log := log w |}) ∨
         (∃ uploaded orderedFiles imageDurations w1,
            files req = Some uploaded ∧
            Full.segmentScriptAndMatchImages toLowerCase uploaded (script req) (imageAnalysis req)
              = Full.Allocated orderedFiles imageDurations ∧
            Full.generate_video_try o req orderedFiles imageDurations w = (Thrown e, w1) ∧
            w' = {| disk := disk w1 ∖ list_to_set (path <$> orderedFiles); log := log w1 |}))).
Proof.
  unfold Full.generate_video.
  destruct (files req) as [uploaded|].
  - destruct (Full.segmentScriptAndMatchImages _ _ _ _) as [orderedFiles imageDurations| |] eqn:Ha;
      [| |done].
    + unfold try_catch.
      destruct (Full.generate_video_try o req orderedFiles imageDurations w) as [[r|e] w1] eqn:Ht.
      * intros [= <- <-]. left.
        destruct (full_generate_video_try_done _ _ _ _ _ _ _ Ht) as (? & ? & ? & _ & -> & _).
        eauto 10.
      * rewrite full_generate_video_catch_run. intros [= <- <-]. right.
        exists e. split; [done|]. right. right. eauto 10.
    + rewrite full_generate_video_catch_run. intros [= <- <-]. right.
      exists TypeError. split; [done|]. right. left. eauto.
  - rewrite full_generate_video_catch_run. intros [= <- <-]. right.
    exists TypeError. split; [done|]. left. split_and!; [done|done|].
    cbn [default fmap list_fmap list_to_set]. rewrite difference_empty_L. by destruct w.
Qed.

Lemma full_generate_video_fresh_failure toLowerCase o req w msg c w' :
  Full.generate_video toLowerCase o req w
    = Some (Done (Reply 500 (ErrorReply msg (Some (ExecError c)))), w') →
  ∃ calls, log w' = log w ++ calls ++ [EvExec c] ∧ EvExec c ∉ calls.
Proof.
  intros [(? & ? & ? & ? & _ & _ & [=] & _)|(e & [= -> <-] & H)]%full_generate_video_cases.
  destruct H as [(_ & [=] & _)|[(? & _ & _ & [=] & _)|(up & ordered & durs & w1 & _ & _ & Ht & ->)]].
  cbn [log].
  eapply issues_fresh_failure; [apply issues_full_generate_video_try| |exact Ht].
  apply later_plan_NoDup.
Qed.

Lemma generate_video_fresh_failure o req w msg c w' :
  generate_video o req w = (Done (Reply 500 (ErrorReply msg (Some (ExecError c)))), w') →
  ∃ calls, log w' = log w ++ calls ++ [EvExec c] ∧ EvExec c ∉ calls.
Proof.
  destruct (generate_video_cases o req w) as [(body & w2 & -> & _)|(e & w1 & Ht & ->)];
    [done|].
  intros [= <- -> <-]. cbn [log].
  eapply issues_fresh_failure; [apply issues_generate_video_try| |exact Ht].
  apply first_plan_NoDup.
Qed.

(** ** The plan that a run of the later endpoint carries out *)







Lemma count_convert_events p b dir rest :
  (∀ c, p (EvExec c) = b) →
  ∀ i, count p (convert_events dir i rest) = if b then length rest else 0%nat.
Proof.
  intros Hp. unfold convert_events. induction rest as [|f rest IH]; intros i.
  - by destruct b.
  - cbn [imap length]. rewrite count_cons, Hp.
    erewrite imap_ext; [rewrite (IH (S i))|]; [by destruct b|].
    intros k x _. cbn. by rewrite Nat.add_succ_r.
Qed.

Lemma count_timed_clip_events p b tdir cdir width height ds :
  (∀ c, p (EvExec c) = b) →
  ∀ i, count p (timed_clip_events tdir cdir width height i ds)
       = if b then length ds else 0%nat.
Proof.
  intros Hp. unfold timed_clip_events. induction ds as [|d ds IH]; intros i.
  - by destruct b.
  - cbn [imap length]. rewrite count_cons, Hp.
    erewrite imap_ext; [rewrite (IH (S i))|]; [by destruct b|].
    intros k x _. cbn. by rewrite Nat.add_succ_r.
Qed.

(** What the allocator returns, when it returns. *)
Lemma allocation_cases toLowerCase files text analysis orderedFiles imageDurations :
  Full.segmentScriptAndMatchImages toLowerCase files (Some text) analysis
    = Full.Allocated orderedFiles imageDurations →
  orderedFiles ≡ₚ files ∧
  (∀ l, imageDurations = Some l → length l = length orderedFiles) ∧
  match analysis with
  | Unparsable => orderedFiles = files ∧ imageDurations = None
  | Nullish => files = [] ∧ orderedFiles = [] ∧ imageDurations = Some []
  | Analysis _ category_of =>
      let segments := Full.segments toLowerCase files text category_of in
      orderedFiles = segments ≫= Full.images ∧
      imageDurations = Some (segments ≫= Full.segment_timings)
  end.
Proof.
  unfold Full.segmentScriptAndMatchImages. destruct analysis as [| |no_keys category_of].
  - by intros [= <- <-].
  - destruct files; [|done]. intros [= <- <-]. split_and!; try done. by intros l [= <-].
  - destruct (existsb _ _); [done|]. destruct (existsb _ _); [done|].
    intros [= <- <-]. split_and!; try done.
    + apply segments_files.
    + intros l [= <-]. apply timings_length.
Qed.

Lemma full_generate_video_done toLowerCase o req w body w' :
  Full.generate_video toLowerCase o req w = Some (Done (Reply 200 body), w') →
  ∃ uploaded text orderedFiles imageDurations cmd w1,
    let outputDir := path_join (dirname o) (js "output") in
    let tempImageDir := path_join outputDir (js "imgs-" ++ dec (now o)) in
    let clipDir := path_join outputDir (js "clips-" ++ dec (now o)) in
    let videoNoAudioPath := path_join outputDir (js "video-no-audio-" ++ dec (now o) ++ js ".mp4") in
    let estimated := Full.estimated_duration imageDurations (Full.cleanScript text) in
    let read := clip_durations estimated (length orderedFiles) imageDurations in
    files req = Some uploaded ∧ script req = Some text ∧
    Full.segmentScriptAndMatchImages toLowerCase uploaded (Some text) (imageAnalysis req)
      = Full.Allocated orderedFiles imageDurations ∧
    body = TimedVideoReply (js "ad-" ++ dec (now o) ++ js ".mp4") estimated ∧
    length read = length orderedFiles ∧
    log w1 =
      log w ++ EvSpeech (voice_or_alloy (voice req)) (Full.cleanScript text)
        :: convert_events tempImageDir 0 orderedFiles
        ++ timed_clip_events tempImageDir clipDir
             (resolution (aspectRatio req)).1 (resolution (aspectRatio req)).2 0 read
        ++ [EvExec (CreateVideo (path_join outputDir (js "concat-" ++ dec (now o) ++ js ".txt"))
                      videoNoAudioPath)] ∧
    log w' = log w1 ++ [EvExec cmd] ∧
    audio_command o req estimated videoNoAudioPath
      (path_join outputDir (js "voice-" ++ dec (now o) ++ js ".mp3"))
      (path_join outputDir (js "ad-" ++ dec (now o) ++ js ".mp4")) w1 = (Done cmd, w1).
Proof.
  intros [(up & ordered & durs & b & Hf & Ha & [= <-] & Ht)|(e & [=] & _)]%full_generate_video_cases.
  apply full_generate_video_try_done in Ht as (s & cmd & w1 & Hs & [= ->] & Hlen & Hl1 & Hl & Hc).
  rewrite Hs in Ha. exists up, s, ordered, durs, cmd, w1. cbn zeta. by split_and!.
Qed.




Lemma full_generate_voiceover_speech_error o raw v w :
  raw ≠ [] → speech o (count is_speech (log w)) = false →
  Full.generate_voiceover o {| v_script := JString raw; v_voice := v |} w =
  (Done (Reply 500 (ErrorReply "Failed to generate voiceover" (Some SpeechError))),
   {| disk := disk w; log := log w ++ [EvSpeech (voice_or_alloy v) (Full.cleanScript raw)] |}).
Proof.
  intros Hraw Hsp. unfold Full.generate_voiceover, try_catch. cbn [v_script v_voice truthy].
  rewrite bool_decide_false by done. cbn [negb].
  by erewrite bind_thrown by (by rewrite call_speech_run, Hsp).
Qed.

Lemma full_generate_video_speech_error toLowerCase o req uploaded text orderedFiles
    imageDurations w :
  files req = Some uploaded → script req = Some text →
  Full.segmentScriptAndMatchImages toLowerCase uploaded (Some text) (imageAnalysis req)
    = Full.Allocated orderedFiles imageDurations →
  Full.validateTimingSync orderedFiles (imageAnalysis req) w = (Done (), w) →
  speech o (count is_speech (log w)) = false →
  Full.generate_video toLowerCase o req w =
  Some (Done (Reply 500 (ErrorReply "Failed to generate video" (Some SpeechError))),
        {| disk := disk w ∖ list_to_set (path <$> orderedFiles);
           log := log w ++ [EvSpeech (voice_or_alloy (voice req)) (Full.cleanScript text)] |}).
Proof.
  intros Hf Hs Ha Hv Hsp. unfold Full.generate_video. rewrite Hf, Hs, Ha.
  unfold try_catch, Full.generate_video_try.
  erewrite bind_run by exact Hv. rewrite Hs.
  erewrite bind_thrown by (by rewrite call_speech_run, Hsp).
  by rewrite full_generate_video_catch_run.
Qed.

Lemma full_generate_video_halts toLowerCase o req w res w' k :
  Full.generate_video toLowerCase o req w = Some (Done res, w') →
  (∀ c d, (ffmpeg o k c d).1 = false) → (count is_exec (log w) ≤ k)%nat →
  (count is_exec (log w') ≤ S k)%nat ∧
  (count is_exec (log w') = S k →
   ∃ c, res = Reply 500 (ErrorReply "Failed to generate video" (Some (ExecError c)))).
Proof.
  intros Hrun Hfail Hk.
  apply full_generate_video_cases in Hrun
    as [(up & ordered & durs & body & _ & _ & -> & Ht)|(e & -> & H)].
  - destruct (issues_full_generate_video_try o req ordered durs _ _ _ Ht)
      as (made & _ & _ & _ & _ & Hh).
    destruct (Hh k Hfail Hk) as [Hle Hthrown]. split; [done|].
    intros Heq. by destruct (Hthrown Heq).
  - destruct H as [(_ & _ & ->)|[(up & _ & _ & _ & ->)|(up & ordered & durs & w1 & _ & _ & Ht & ->)]];
      cbn [log]; [split; [lia|lia]..|].
    destruct (issues_full_generate_video_try o req ordered durs _ _ _ Ht)
      as (made & _ & _ & _ & _ & Hh).
    destruct (Hh k Hfail Hk) as [Hle Hthrown]. split; [done|].
    intros Heq. destruct (Hthrown Heq) as [c [= ->]]. by exists c.
Qed.

Lemma generate_video_halts o req w res w' k :
  generate_video o req w = (Done res, w') →
  (∀ c d, (ffmpeg o k c d).1 = false) → (count is_exec (log w) ≤ k)%nat →
  (count is_exec (log w') ≤ S k)%nat ∧
  (count is_exec (log w') = S k →
   ∃ c, res = Reply 500 (ErrorReply "Failed to generate video" (Some (ExecError c)))).
Proof.
  intros Hrun Hfail Hk.
  destruct (generate_video_cases o req w) as [(body & w2 & Hg & Ht)|(e & w1 & Ht & Hg)];
    rewrite Hg in Hrun; injection Hrun as <- <-;
    destruct (issues_generate_video_try o req _ _ _ Ht) as (made & _ & _ & _ & _ & Hh);
    destruct (Hh k Hfail Hk) as [Hle Hthrown]; (split; [done|]); intros Heq.
  - by destruct (Hthrown Heq).
  - destruct (Hthrown Heq) as [c [= ->]]. by exists c.
Qed.

Lemma to_double_small p : Z.abs p ≤ 2 ^ 53 → to_double p = p.
Proof. intros H. unfold to_double. cbn zeta. by rewrite (proj2 (Z.leb_le _ _) H). Qed.

Lemma parseInt_dec p : Z.abs p ≤ 2 ^ 53 → parseInt (dec p) = Some p.
Proof.
  intros H. unfold parseInt. rewrite parse_integer_dec. cbn [fmap option_fmap option_map].
  by rewrite to_double_small.
Qed.

(** ** The disk before the audio step of the later endpoint *)

Lemma path_join_nested d sub x : path_join (path_join d sub) x = path_join d (sub ++ js "/" ++ x).
Proof. unfold path_join. by rewrite <- !app_assoc. Qed.

Lemma convert_loop_keeps o dir rest :
  adds_only_output o →
  ∀ i w w', Full.convert_loop o dir i rest w = (Done (), w') →
            ∀ p, p ∈ disk w' → p ∈ disk w ∨ ∃ x, p = path_join dir x.
Proof.
  intros Ho. induction rest as [|f rest IH]; intros i w w'; cbn [Full.convert_loop].
  - intros [= <-]. by left.
  - intros ([] & w1 & H1 & H2)%bind_done p Hp.
    apply (execPromise_disk _ _ _ _ _ Ho) in H1. cbn [output_of] in H1.
    destruct (IH _ _ _ H2 p Hp) as [Hin|?]; [|by right].
    apply H1, elem_of_union in Hin as [->%elem_of_singleton|?]; [right; eauto|by left].
Qed.

Lemma timed_clip_loop_keeps o tempImageDir clipDir width height estimated count durations rest :
  adds_only_output o →
  ∀ i w w',
    Full.clip_loop o tempImageDir clipDir width height estimated count durations i rest w
      = (Done (), w') →
    ∀ p, p ∈ disk w' → p ∈ disk w ∨ ∃ x, p = path_join clipDir x.
Proof.
  intros Ho. induction rest as [|f rest IH]; intros i w w'; cbn [Full.clip_loop].
  - intros [= <-]. by left.
  - destruct (match durations with
              | Some l => l !! i
              | None => Some (estimated / inject_Z (Z.of_nat count))%Q
              end) as [duration|]; [|by intros (? & ? & _ & [=])%bind_done].
    intros ([] & w1 & H1 & H2)%bind_done p Hp.
    apply (execPromise_disk _ _ _ _ _ Ho) in H1. cbn [output_of] in H1.
    destruct (IH _ _ _ H2 p Hp) as [Hin|?]; [|by right].
    apply H1, elem_of_union in Hin as [->%elem_of_singleton|?]; [right; eauto|by left].
Qed.

Lemma remove_directory_keeps dir w w' :
  Full.remove_directory dir w = (Done (), w') → disk w' ⊆ disk w.
Proof.
  unfold Full.remove_directory. case_bool_decide; intros [= <-]. cbn [disk].
  apply subseteq_difference_l. done.
Qed.

Lemma unlinkSync_keeps p w w' : unlinkSync p w = (Done (), w') → disk w' ⊆ disk w.
Proof.
  unfold unlinkSync. case_bool_decide; intros [= <-]. cbn [disk].
  apply subseteq_difference_l. done.
Qed.

(** A file that is on disk when the audio step builds its command, and
    does not lie in the output directory, was there when the request
    came, if the media tool creates nothing but the output of its
    command. *)
Lemma full_generate_video_audio_step toLowerCase o req w body w' :
  Full.generate_video toLowerCase o req w = Some (Done (Reply 200 body), w') →
  ∃ text imageDurations cmd w1,
    let outputDir := path_join (dirname o) (js "output") in
    let estimated := Full.estimated_duration imageDurations (Full.cleanScript text) in
    script req = Some text ∧
    body = TimedVideoReply (js "ad-" ++ dec (now o) ++ js ".mp4") estimated ∧
    log w' = log w1 ++ [EvExec cmd] ∧
    audio_command o req estimated
      (path_join outputDir (js "video-no-audio-" ++ dec (now o) ++ js ".mp4"))
      (path_join outputDir (js "voice-" ++ dec (now o) ++ js ".mp3"))
      (path_join outputDir (js "ad-" ++ dec (now o) ++ js ".mp4")) w1 = (Done cmd, w1) ∧
    (adds_only_output o →
     ∀ p, p ∈ disk w1 → p ∈ disk w ∨ ∃ x, p = path_join outputDir x).
Proof.
  intros [(up & ordered & durs & b & Hf & Ha & [= <-] & H)|(e & [=] & _)]%full_generate_video_cases.
  unfold Full.generate_video_try in H.
  apply bind_done in H as ([] & w0 & H0%validateTimingSync_done & H). subst w0.
  destruct (script req) as [s|]; [|done].
  destruct (resolution (aspectRatio req)) as [width height] eqn:Hres.
  apply bind_done in H as ([] & w1 & H1 & H).
  rewrite call_speech_run in H1.
  destruct (speech o _); [|done]. injection H1 as <-.
  apply bind_done in H as ([] & w2 & [= <-] & H).
  apply bind_done in H as ([] & w3 & H3 & H).
  apply bind_done in H as ([] & w4 & H4 & H).
  apply bind_done in H as ([] & w5 & [= <-] & H).
  apply bind_done in H as ([] & w6 & H6 & H).
  apply bind_done in H as ([] & w7 & H7%remove_directory_keeps & H).
  apply bind_done in H as ([] & w8 & H8%remove_directory_keeps & H).
  apply bind_done in H as ([] & w9 & H9%unlinkSync_keeps & H).
  apply bind_done in H as (cmd & w10 & H10 & H).
  pose proof (audio_command_run _ _ _ _ _ _ _ _ _ H10) as ->.
  apply bind_done in H as ([] & w11 & H11%execPromise_done & H).
  apply bind_done in H as ([] & w12 & H12 & H).
  rewrite unlink_if_exists_run in H12. injection H12 as <-.
  apply bind_done in H as ([] & w13 & H13 & H).
  rewrite unlink_if_exists_run in H13. injection H13 as <-.
  apply bind_done in H as ([] & w14 & H14 & H).
  rewrite forEach_unlink_run in H14. injection H14 as <-.
  apply bind_done in H as (present & w15 & [= <- <-] & H).
  case_bool_decide; [|done]. injection H as <- <-.
  exists s, durs, cmd, w9. cbn zeta. split_and!; try done.
  intros Ho p Hp.
  apply H9, H8, H7 in Hp.
  apply (execPromise_disk _ _ _ _ _ Ho) in H6. cbn [output_of disk] in H6.
  apply H6, elem_of_union in Hp as [->%elem_of_singleton|Hp]; [right; eauto|].
  apply elem_of_union in Hp as [->%elem_of_singleton|Hp]; [right; eauto|].
  destruct (timed_clip_loop_keeps _ _ _ _ _ _ _ _ _ Ho _ _ _ H4 p Hp) as [Hp4|[x ->]];
    [|right; rewrite path_join_nested; eauto].
  destruct (convert_loop_keeps _ _ _ Ho _ _ _ H3 p Hp4) as [Hp3|[x ->]];
    [|right; rewrite path_join_nested; eauto].
  cbn [disk] in Hp3.
  apply elem_of_union in Hp3 as [->%elem_of_singleton|Hp3]; [right; eauto|by left].
Qed.

Lemma music_outside_output d file x :
  path_join (path_join d (js "music")) file ≠ path_join (path_join d (js "output")) x.
Proof.
  unfold path_join. rewrite <- !app_assoc. intros H%app_inv_head%app_inv_head.
  by apply name_differs in H.
Qed.

Lemma starts_with_app sub s : starts_with sub s = true → ∃ rest, s = sub ++ rest.
Proof.
  revert s. induction sub as [|a sub IH]; intros s; [by exists s|].
  destruct s as [|b s]; [done|]. cbn [starts_with].
  intros [->%N.eqb_eq [rest ->]%IH]%andb_prop. by exists rest.
Qed.

Lemma inside_output d sub p :
  Full.inside (path_join d sub) p = true → ∃ x, p = path_join d x.
Proof.
  unfold Full.inside. intros [rest ->]%starts_with_app.
  exists (sub ++ js "/" ++ rest). unfold path_join. by rewrite <- !app_assoc.
Qed.

Lemma execPromise_keeps o cmd w r w' :
  keeps_files o → execPromise o cmd w = (r, w') → disk w ⊆ disk w'.
Proof.
  intros Ho. unfold execPromise. pose proof (Ho (count is_exec (log w)) cmd (disk w)) as H.
  destruct (ffmpeg o _ cmd _) as [[|] d]; by intros [= _ <-].
Qed.

Lemma convert_loop_grows o dir rest :
  keeps_files o →
  ∀ i w w', Full.convert_loop o dir i rest w = (Done (), w') → disk w ⊆ disk w'.
Proof.
  intros Ho. induction rest as [|f rest IH]; intros i w w'; cbn [Full.convert_loop].
  - by intros [= <-].
  - intros ([] & w1 & H1 & H2)%bind_done.
    apply (execPromise_keeps _ _ _ _ _ Ho) in H1. apply IH in H2. by etrans.
Qed.

Lemma timed_clip_loop_grows o tempImageDir clipDir width height estimated count durations rest :
  keeps_files o →
  ∀ i w w',
    Full.clip_loop o tempImageDir clipDir width height estimated count durations i rest w
      = (Done (), w') →
    disk w ⊆ disk w'.
Proof.
  intros Ho. induction rest as [|f rest IH]; intros i w w'; cbn [Full.clip_loop].
  - by intros [= <-].
  - destruct (match durations with
              | Some l => l !! i
              | None => Some (estimated / inject_Z (Z.of_nat count))%Q
              end) as [duration|]; [|by intros (? & ? & _ & [=])%bind_done].
    intros ([] & w1 & H1 & H2)%bind_done.
    apply (execPromise_keeps _ _ _ _ _ Ho) in H1. apply IH in H2. by etrans.
Qed.

Lemma remove_directory_spares d sub w w' p :
  Full.remove_directory (path_join d sub) w = (Done (), w') →
  p ∈ disk w → (∀ x, p ≠ path_join d x) → p ∈ disk w'.
Proof.
  unfold Full.remove_directory. case_bool_decide; intros [= <-] Hp Hout. cbn [disk].
  apply elem_of_difference. split; [done|].
  intros [Hin _]%elem_of_filter. apply inside_output in Hin as [x ->]. by apply (Hout x).
Qed.

Lemma unlinkSync_spares q w w' p :
  unlinkSync q w = (Done (), w') → p ∈ disk w → p ≠ q → p ∈ disk w'.
Proof.
  unfold unlinkSync. case_bool_decide; intros [= <-] Hp Hne. cbn [disk].
  apply elem_of_difference. split; [done|]. by intros ->%elem_of_singleton.
Qed.

(** A file outside the output directory that is on disk when the request
    comes is still there when the audio step builds its command, if the
    media tool removes no file. *)
Lemma full_generate_video_audio_step_keeps toLowerCase o req w body w' :
  Full.generate_video toLowerCase o req w = Some (Done (Reply 200 body), w') →
  ∃ text imageDurations cmd w1,
    let outputDir := path_join (dirname o) (js "output") in
    let estimated := Full.estimated_duration imageDurations (Full.cleanScript text) in
    body = TimedVideoReply (js "ad-" ++ dec (now o) ++ js ".mp4") estimated ∧
    log w' = log w1 ++ [EvExec cmd] ∧
    audio_command o req estimated
      (path_join outputDir (js "video-no-audio-" ++ dec (now o) ++ js ".mp4"))
      (path_join outputDir (js "voice-" ++ dec (now o) ++ js ".mp3"))
      (path_join outputDir (js "ad-" ++ dec (now o) ++ js ".mp4")) w1 = (Done cmd, w1) ∧
    (keeps_files o →
     ∀ p, p ∈ disk w → (∀ x, p ≠ path_join outputDir x) → p ∈ disk w1).
Proof.
  intros [(up & ordered & durs & b & Hf & Ha & [= <-] & H)|(e & [=] & _)]%full_generate_video_cases.
  unfold Full.generate_video_try in H.
  apply bind_done in H as ([] & w0 & H0%validateTimingSync_done & H). subst w0.
  destruct (script req) as [s|]; [|done].
  destruct (resolution (aspectRatio req)) as [width height] eqn:Hres.
  apply bind_done in H as ([] & w1 & H1 & H).
  rewrite call_speech_run in H1.
  destruct (speech o _); [|done]. injection H1 as <-.
  apply bind_done in H as ([] & w2 & [= <-] & H).
  apply bind_done in H as ([] & w3 & H3 & H).
  apply bind_done in H as ([] & w4 & H4 & H).
  apply bind_done in H as ([] & w5 & [= <-] & H).
  apply bind_done in H as ([] & w6 & H6 & H).
  apply bind_done in H as ([] & w7 & H7 & H).
  apply bind_done in H as ([] & w8 & H8 & H).
  apply bind_done in H as ([] & w9 & H9 & H).
  apply bind_done in H as (cmd & w10 & H10 & H).
  pose proof (audio_command_run _ _ _ _ _ _ _ _ _ H10) as ->.
  apply bind_done in H as ([] & w11 & H11%execPromise_done & H).
  apply bind_done in H as ([] & w12 & H12 & H).
  rewrite unlink_if_exists_run in H12. injection H12 as <-.
  apply bind_done in H as ([] & w13 & H13 & H).
  rewrite unlink_if_exists_run in H13. injection H13 as <-.
  apply bind_done in H as ([] & w14 & H14 & H).
  rewrite forEach_unlink_run in H14. injection H14 as <-.
  apply bind_done in H as (present & w15 & [= <- <-] & H).
  case_bool_decide; [|done]. injection H as <- <-.
  exists s, durs, cmd, w9. cbn zeta. split_and!; try done.
  intros Ho p Hp Hout.
  eapply unlinkSync_spares; [exact H9| |apply Hout].
  eapply remove_directory_spares; [exact H8| |exact Hout].
  eapply remove_directory_spares; [exact H7| |exact Hout].
  apply (execPromise_keeps _ _ _ _ _ Ho H6). cbn [disk]. apply elem_of_union_r.
  apply (timed_clip_loop_grows _ _ _ _ _ _ _ _ _ Ho _ _ _ H4).
  apply (convert_loop_grows _ _ _ Ho _ _ _ H3). cbn [disk]. by apply elem_of_union_r.
Qed.

(** * The claims *)

(** C1: a run of the video endpoint that fails while the clips are built
    does not leave the disk clean.  With two uploads and a media tool that
    fails on the second clip, the handler answers 500 and removes the two
    uploads, but the voiceover file and the first clip, both written by
    this run, are still there: the [catch] block unlinks the uploads only. *)
Theorem clip_failure_leaves_files :
  (∃ cmd, (generate_video second_call_fails kitchen_first after_upload).1
          = Done (Reply 500 (ErrorReply "Failed to generate video" (Some (ExecError cmd))))) ∧
  disk (generate_video second_call_fails kitchen_first after_upload).2 =
    {[ js "/srv/adforge/backend/output/voice-1700000000000.mp3";
       js "/srv/adforge/backend/output/clip-1700000000000-0.mp4" ]}.
Proof.
  split.
  - eexists. vm_compute. reflexivity.
  - apply (bool_decide_unpack _). by vm_compute.
Qed.

(** C2, as the code has it: the sanitizer of the later revision leaves no
    bracketed span and no parenthetical in a script whose spans close
    within reach: every opening bracket that has a closing bracket after
    it has one before the end of its line, and every opening parenthesis
    that has a closing one after it has one before the end of its line
    and before the next opening bracket.  In the output of such a script
    no opening bracket is followed by a closing one, and no opening
    parenthesis by a closing one; so the output contains no "[X]" and no
    "(Y)", whatever X and Y are. *)
Theorem cleanScript_bracket_spans (s X Y : jsstring) :
  closed_in_reach Cu.lbracket Cu.rbracket is_line_terminator s →
  closed_in_reach Cu.lparen Cu.rparen ends_reach s →
  no_pair Cu.lbracket Cu.rbracket (Full.cleanScript s) ∧
  no_pair Cu.lparen Cu.rparen (Full.cleanScript s) ∧
  includes (Full.cleanScript s) (Cu.lbracket :: X ++ [Cu.rbracket]) = false ∧
  includes (Full.cleanScript s) (Cu.lparen :: Y ++ [Cu.rparen]) = false.
Proof.
  intros Hb Hp.
  destruct (cleanScript_full_no_pairs s Hb Hp) as [Nb Np].
  repeat split; [done|done|by apply no_pair_includes..].
Qed.

Lemma cleanScript_bracket_spans_witness :
  let s := js "[Scene 1] Welcome (softly) home. [Cut to kitchen] It is (finally) yours." in
  closed_in_reach Cu.lbracket Cu.rbracket is_line_terminator s ∧
  closed_in_reach Cu.lparen Cu.rparen ends_reach s ∧
  Full.cleanScript s = js "Welcome  home.  It is  yours." ∧
  includes (Full.cleanScript s) (js "[Scene 1]") = false ∧
  includes (Full.cleanScript s) (js "(softly)") = false.
Proof.
  intros s.
  assert (Hb : closed_in_reach Cu.lbracket Cu.rbracket is_line_terminator s)
    by (apply closed_in_reachb_spec; vm_compute; reflexivity).
  assert (Hp : closed_in_reach Cu.lparen Cu.rparen ends_reach s)
    by (apply closed_in_reachb_spec; vm_compute; reflexivity).
  split; [exact Hb|]. split; [exact Hp|]. split; [vm_compute; reflexivity|].
  split.
  - exact (proj1 (proj2 (proj2 (cleanScript_bracket_spans s (js "Scene 1") [] Hb Hp)))).
  - exact (proj2 (proj2 (proj2 (cleanScript_bracket_spans s [] (js "softly") Hb Hp)))).
Defined.

(** C2 as stated fails: [.] matches no line terminator, so a span that
    closes on a later line is not removed; and the step that trims the
    lines deletes the line terminators between them, which can join such
    a span.  Of "[a][a", a blank line and "]" the first span is removed,
    and the output is "[a]"; the same holds with parentheses; and a
    parenthetical that runs over a line break is returned as it came. *)
Lemma cleanScript_joins_a_span :
  let bracketed := js "[a][a" ++ [10; 10]%N ++ js "]" in
  let parenthesised := js "(a)(a" ++ [10; 10]%N ++ js ")" in
  let broken := js "Tour (see" ++ [10]%N ++ js "below) now" in
  Full.cleanScript bracketed = js "[a]" ∧
  includes bracketed (js "[a]") = true ∧
  includes (Full.cleanScript bracketed) (js "[a]") = true ∧
  Full.cleanScript parenthesised = js "(a)" ∧
  includes parenthesised (js "(a)") = true ∧
  includes (Full.cleanScript parenthesised) (js "(a)") = true ∧
  Full.cleanScript broken = broken.
Proof. by vm_compute. Qed.










(** C6, as the code has it: the sanitizer of the later revision is a
    function of its input that only deletes code units: its output is a
    subsequence of the input, and it is either the input itself or
    shorter.  A second pass can delete more; passes repeated on a script
    reach a text that the sanitizer returns unchanged after as many
    passes as the script has code units, at most. *)
Theorem cleanScript_passes_settle (s : jsstring) :
  sublist (Full.cleanScript s) s ∧
  (Full.cleanScript s = s ∨ (length (Full.cleanScript s) < length s)%nat) ∧
  ∃ n, (n ≤ length s)%nat ∧
       Full.cleanScript (Nat.iter n Full.cleanScript s) = Nat.iter n Full.cleanScript s.
Proof.
  split; [apply cleanScript_full_sublist|]. split.
  - pose proof (cleanScript_full_sublist s) as Hsub.
    pose proof (sublist_length _ _ Hsub) as Hlen.
    destruct (decide (length (Full.cleanScript s) = length s)) as [E|NE]; [left|right; lia].
    by apply sublist_same_length.
  - apply (iter_fixed_point Full.cleanScript cleanScript_full_sublist).
Qed.

(** C6 as stated fails: the bold markers are removed before the
    parentheticals.  Of "*(x)*" the first pass removes "(x)" and returns
    "**", which the second pass removes. *)
Lemma cleanScript_second_pass_differs :
  Full.cleanScript (js "*(x)*") = js "**" ∧
  Full.cleanScript (Full.cleanScript (js "*(x)*")) = [] ∧
  Full.cleanScript (Full.cleanScript (js "*(x)*")) ≠ Full.cleanScript (js "*(x)*").
Proof. by vm_compute. Qed.




(** C8, as the code has it: the vision endpoint calls the vision service at
    most three times, waiting 1 s after the first failure and 2 s after
    the second; a third failure is followed by no wait, the request
    failing at once.  No other stage is tried again: a drafting failure
    and a speech failure end their request after that single call, in
    both revisions; a video request that fails on a media-tool command
    ends with the call of that command, which it had not made before;
    and when the media tool fails a call, the request makes no call after
    it and answers with the error of that call. *)
Theorem vision_is_the_only_retried_stage (toLowerCase : jsstring → jsstring) (o : oracle)
    (req : analyze_request) (f : upload_file) (category : jsstring) (w : world) :
  a_file req = Some f → a_category req = Some category → path f ∈ disk w →
  let n := count is_vision (log w) in
  let trail := log w ++ [EvVision; EvSleep 1000; EvVision; EvSleep 2000; EvVision] in
  let run := analyze_image o req w in
  match vision o n, vision o (S n), vision o (S (S n)) with
  | Some t, _, _ =>
      run.1 = Done (Reply 200 (AnalysisReply t category)) ∧ log run.2 = log w ++ [EvVision]
  | None, Some t, _ =>
      run.1 = Done (Reply 200 (AnalysisReply t category)) ∧
      log run.2 = log w ++ [EvVision; EvSleep 1000; EvVision]
  | None, None, Some t =>
      run.1 = Done (Reply 200 (AnalysisReply t category)) ∧ log run.2 = trail
  | None, None, None =>
      run.1 = Done (Reply 500 (ErrorReply "Failed to analyze image" (Some VisionError))) ∧
      log run.2 = trail
  end ∧
  (∀ sreq entries w0,
     truthy (s_userScript sreq) = false → s_imageAnalysis sreq = Some entries →
     draft o (count is_draft (log w0)) = None →
     ∃ analysisText,
       generate_script o sreq w0 =
       (Done (Reply 500 (ErrorReply "Failed to generate script" (Some DraftError))),
        {| disk := disk w0; log := log w0 ++ [EvDraft analysisText] |})) ∧
  (∀ raw v w0,
     raw ≠ [] → speech o (count is_speech (log w0)) = false →
     generate_voiceover o {| v_script := JString raw; v_voice := v |} w0 =
     (Done (Reply 500 (ErrorReply "Failed to generate voiceover" (Some SpeechError))),
      {| disk := disk w0; log := log w0 ++ [EvSpeech (voice_or_alloy v) (cleanScript raw)] |})) ∧
  (∀ vreq uploaded text w0,
     files vreq = Some uploaded → script vreq = Some text →
     speech o (count is_speech (log w0)) = false →
     generate_video o vreq w0 =
     (Done (Reply 500 (ErrorReply "Failed to generate video" (Some SpeechError))),
      {| disk := disk w0 ∖ list_to_set (path <$> uploaded);
         log := log w0 ++ [EvSpeech (voice_or_alloy (voice vreq)) (cleanScript text)] |})) ∧
  (∀ raw v w0,
     raw ≠ [] → speech o (count is_speech (log w0)) = false →
     Full.generate_voiceover o {| v_script := JString raw; v_voice := v |} w0 =
     (Done (Reply 500 (ErrorReply "Failed to generate voiceover" (Some SpeechError))),
      {| disk := disk w0;
         log := log w0 ++ [EvSpeech (voice_or_alloy v) (Full.cleanScript raw)] |})) ∧
  (∀ vreq uploaded text orderedFiles imageDurations w0,
     files vreq = Some uploaded → script vreq = Some text →
     Full.segmentScriptAndMatchImages toLowerCase uploaded (Some text) (imageAnalysis vreq)
       = Full.Allocated orderedFiles imageDurations →
     Full.validateTimingSync orderedFiles (imageAnalysis vreq) w0 = (Done (), w0) →
     speech o (count is_speech (log w0)) = false →
     Full.generate_video toLowerCase o vreq w0 =
     Some (Done (Reply 500 (ErrorReply "Failed to generate video" (Some SpeechError))),
           {| disk := disk w0 ∖ list_to_set (path <$> orderedFiles);
              log := log w0
                     ++ [EvSpeech (voice_or_alloy (voice vreq)) (Full.cleanScript text)] |})) ∧
  (∀ vreq w0 msg cmd w1,
     generate_video o vreq w0 = (Done (Reply 500 (ErrorReply msg (Some (ExecError cmd)))), w1) →
     ∃ calls, log w1 = log w0 ++ calls ++ [EvExec cmd] ∧ EvExec cmd ∉ calls) ∧
  (∀ vreq w0 msg cmd w1,
     Full.generate_video toLowerCase o vreq w0
       = Some (Done (Reply 500 (ErrorReply msg (Some (ExecError cmd)))), w1) →
     ∃ calls, log w1 = log w0 ++ calls ++ [EvExec cmd] ∧ EvExec cmd ∉ calls) ∧
  (∀ vreq w0 res w1 k,
     generate_video o vreq w0 = (Done res, w1) →
     (∀ c d, (ffmpeg o k c d).1 = false) → (count is_exec (log w0) ≤ k)%nat →
     (count is_exec (log w1) ≤ S k)%nat ∧
     (count is_exec (log w1) = S k →
      ∃ c, res = Reply 500 (ErrorReply "Failed to generate video" (Some (ExecError c))))) ∧
  (∀ vreq w0 res w1 k,
     Full.generate_video toLowerCase o vreq w0 = Some (Done res, w1) →
     (∀ c d, (ffmpeg o k c d).1 = false) → (count is_exec (log w0) ≤ k)%nat →
     (count is_exec (log w1) ≤ S k)%nat ∧
     (count is_exec (log w1) = S k →
      ∃ c, res = Reply 500 (ErrorReply "Failed to generate video" (Some (ExecError c))))).
Proof.
  intros Hf Hc Hd n trail run. split_and!.
  - subst run. rewrite (analyze_image_run o req f category w Hf Hc Hd). fold n.
    by destruct (vision o n), (vision o (S n)), (vision o (S (S n))).
  - apply generate_script_draft_error.
  - apply generate_voiceover_speech_error.
  - apply generate_video_speech_error.
  - apply full_generate_voiceover_speech_error.
  - apply full_generate_video_speech_error.
  - apply generate_video_fresh_failure.
  - apply full_generate_video_fresh_failure.
  - apply generate_video_halts.
  - apply full_generate_video_halts.
Qed.

Lemma vision_is_the_only_retried_stage_witness :
  a_file kitchen_analysis = Some (stored_as "kitchen.jpg") ∧
  a_category kitchen_analysis = Some (js "kitchen") ∧
  path (stored_as "kitchen.jpg") ∈ disk after_upload ∧
  (analyze_image vision_down kitchen_analysis after_upload).1
    = Done (Reply 500 (ErrorReply "Failed to analyze image" (Some VisionError))) ∧
  log (analyze_image vision_down kitchen_analysis after_upload).2
    = [EvVision; EvSleep 1000; EvVision; EvSleep 2000; EvVision].
Proof.
  assert (H1 : a_file kitchen_analysis = Some (stored_as "kitchen.jpg")) by reflexivity.
  assert (H2 : a_category kitchen_analysis = Some (js "kitchen")) by reflexivity.
  assert (H3 : path (stored_as "kitchen.jpg") ∈ disk after_upload)
    by (apply (bool_decide_unpack _); by vm_compute).
  split_and!; [exact H1|exact H2|exact H3|..];
    apply (proj1 (vision_is_the_only_retried_stage lower_ascii_text vision_down kitchen_analysis
                    (stored_as "kitchen.jpg") (js "kitchen") after_upload H1 H2 H3)).
Defined.

(** C8 as stated fails: when the vision service rejects all three calls,
    the endpoint waits 1 s and 2 s, and no third wait of 3 s takes place
    before it answers 500. *)
Lemma vision_backoff_has_two_waits :
  (analyze_image vision_down kitchen_analysis after_upload).1
    = Done (Reply 500 (ErrorReply "Failed to analyze image" (Some VisionError))) ∧
  count is_vision (log (analyze_image vision_down kitchen_analysis after_upload).2) = 3%nat ∧
  sleeps (log (analyze_image vision_down kitchen_analysis after_upload).2) = [1000; 2000] ∧
  sleeps (log (analyze_image vision_down kitchen_analysis after_upload).2) ≠ [1000; 2000; 3000].
Proof. by vm_compute. Qed.

(** C9: when a music other than "none" is selected and its file is on
    disk, the audio step issues the mixing command, in which the music
    stream is scaled by [(parseInt(musicVolume) || 15) / 100] and the
    voiceover by the literal 1.0.  For every integer percentage other than
    0 of up to fifteen digits, hence for every one of the slider (5 to
    50), the factor is that percentage over 100, so 50 gives 0.5; a volume
    that is absent or does not parse gives 0.15.  Whenever a successful
    run of the later endpoint ends with a mix, the mix has this factor;
    and a successful run does end with that mix when the music file is on
    disk as the request comes and the media tool removes no file. *)
Theorem music_gain_is_percent_over_100 (toLowerCase : jsstring → jsstring) (o : oracle)
    (req : video_request) (estimated : Q) (video voiceover final : jsstring) (w : world)
    (m file : jsstring) :
  music req = Some m → music_requested (Some m) = true → musicFile m = Some file →
  path_join (path_join (dirname o) (js "music")) file ∈ disk w →
  let gain := volumeDecimal (musicVolume req) in
  let musicPath := path_join (path_join (dirname o) (js "music")) file in
  let cmd := MixMusic video musicPath voiceover gain (estimated - 3)%Q final in
  audio_command o req estimated video voiceover final w = (Done cmd, w) ∧
  render cmd
  = [Lit "ffmpeg -i "; DQ; Str video; DQ; Lit " -stream_loop -1 -i "; DQ; Str musicPath; DQ;
     Lit " -i "; DQ; Str voiceover; DQ; Lit " -filter_complex "; DQ;
     Lit "[1:a]volume="; Num gain; Lit ",afade=t=out:st="; Num (estimated - 3)%Q;
     Lit ":d=3[music];[2:a]volume=1.0[voice];[music][voice]amix=inputs=2:duration=shortest:dropout_transition=2[aout]";
     DQ; Lit " -map 0:v -map "; DQ; Lit "[aout]"; DQ; Lit " -c:v copy -c:a aac -shortest ";
     DQ; Str final; DQ] ∧
  (∀ p, p ≠ 0 → Z.abs p < 10 ^ 15 → musicVolume req = Some (dec p) →
        (gain == inject_Z p / 100)%Q) ∧
  (∀ mv p, musicVolume req = Some mv → parseInt mv = Some p → p ≠ 0 → Z.abs p < 10 ^ 15 →
           (gain == inject_Z p / 100)%Q) ∧
  (∀ p, 5 ≤ p ≤ 50 → musicVolume req = Some (dec p) → (gain == inject_Z p / 100)%Q) ∧
  (musicVolume req = Some (js "50") → (gain == 1 # 2)%Q) ∧
  (musicVolume req = None → (gain == 15 # 100)%Q) ∧
  (∀ mv, musicVolume req = Some mv → parseInt mv = None → (gain == 15 # 100)%Q) ∧
  (∀ w0 body w' v track a fade f factor,
     Full.generate_video toLowerCase o req w0 = Some (Done (Reply 200 body), w') →
     last (log w') = Some (EvExec (MixMusic v track a factor fade f)) →
     factor = gain) ∧
  (∀ w0 body w',
     keeps_files o → musicPath ∈ disk w0 →
     Full.generate_video toLowerCase o req w0 = Some (Done (Reply 200 body), w') →
     ∃ duration,
       let outputDir := path_join (dirname o) (js "output") in
       body = TimedVideoReply (js "ad-" ++ dec (now o) ++ js ".mp4") duration ∧
       last (log w')
       = Some (EvExec (MixMusic
                         (path_join outputDir (js "video-no-audio-" ++ dec (now o) ++ js ".mp4"))
                         musicPath
                         (path_join outputDir (js "voice-" ++ dec (now o) ++ js ".mp3"))
                         gain (duration - 3)%Q
                         (path_join outputDir (js "ad-" ++ dec (now o) ++ js ".mp4"))))).
Proof.
  intros Hm Hreq Hfile Hdisk gain musicPath cmd.
  assert (Hdec : ∀ p, p ≠ 0 → Z.abs p < 10 ^ 15 → musicVolume req = Some (dec p) →
                      (gain == inject_Z p / 100)%Q).
  { intros p Hp Hb Hv. unfold gain, volumeDecimal. rewrite Hv. cbn [mbind option_bind].
    rewrite parseInt_dec by lia. by apply Z.eqb_neq in Hp as ->. }
  assert (Hmix : ∀ e v a f w1,
            musicPath ∈ disk w1 →
            audio_command o req e v a f w1
            = (Done (MixMusic v musicPath a gain (e - 3)%Q f), w1)).
  { intros e v a f w1 Hin. unfold audio_command. rewrite Hm, Hreq. cbn [default id].
    rewrite Hfile. unfold bind, existsSync, ret. by rewrite bool_decide_true. }
  split_and!.
  - by apply Hmix.
  - done.
  - exact Hdec.
  - intros mv p Hv Hparse Hp _. unfold gain, volumeDecimal. rewrite Hv. cbn [mbind option_bind].
    rewrite Hparse. by apply Z.eqb_neq in Hp as ->.
  - intros p Hp. apply Hdec; lia.
  - intros Hv. unfold gain. rewrite Hv. by vm_compute.
  - intros Hv. unfold gain. rewrite Hv. by vm_compute.
  - intros mv Hv Hnan. unfold gain, volumeDecimal. rewrite Hv. cbn [mbind option_bind].
    rewrite Hnan. by vm_compute.
  - intros w0 body w' v track a fade f factor Hrun Hlast.
    apply full_generate_video_done in Hrun
      as (up & text & ordered & durs & c & w1 & _ & _ & _ & _ & _ & _ & Hl & Hc).
    cbn zeta in *. rewrite Hl, last_snoc in Hlast. injection Hlast as ->.
    by apply audio_command_cases in Hc as [[=]|(? & _ & _ & _ & [= _ _ _ -> _ _])].
  - intros w0 body w' Ho Hin Hrun.
    apply full_generate_video_audio_step_keeps in Hrun
      as (text & durs & c & w1 & -> & Hl & Hc & Hkeeps).
    cbn zeta in *. eexists. split; [done|].
    rewrite Hmix in Hc.
    + injection Hc as <-. by rewrite Hl, last_snoc.
    + apply (Hkeeps Ho); [done|]. intros x. apply music_outside_output.
Qed.

Lemma music_gain_is_percent_over_100_witness :
  music loud_request = Some (js "upbeat") ∧ music_requested (Some (js "upbeat")) = true ∧
  musicFile (js "upbeat") = Some (js "upbeat.mp3") ∧
  path_join (path_join (dirname obliging) (js "music")) (js "upbeat.mp3") ∈ disk with_music ∧
  audio_command obliging loud_request 10 (js "silent.mp4") (js "voice.mp3") (js "ad.mp4")
    with_music
    = (Done (MixMusic (js "silent.mp4") (js "/srv/adforge/backend/music/upbeat.mp3")
               (js "voice.mp3") (volumeDecimal (Some (js "50"))) (10 - 3)%Q (js "ad.mp4")),
       with_music) ∧
  (volumeDecimal (Some (js "50")) == 1 # 2)%Q ∧
  ∃ duration,
    last (log (default with_music
                 (snd <$> Full.generate_video lower_ascii_text obliging loud_request with_music)))
    = Some (EvExec (MixMusic
                      (js "/srv/adforge/backend/output/video-no-audio-1700000000000.mp4")
                      (js "/srv/adforge/backend/music/upbeat.mp3")
                      (js "/srv/adforge/backend/output/voice-1700000000000.mp3")
                      (volumeDecimal (Some (js "50"))) (duration - 3)%Q
                      (js "/srv/adforge/backend/output/ad-1700000000000.mp4"))).
Proof.
  assert (H1 : music loud_request = Some (js "upbeat")) by reflexivity.
  assert (H2 : music_requested (Some (js "upbeat")) = true) by reflexivity.
  assert (H3 : musicFile (js "upbeat") = Some (js "upbeat.mp3")) by reflexivity.
  assert (H4 : path_join (path_join (dirname obliging) (js "music")) (js "upbeat.mp3")
               ∈ disk with_music) by (apply (bool_decide_unpack _); by vm_compute).
  pose proof (music_gain_is_percent_over_100 lower_ascii_text obliging loud_request 10
                (js "silent.mp4") (js "voice.mp3")
                (js "ad.mp4") with_music (js "upbeat") (js "upbeat.mp3") H1 H2 H3 H4) as T.
  assert (Ho : keeps_files obliging) by (intros k c d; apply union_subseteq_r).
  assert (Hrun : Full.generate_video lower_ascii_text obliging loud_request with_music
                 = Some (Done (Reply 200 (TimedVideoReply (js "ad-1700000000000.mp4") 3)),
                         default with_music
                           (snd <$> Full.generate_video lower_ascii_text obliging loud_request
                                      with_music)))
    by (vm_compute; reflexivity).
  split_and!; [exact H1|exact H2|exact H3|exact H4|exact (proj1 T)| |].
  - exact (proj1 (proj2 (proj2 (proj2 (proj2 (proj2 T))))) eq_refl).
  - destruct (proj2 (proj2 (proj2 (proj2 (proj2 (proj2 (proj2 (proj2 (proj2 T))))))))
                _ _ _ Ho H4 Hrun) as (duration & _ & Hlast).
    exists duration. exact Hlast.
Defined.

(** C10: a request to the script endpoint whose [userScript] is a string
    that is not empty after trimming is answered with that very string,
    and nothing is called: the world, and with it the log of calls, is
    unchanged.  Conversely a run that did call a service had a
    [userScript] that was absent (or otherwise falsy) or blank. *)
Theorem user_script_passthrough (o : oracle) (req : script_request) (text : jsstring)
    (w : world) :
  s_userScript req = JString text → trim text ≠ [] →
  generate_script o req w = (Done (Reply 200 (ScriptReply (JString text))), w) ∧
  (∀ req' w0 r w1,
     generate_script o req' w0 = (r, w1) → log w1 ≠ log w0 →
     truthy (s_userScript req') = false ∨
     ∃ t, s_userScript req' = JString t ∧ trim t = []).
Proof.
  assert (Hpass : ∀ rq t w0,
    s_userScript rq = JString t → trim t ≠ [] →
    generate_script o rq w0 = (Done (Reply 200 (ScriptReply (JString t))), w0)).
  { intros rq t w0 Hu Ht. assert (Hne : t ≠ []) by (by intros ->).
    unfold generate_script, try_catch. rewrite Hu. cbn [truthy trim_method].
    rewrite (bool_decide_false (t = [])) by done. cbn [negb].
    unfold bind, ret. by rewrite bool_decide_false. }
  intros Hu Ht. split; [by apply Hpass|].
  intros req' w0 r w1 Hrun Hlog.
  destruct (truthy (s_userScript req')) eqn:Htr; [right|by left].
  destruct (s_userScript req') as [| |b|q|t|] eqn:Hu'; try done.
  - exfalso. revert Hrun. unfold generate_script, try_catch. rewrite Hu', Htr.
    cbn. by intros [= _ <-].
  - exfalso. revert Hrun. unfold generate_script, try_catch. rewrite Hu', Htr.
    cbn. by intros [= _ <-].
  - exists t. split; [done|]. destruct (decide (trim t = [])) as [|Hne]; [done|].
    exfalso. rewrite (Hpass req' t w0 Hu' Hne) in Hrun. by injection Hrun as _ <-.
  - exfalso. revert Hrun. unfold generate_script, try_catch. rewrite Hu'.
    cbn. by intros [= _ <-].
Qed.

Lemma user_script_passthrough_witness :
  s_userScript own_script_request = JString (js "  Welcome home.  ") ∧
  trim (js "  Welcome home.  ") ≠ [] ∧
  generate_script vision_down own_script_request after_upload
    = (Done (Reply 200 (ScriptReply (JString (js "  Welcome home.  ")))), after_upload).
Proof.
  assert (H1 : s_userScript own_script_request = JString (js "  Welcome home.  "))
    by reflexivity.
  assert (H2 : trim (js "  Welcome home.  ") ≠ []) by (by vm_compute).
  split; [exact H1|]. split; [exact H2|].
  exact (proj1 (user_script_passthrough vision_down own_script_request
                  (js "  Welcome home.  ") after_upload H1 H2)).
Defined.

(** * Further properties *)

(** X1: [cleanScript] only deletes: its output is the input with some code
    units left out, in the same order, so it is never longer than the
    input (the two lengths that the function logs). *)
Theorem cleanScript_only_deletes (s : jsstring) :
  sublist (cleanScript s) s ∧ (length (cleanScript s) ≤ length s)%nat.
Proof.
  pose proof (cleanScript_sublist s) as H.
  split; [done|]. by apply sublist_length.
Qed.

(** X2: whatever the input, neither the first nor the last code unit of
    the output of [cleanScript] is white space, in both revisions.  In the
    first revision the output also holds no bold marker [**] and no run
    of three line feeds.  The later revision removes the parentheticals
    after the bold markers, and its output can hold a bold marker. *)
Theorem cleanScript_output_is_clean (s : jsstring) :
  (includes (cleanScript s) [Cu.star; Cu.star] = false ∧
   includes (cleanScript s) [Cu.newline; Cu.newline; Cu.newline] = false ∧
   starts_clean (cleanScript s) = true ∧
   starts_clean (reverse (cleanScript s)) = true) ∧
  (starts_clean (Full.cleanScript s) = true ∧
   starts_clean (reverse (Full.cleanScript s)) = true ∧
   includes (Full.cleanScript (js "*(x)*")) [Cu.star; Cu.star] = true).
Proof.
  destruct (cleanScript_shape s) as (_ & Hb & Ht). split; split_and!.
  - by apply no_bold_includes.
  - by apply no_triple_includes.
  - apply trim_ends_clean.
  - apply trim_ends_clean.
  - apply trim_ends_clean.
  - apply trim_ends_clean.
  - by vm_compute.
Qed.

(** X4: [extractFeatures] returns the first five keywords of its table, in
    the order of the table, that occur in the lower-cased text: at most
    five tags, none twice, each one a keyword found in the text. *)
Theorem extractFeatures_first_five (toLowerCase : jsstring → jsstring) (text : jsstring) :
  let found := extractFeatures toLowerCase text in
  found = take 5 (filter (λ k, includes (toLowerCase text) k = true) feature_keywords) ∧
  (length found ≤ 5)%nat ∧
  NoDup found ∧
  sublist found feature_keywords ∧
  (∀ k, k ∈ found → includes (toLowerCase text) k = true).
Proof.
  intros found.
  assert (E : found
              = take 5 (filter (λ k, includes (toLowerCase text) k = true) feature_keywords)).
  { subst found. unfold extractFeatures.
    by rewrite (found_fold (includes (toLowerCase text)) feature_keywords [])
      by apply feature_keywords_NoDup. }
  assert (Hsub : sublist found
                   (filter (λ k, includes (toLowerCase text) k = true) feature_keywords))
    by (rewrite E; apply sublist_take).
  split_and!.
  - exact E.
  - rewrite E, length_take. lia.
  - eapply sublist_NoDup; [|exact Hsub]. apply NoDup_filter, feature_keywords_NoDup.
  - etrans; [exact Hsub|]. apply sublist_filter.
  - intros k Hk. pose proof (elem_of_sublist _ _ _ Hk Hsub) as Hin.
    by apply list_elem_of_filter in Hin as [? _].
Qed.

(** X5: the vision endpoint answers every request with status 200 or 500,
    and on every path the uploaded image is gone from the disk afterwards
    while no other file is touched.  It calls the vision service at most
    three times and nothing else. *)
Theorem analyze_image_always_cleans_up (o : oracle) (req : analyze_request) (w : world) :
  ∃ status body w' calls,
    analyze_image o req w = (Done (Reply status body), w') ∧
    (status = 200 ∨ status = 500) ∧
    disk w' = disk w ∖ (if a_file req is Some f then {[path f]} else ∅) ∧
    log w' = log w ++ calls ∧
    (count is_vision calls ≤ 3)%nat ∧
    Forall (λ e, e = EvVision ∨ ∃ ms, e = EvSleep ms) calls.
Proof.
  destruct (a_file req) as [f|] eqn:Hf.
  - destruct (decide (path f ∈ disk w)) as [Hd|Hd].
    + destruct (a_category req) as [category|] eqn:Hc.
      * pose proof (analyze_image_run o req f category w Hf Hc Hd) as Hrun.
        cbv zeta in Hrun. rewrite Hrun.
        destruct (vision o _) as [t|]; [|destruct (vision o _) as [t|];
          [|destruct (vision o _) as [t|]]];
          eexists _, _, _, _; (split; [reflexivity|]);
          (split_and!; [auto|done|done|vm_compute; lia|
             repeat (apply Forall_cons_2; [first [by left|right; by eexists]|]);
             apply Forall_nil_2]).
      * rewrite (analyze_image_no_category o req f w Hf Hd Hc).
        eexists _, _, _, []. split; [reflexivity|].
        split_and!; [auto|done|by rewrite app_nil_r|vm_compute; lia|constructor].
    + rewrite (analyze_image_not_stored o req f w Hf Hd).
      eexists _, _, _, []. split; [reflexivity|].
      split_and!; [auto| |by rewrite app_nil_r|vm_compute; lia|constructor].
      by rewrite difference_disjoint_L by (by apply disjoint_singleton_r).
  - rewrite (analyze_image_no_file o req w Hf).
    eexists _, _, _, []. split; [reflexivity|].
    split_and!; [auto|by rewrite difference_empty_L|by rewrite app_nil_r|vm_compute; lia|constructor].
Qed.

(** X6: the vision endpoint rejects a request without a file, a request
    whose stored file is not on disk, and a request without a category
    with status 500 before any call to the vision service; in the first
    two cases the world is left as it was, in the third only the upload is
    removed. *)
Theorem analyze_image_early_rejections (o : oracle) (req : analyze_request) (w : world) :
  (a_file req = None →
   analyze_image o req w
   = (Done (Reply 500 (ErrorReply "Failed to analyze image" (Some NoFileUploaded))), w)) ∧
  (∀ f, a_file req = Some f → path f ∉ disk w →
        analyze_image o req w
        = (Done (Reply 500 (ErrorReply "Failed to analyze image" (Some UploadedFileNotFound))),
           w)) ∧
  (∀ f, a_file req = Some f → path f ∈ disk w → a_category req = None →
        analyze_image o req w
        = (Done (Reply 500 (ErrorReply "Failed to analyze image" (Some TypeError))),
           {| disk := disk w ∖ {[path f]}; log := log w |})).
Proof.
  split_and!.
  - apply analyze_image_no_file.
  - intros f. apply analyze_image_not_stored.
  - intros f. apply analyze_image_no_category.
Qed.

(** X7: the voiceover endpoint has three outcomes.  A missing or empty
    script is refused with 400 and nothing happens.  A failure answers 500
    and leaves the disk as it was, after at most one speech call.  A
    success answers 200 after exactly one speech call, on the sanitized
    script, and the only change on disk is the new file
    output/voiceover-<timestamp>.mp3. *)
Theorem generate_voiceover_outcomes (o : oracle) (req : voiceover_request) (w : world) :
  ∃ status body w',
    generate_voiceover o req w = (Done (Reply status body), w') ∧
    ((status = 400 ∧ truthy (v_script req) = false ∧ w' = w) ∨
     (status = 500 ∧ disk w' = disk w ∧
      (log w' = log w ∨ ∃ voice input, log w' = log w ++ [EvSpeech voice input])) ∨
     (status = 200 ∧
      ∃ raw, v_script req = JString raw ∧
             body = VoiceoverReply (js "voiceover-" ++ dec (now o) ++ js ".mp3")
                      (ceil_div15 (str_length raw)) ∧
             disk w' = {[ path_join (path_join (dirname o) (js "output"))
                            (js "voiceover-" ++ dec (now o) ++ js ".mp3") ]} ∪ disk w ∧
             log w' = log w ++ [EvSpeech (voice_or_alloy (v_voice req)) (cleanScript raw)])).
Proof.
  destruct (truthy (v_script req)) eqn:Ht.
  - destruct req as [sc v]. cbn [v_script v_voice] in *.
    destruct sc as [| |b|q|raw|] eqn:Hs;
      try (eexists _, _, _; split;
           [by apply generate_voiceover_not_a_string|right; left; auto]).
    assert (Hraw : raw ≠ []) by (intros ->; done).
    destruct (speech o (count is_speech (log w))) eqn:Hsp.
    + eexists _, _, _. split; [by apply generate_voiceover_spoken|].
      right; right. split; [done|]. by exists raw.
    + eexists _, _, _. split; [by apply generate_voiceover_speech_error|].
      right; left. split_and!; [done|done|]. right. eauto.
  - eexists _, _, _. split; [by apply generate_voiceover_no_script|]. left. auto.
Qed.

(** X9: the script endpoint answers every request with 200 or 500, never
    touches the disk and makes at most one drafting call; a script that it
    obtained from the drafting service is returned trimmed. *)
Theorem generate_script_outcomes (o : oracle) (req : script_request) (w : world) :
  ∃ status body w' calls,
    generate_script o req w = (Done (Reply status body), w') ∧
    (status = 200 ∨ status = 500) ∧
    disk w' = disk w ∧ log w' = log w ++ calls ∧
    (calls = [] ∨ ∃ analysisText, calls = [EvDraft analysisText]) ∧
    (status = 200 → calls ≠ [] → ∃ d, body = ScriptReply (JString d) ∧ trim d = d).
Proof.
  assert (Hquiet : ∀ status body,
    generate_script o req w = (Done (Reply status body), w) →
    status = 200 ∨ status = 500 →
    ∃ status body w' calls,
      generate_script o req w = (Done (Reply status body), w') ∧
      (status = 200 ∨ status = 500) ∧
      disk w' = disk w ∧ log w' = log w ++ calls ∧
      (calls = [] ∨ ∃ analysisText, calls = [EvDraft analysisText]) ∧
      (status = 200 → calls ≠ [] → ∃ d, body = ScriptReply (JString d) ∧ trim d = d)).
  { intros status body Hrun Hst. exists status, body, w, [].
    split_and!; [done|done|done|by rewrite app_nil_r|by left|done]. }
  assert (Hdraft : truthy (s_userScript req) = false ∨
                   (∃ t, s_userScript req = JString t ∧ t ≠ [] ∧ trim t = []) →
    ∃ status body w' calls,
      generate_script o req w = (Done (Reply status body), w') ∧
      (status = 200 ∨ status = 500) ∧
      disk w' = disk w ∧ log w' = log w ++ calls ∧
      (calls = [] ∨ ∃ analysisText, calls = [EvDraft analysisText]) ∧
      (status = 200 → calls ≠ [] → ∃ d, body = ScriptReply (JString d) ∧ trim d = d)).
  { intros Hu.
    assert (Hprov : ∀ k : bool → M response,
      bind (if truthy (s_userScript req)
            then bind (trim_method (s_userScript req)) (λ t, ret (truthy (JString t)))
            else ret false) k w = k false w).
    { intros k. destruct Hu as [->|(t & -> & Ht & Hb)]; [done|].
      cbn [truthy trim_method]. rewrite bool_decide_false by done. cbn [negb].
      unfold bind at 1 2. cbn [ret]. by rewrite Hb. }
    destruct (s_imageAnalysis req) as [entries|] eqn:Hia.
    - destruct (draft o (count is_draft (log w))) as [text|] eqn:Hd.
      + eexists 200, _, _, [EvDraft _]. split.
        * unfold generate_script, try_catch. rewrite Hprov, Hia.
          unfold bind at 1. unfold call_draft, bind, get_log, emit, ret, throw. cbn [log disk].
          rewrite Hd. reflexivity.
        * split_and!; [auto|done|done|eauto|].
          intros _ _. eexists. split; [done|]. apply trim_idem.
      + eexists 500, _, _, [EvDraft _]. split.
        * unfold generate_script, try_catch. rewrite Hprov, Hia.
          unfold bind at 1. unfold call_draft, bind, get_log, emit, ret, throw. cbn [log disk].
          rewrite Hd. reflexivity.
        * split_and!; [auto|done|done|eauto|done].
    - apply (Hquiet 500 (ErrorReply "Failed to generate script" (Some TypeError))); [|auto].
      unfold generate_script, try_catch. by rewrite Hprov, Hia. }
  destruct (truthy (s_userScript req)) eqn:Htr; [|by apply Hdraft; left].
  destruct (s_userScript req) as [| |b|q|t|] eqn:Hu; try done.
  - apply (Hquiet 500 (ErrorReply "Failed to generate script" (Some TypeError))); [|auto].
    unfold generate_script, try_catch. by rewrite Hu, Htr.
  - apply (Hquiet 500 (ErrorReply "Failed to generate script" (Some TypeError))); [|auto].
    unfold generate_script, try_catch. by rewrite Hu, Htr.
  - assert (Hne : t ≠ []) by (intros ->; done).
    destruct (decide (trim t = [])) as [Hb|Hb].
    + apply Hdraft. right. try rewrite Hu. eauto.
    + apply (Hquiet 200 (ScriptReply (JString t))); [|auto].
      unfold generate_script, try_catch. rewrite Hu. cbn [truthy trim_method].
      rewrite (bool_decide_false (t = [])) by done. cbn [negb].
      unfold bind, ret. by rewrite bool_decide_false.
  - apply (Hquiet 500 (ErrorReply "Failed to generate script" (Some TypeError))); [|auto].
    unfold generate_script, try_catch. by rewrite Hu.
Qed.


(** X11: when the media tool creates nothing but the output file of each
    command, a successful run leaves no intermediate file: the finished
    video output/ad-<timestamp>.mp4 is on disk, and every other file on
    disk was there before the request and is not one of the uploads. *)
Theorem generate_video_leaves_only_the_video (o : oracle) (req : video_request) (w w' : world)
    (body : reply_body) :
  adds_only_output o →
  generate_video o req w = (Done (Reply 200 body), w') →
  let final := path_join (path_join (dirname o) (js "output"))
                 (js "ad-" ++ dec (now o) ++ js ".mp4") in
  final ∈ disk w' ∧
  disk w' ⊆ {[final]} ∪ disk w ∖ list_to_set (path <$> default [] (files req)).
Proof.
  intros Ho H%generate_video_ok.
  apply generate_video_try_disk in H as (uploaded & d & -> & _ & Hfinal & Hsub).
  cbn zeta. split; [done|]. by apply Hsub.
Qed.

Lemma generate_video_leaves_only_the_video_witness :
  adds_only_output obliging ∧
  js "/srv/adforge/backend/output/ad-1700000000000.mp4"
    ∈ disk (generate_video obliging kitchen_first after_upload).2 ∧
  disk (generate_video obliging kitchen_first after_upload).2
    ⊆ {[ js "/srv/adforge/backend/output/ad-1700000000000.mp4" ]}
      ∪ disk after_upload ∖ list_to_set (path <$> [stored_as "kitchen.jpg"; stored_as "bedroom.jpg"]).
Proof.
  assert (Ho : adds_only_output obliging) by (by intros k c d).
  assert (Hrun : generate_video obliging kitchen_first after_upload
                 = (Done (Reply 200 (VideoReply (js "ad-1700000000000.mp4") 10)),
                    (generate_video obliging kitchen_first after_upload).2))
    by (vm_compute; reflexivity).
  split; [exact Ho|].
  exact (generate_video_leaves_only_the_video obliging kitchen_first after_upload _ _ Ho Hrun).
Defined.

(** X12: a successful run of the later video endpoint makes exactly one
    speech call and, for n uploaded images, 2n + 2 media-tool calls (n
    conversions, n clips, the concatenation, the audio step), and it
    calls neither the vision nor the drafting service. *)
Theorem later_run_call_counts (toLowerCase : jsstring → jsstring) (o : oracle)
    (req : video_request) (w w' : world) (body : reply_body) :
  Full.generate_video toLowerCase o req w = Some (Done (Reply 200 body), w') →
  count is_speech (log w') = S (count is_speech (log w)) ∧
  count is_exec (log w')
  = (count is_exec (log w) + 2 * length (default [] (files req)) + 2)%nat ∧
  count is_vision (log w') = count is_vision (log w) ∧
  count is_draft (log w') = count is_draft (log w).
Proof.
  intros Hrun.
  apply full_generate_video_done in Hrun
    as (up & text & ordered & durs & cmd & w1 & -> & _ & Ha & _ & Hlen & Hl1 & -> & _).
  cbn zeta in *. cbn [default]. rewrite Hl1.
  destruct (allocation_cases _ _ _ _ _ _ Ha) as (Hperm%Permutation_length & _).
  rewrite !count_app, !count_cons, !count_app, !count_cons.
  rewrite (count_convert_events is_speech false), (count_timed_clip_events is_speech false)
    by done.
  rewrite (count_convert_events is_exec true), (count_timed_clip_events is_exec true) by done.
  rewrite (count_convert_events is_vision false), (count_timed_clip_events is_vision false)
    by done.
  rewrite (count_convert_events is_draft false), (count_timed_clip_events is_draft false)
    by done.
  rewrite Hlen, Hperm. unfold count. cbn. lia.
Qed.

Lemma later_run_call_counts_witness :
  let run := Full.generate_video lower_ascii_text obliging kitchen_first after_upload in
  count is_speech (log (default after_upload (snd <$> run))) = 1%nat ∧
  count is_exec (log (default after_upload (snd <$> run))) = 6%nat.
Proof.
  intros run.
  assert (Hrun : run = Some (Done (Reply 200 (TimedVideoReply (js "ad-1700000000000.mp4") 6)),
                             default after_upload (snd <$> run)))
    by (vm_compute; reflexivity).
  destruct (later_run_call_counts _ _ _ _ _ _ Hrun) as (H1 & H2 & _).
  split; [exact H1|exact H2].
Defined.

(** X13: the last call of a successful run of the later video endpoint is
    the audio command, and it is one of two: the voiceover alone, or a mix
    with a music file.  The mix reads one of the four stock tracks of the
    music directory, whatever track name the request gave; when the media
    tool creates nothing but the outputs of its commands, that file was
    on disk when the request came; the fade-out starts 3 seconds before
    the end that the run reports; the music gain is never 0. *)
Theorem audio_command_is_confined (toLowerCase : jsstring → jsstring) (o : oracle)
    (req : video_request) (w w' : world) (body : reply_body) :
  Full.generate_video toLowerCase o req w = Some (Done (Reply 200 body), w') →
  ∃ cmd video voiceover final,
    last (log w') = Some (EvExec cmd) ∧
    (cmd = VoiceOnly video voiceover final ∨
     ∃ file gain fadeStart duration,
       cmd = MixMusic video (path_join (path_join (dirname o) (js "music")) file)
               voiceover gain fadeStart final ∧
       file ∈ js <$> ["upbeat.mp3"; "corporate.mp3"; "calm.mp3"; "inspiring.mp3"]%string ∧
       music_requested (music req) = true ∧
       body = TimedVideoReply (js "ad-" ++ dec (now o) ++ js ".mp4") duration ∧
       fadeStart = (duration - 3)%Q ∧ ¬ (gain == 0)%Q ∧
       (adds_only_output o →
        path_join (path_join (dirname o) (js "music")) file ∈ disk w)).
Proof.
  intros Hrun.
  apply full_generate_video_audio_step in Hrun
    as (text & durs & cmd & w1 & _ & -> & Hl & Hc & Hdisk).
  cbn zeta in *. eexists cmd, _, _, _. split; [by rewrite Hl, last_snoc|].
  apply audio_command_cases in Hc as [->|(file & Hfile & Hon & Hm & ->)]; [by left|].
  right. eexists file, _, _, _. split_and!; [done..| |].
  - apply volumeDecimal_nonzero.
  - intros Ho. destruct (Hdisk Ho _ Hon) as [?|[x Hx]]; [done|].
    by apply music_outside_output in Hx.
Qed.

Lemma audio_command_is_confined_witness :
  let run := Full.generate_video lower_ascii_text obliging loud_request with_music in
  ∃ cmd, last (log (default with_music (snd <$> run))) = Some (EvExec cmd) ∧
         ∃ v a f, cmd = MixMusic v (js "/srv/adforge/backend/music/upbeat.mp3") a (50 # 100) 0 f.
Proof.
  intros run.
  assert (Hrun : run = Some (Done (Reply 200 (TimedVideoReply (js "ad-1700000000000.mp4") 3)),
                             default with_music (snd <$> run)))
    by (vm_compute; reflexivity).
  destruct (audio_command_is_confined _ _ _ _ _ _ Hrun) as (cmd & v & a & f & Hlast & _).
  exists cmd. split; [exact Hlast|].
  assert (Hcmd : last (log (default with_music (snd <$> run)))
                 = Some (EvExec (MixMusic
                     (js "/srv/adforge/backend/output/video-no-audio-1700000000000.mp4")
                     (js "/srv/adforge/backend/music/upbeat.mp3")
                     (js "/srv/adforge/backend/output/voice-1700000000000.mp3")
                     (50 # 100) 0
                     (js "/srv/adforge/backend/output/ad-1700000000000.mp4"))))
    by (vm_compute; reflexivity).
  rewrite Hcmd in Hlast. injection Hlast as <-. eauto.
Defined.



(** X15: the name under which an upload is stored, the time in
    milliseconds followed by a hyphen and the original name, determines
    both: two uploads get the same stored name only at the same
    millisecond and under the same original name. *)
Theorem storage_filename_determines_both (t1 t2 : Z) (n1 n2 : jsstring) :
  0 ≤ t1 → 0 ≤ t2 →
  storage_filename t1 n1 = storage_filename t2 n2 ↔ t1 = t2 ∧ n1 = n2.
Proof.
  intros H1 H2. split; [|by intros [-> ->]].
  unfold storage_filename. change (js "-") with [Cu.minus]. cbn [app].
  assert (Hd : ∀ t, 0 ≤ t → Cu.minus ∉ dec t).
  { intros t Ht Hin. pose proof (dec_digits t Ht) as Hall.
    rewrite Forall_forall in Hall. by apply Hall in Hin. }
  intros [E ->]%split_at_first; [|by apply Hd..].
  by apply dec_inj in E.
Qed.

Lemma storage_filename_determines_both_witness :
  0 ≤ 1 ∧ 0 ≤ 11 ∧
  (storage_filename 1 (js "1-a.jpg") = storage_filename 11 (js "a.jpg")
   ↔ 1 = 11 ∧ js "1-a.jpg" = js "a.jpg").
Proof.
  split; [lia|]. split; [lia|].
  apply (storage_filename_determines_both 1 11 (js "1-a.jpg") (js "a.jpg")); lia.
Defined.

(** X16: in a successful run of the video endpoint no two media-tool
    calls write the same file, and none of them writes over the voiceover
    or the concat manifest: the clips, the silent video and the finished
    video have names distinct from each other and from those two. *)
Theorem run_files_are_distinct (o : oracle) (req : video_request) (w w' : world)
    (body : reply_body) :
  generate_video o req w = (Done (Reply 200 body), w') →
  ∃ calls,
    log w' = log w ++ calls ∧
    let outputDir := path_join (dirname o) (js "output") in
    NoDup (path_join outputDir (js "voice-" ++ dec (now o) ++ js ".mp3")
           :: path_join outputDir (js "concat-" ++ dec (now o) ++ js ".txt")
           :: outputs calls).
Proof.
  intros H%generate_video_ok.
  apply generate_video_try_done in H as (uploaded & s & cmd & _ & _ & _ & Hlog & w1 & Hc).
  cbn zeta in *. eexists. split; [exact Hlog|]. cbn zeta.
  apply audio_command_output in Hc.
  change (outputs (EvSpeech ?v ?i :: ?l)) with (outputs l).
  rewrite outputs_app, outputs_clip_events.
  unfold outputs. cbn [omap list_omap output_of]. rewrite Hc.
  assert (Hclip : ∀ (name : string) rest i n,
            (2 ≤ length (js name))%nat → take 2 (js name) ≠ take 2 (js "clip-") →
            path_join (path_join (dirname o) (js "output")) (js name ++ rest)
            ∉ (λ k, path_join (path_join (dirname o) (js "output"))
                      (js "clip-" ++ dec (now o) ++ js "-" ++ dec (Z.of_nat k) ++ js ".mp4"))
              <$> seq i n).
  { intros name rest i n Hlen Hne (k & E%path_join_inj & _)%list_elem_of_fmap.
    revert E. apply name_differs; [done|vm_compute; lia|done]. }
  assert (Hname : ∀ (a b : string) x y,
            (2 ≤ length (js a))%nat → (2 ≤ length (js b))%nat →
            take 2 (js a) ≠ take 2 (js b) →
            path_join (path_join (dirname o) (js "output")) (js a ++ x)
            ≠ path_join (path_join (dirname o) (js "output")) (js b ++ y)).
  { intros a b x y Ha Hb Hne E%path_join_inj. revert E. by apply name_differs. }
  repeat first
    [ apply NoDup_nil_2
    | apply NoDup_cons_2
    | apply NoDup_app; split_and!; [apply clip_paths_NoDup| |]
    | rewrite not_elem_of_cons
    | rewrite not_elem_of_app
    | split
    | apply not_elem_of_nil
    | apply Hclip; [vm_compute; lia|by vm_compute]
    | apply Hname; [vm_compute; lia|vm_compute; lia|by vm_compute] ].
  intros x Hx [->|[->|[]%elem_of_nil]%elem_of_cons]%elem_of_cons; revert Hx;
    apply Hclip; first [vm_compute; lia|by vm_compute].
Qed.

Lemma run_files_are_distinct_witness :
  outputs (log (generate_video obliging kitchen_first after_upload).2)
  = js <$> ["/srv/adforge/backend/output/clip-1700000000000-0.mp4";
            "/srv/adforge/backend/output/clip-1700000000000-1.mp4";
            "/srv/adforge/backend/output/video-no-audio-1700000000000.mp4";
            "/srv/adforge/backend/output/ad-1700000000000.mp4"]%string ∧
  ∃ calls, log (generate_video obliging kitchen_first after_upload).2
           = log after_upload ++ calls ∧
           NoDup (js "/srv/adforge/backend/output/voice-1700000000000.mp3"
                  :: js "/srv/adforge/backend/output/concat-1700000000000.txt"
                  :: outputs calls).
Proof.
  assert (Hrun : generate_video obliging kitchen_first after_upload
                 = (Done (Reply 200 (VideoReply (js "ad-1700000000000.mp4") 10)),
                    (generate_video obliging kitchen_first after_upload).2))
    by (vm_compute; reflexivity).
  split; [by vm_compute|].
  exact (run_files_are_distinct obliging kitchen_first after_upload _ _ Hrun).
Defined.
